(** * sensitive-analysis: chunker, validator, deduper and workflow

    A shallow embedding of the TypeScript sources of the sensitive-analysis
    pipeline (analyze/chunker.ts, analyze/validator.ts, analyze/deduper.ts,
    analyze/identifier.ts, analyze/workflow.ts, analyze/index.ts) together
    with the properties the specification states about them.

    Conventions.
    - A JavaScript string is the list of its UTF-16 code units ([jsstring]);
      [length], [slice], [includes], [replace] and [===] act on code units.
    - A JavaScript number that the code treats as a possibly fractional
      quantity (option values, confidences) is a rational [Q]; NaN and the
      infinities are outside the model.  Indices and lengths are [Z].
    - A [throw] is the [Throw] result carrying the error message.
    - A [while] loop is run on fuel: [None] means the fuel ran out. *)

From stdpp Require Import base option list sorting gmap.
From Stdlib Require Import ZArith QArith Qround Qminmax Lia.
From Stdlib Require Import Ascii.
From Stdlib Require String DecimalString DecimalZ.
Import String.StringSyntax.
Delimit Scope string_scope with string.
Import ListNotations.

Open Scope Z_scope.

(** ** JavaScript strings *)

Module Js.

Definition jsstring := list N.

(** String literals of the sources, as code units. *)
Definition str (s : String.string) : jsstring :=
  List.map N_of_ascii (String.list_ascii_of_string s).
Arguments str s%_string.

Definition len (s : jsstring) : Z := Z.of_nat (length s).

Definition streq (a b : jsstring) : bool := bool_decide (a = b).

(** [String.prototype.slice(start, end)] on integer arguments: negative
    arguments count from the end, both are clamped to the string. *)
Definition slice (s : jsstring) (start end_ : Z) : jsstring :=
  let from := if start <? 0 then Z.max (len s + start) 0 else Z.min start (len s) in
  let to := if end_ <? 0 then Z.max (len s + end_) 0 else Z.min end_ (len s) in
  take (Z.to_nat (to - from)) (drop (Z.to_nat from) s).

(** [s.includes(c)] for a one-character needle. *)
Definition includes (s : jsstring) (c : N) : bool :=
  existsb (N.eqb c) s.

(** [xs.join(sep)]. *)
Fixpoint join (sep : jsstring) (xs : list jsstring) : jsstring :=
  match xs with
  | [] => []
  | [x] => x
  | x :: rest => x ++ sep ++ join sep rest
  end.

(** Decimal rendering of an integer inside a template literal. *)
Definition ofZ (z : Z) : jsstring := str (DecimalString.NilEmpty.string_of_int (Z.to_int z)).
Definition ofNat (n : nat) : jsstring := ofZ (Z.of_nat n).

(** [WhiteSpace] and [LineTerminator] code units, the ones [trim] strips. *)
Definition isWhiteSpace (c : N) : bool :=
  existsb (N.eqb c)
    [9; 10; 11; 12; 13; 32; 160; 5760; 8192; 8193; 8194; 8195; 8196; 8197;
     8198; 8199; 8200; 8201; 8202; 8232; 8233; 8239; 8287; 12288; 65279]%N.

Fixpoint trimStart (s : jsstring) : jsstring :=
  match s with
  | c :: rest => if isWhiteSpace c then trimStart rest else s
  | [] => []
  end.

Definition trimEnd (s : jsstring) : jsstring := rev (trimStart (rev s)).

Definition trim (s : jsstring) : jsstring := trimEnd (trimStart s).

(** Results of code that may throw; the payload of [Throw] is
    [error.message]. *)
Inductive Result (A : Type) : Type :=
| Ok (a : A)
| Throw (message : jsstring).
Arguments Ok {A} a.
Arguments Throw {A} message.

Definition bind {A B} (r : Result A) (k : A -> Result B) : Result B :=
  match r with
  | Ok a => k a
  | Throw m => Throw m
  end.

End Js.

Import Js.

(** ** types.ts *)

(** [AnalysisTypeEnum] is a string enum: at run time a value of that type is a
    string, and callers do hand in strings outside the four members
    (['UNKNOWN' as AnalysisTypeEnum]). *)
Definition AnalysisTypeEnum := jsstring.
Definition UNSTRUCTURED : AnalysisTypeEnum := str "UNSTRUCTURED".
Definition SPREADSHEET : AnalysisTypeEnum := str "SPREADSHEET".
Definition JSON : AnalysisTypeEnum := str "JSON".
Definition CSV : AnalysisTypeEnum := str "CSV".

Definition inEnum (t : AnalysisTypeEnum) : bool :=
  streq t UNSTRUCTURED || streq t CSV || streq t JSON || streq t SPREADSHEET.

Record ChunkData := mkChunk {
  id : jsstring;
  text : jsstring;
  offset : Z;
  analysisType : AnalysisTypeEnum
}.

(** [Required<ChunkingOptions>]. *)
Record ChunkingOptions := mkOptions {
  chunkSize : Q;
  overlap : Q;
  columnChunkSize : Q
}.

(** The [ChunkingOptions] a caller passes: every field is optional. *)
Record PartialChunkingOptions := mkPartialOptions {
  chunkSize_opt : option Q;
  overlap_opt : option Q;
  columnChunkSize_opt : option Q
}.

(** [SensitiveEntity] is a union of interfaces told apart by probing for
    fields (['text' in entity], ...): an entity is the record of the base
    fields and of the variant fields it happens to carry.  A field that is
    present has the type its interface declares, so that the [typeof] and
    [Array.isArray] tests of the type guards hold of it. *)
Module Entity.
Record SensitiveEntity := mkEntity {
  entity : jsstring;
  reference : jsstring;
  confidence : Q;
  rankHex : jsstring;
  category : jsstring;
  text : option jsstring;
  ranges : option (list jsstring);
  sheetName : option jsstring;
  path : option jsstring
}.
End Entity.
Export Entity (SensitiveEntity, mkEntity, entity, reference, confidence, rankHex,
               category, ranges, sheetName, path).

(** [a < b] on numbers. *)
Definition Qltb (a b : Q) : bool := negb (Qle_bool b a).

(** [Required<ValidationConfig>]. *)
Record ValidationConfig := mkValidationConfig {
  minimumConfidence : Q;
  enableStrictMode : bool
}.

Record PartialValidationConfig := mkPartialValidationConfig {
  minimumConfidence_opt : option Q;
  enableStrictMode_opt : option bool
}.

(** [DeduplicationConfig] once merged with the defaults. *)
Record DeduplicationConfig := mkDeduplicationConfig {
  caseSensitive : bool
}.

Record PartialDeduplicationConfig := mkPartialDeduplicationConfig {
  caseSensitive_opt : option bool
}.

(** [process.env.NODE_ENV]. *)
Definition NodeEnv := option jsstring.
Definition isTestEnv (env : NodeEnv) : bool :=
  match env with Some v => streq v (str "test") | None => false end.

(** [StreamingEntityThinking]: an entity as the model has written it so
    far. *)
Record StreamingEntityThinking := mkThinking {
  thinking_opt : option jsstring;
  entity_opt : option jsstring;
  reference_opt : option jsstring;
  confidence_opt : option Q;
  rankHex_opt : option jsstring;
  category_opt : option jsstring;
  path_opt : option jsstring;
  ranges_opt : option (list jsstring);
  sheetName_opt : option jsstring;
  text_opt : option jsstring
}.

Record AnalysisStats := mkStats {
  chunksGenerated : nat;
  entitiesFound : nat;
  entitiesValidated : nat;
  entitiesDeduplicated : nat;
  processingTimeMs : Z
}.

(** What the event callback of [analyzeSensitiveContent] is called with:
    the event type and its data. *)
Inductive Event :=
| thinking (chunkId : jsstring) (entities : list StreamingEntityThinking)
           (timestamp : Z)
| complete (entities : list SensitiveEntity) (stats : AnalysisStats)
| error (message : jsstring).

(** A policy as the workflow receives it; [None] stands for a field that is
    missing or is not a string. *)
Module Policy.
Record PolicyFragment := mkPolicy {
  id : option jsstring;
  name : option jsstring
}.
End Policy.
Export Policy (PolicyFragment, mkPolicy).

Module Job.
Record ProcessingJob := mkJob {
  content : jsstring;
  analysisType : AnalysisTypeEnum;
  policies : list PolicyFragment
}.
End Job.
Export Job (ProcessingJob, mkJob, content, policies).

(** ** analyze/chunker.ts: the unstructured strategy *)

Module Chunker.

Definition defaultOptions : ChunkingOptions :=
  {| chunkSize := 2000; overlap := 200; columnChunkSize := 4 |}.

(** [{ ...defaultOptions, ...options }]. *)
Definition mergeOptions (base : ChunkingOptions) (o : PartialChunkingOptions)
  : ChunkingOptions :=
  {| chunkSize := default (chunkSize base) (chunkSize_opt o);
     overlap := default (overlap base) (overlap_opt o);
     columnChunkSize := default (columnChunkSize base) (columnChunkSize_opt o) |}.

Definition constructor (o : PartialChunkingOptions) : ChunkingOptions :=
  mergeOptions defaultOptions o.

Section Unstructured.

(** [Date.now()] as read when the chunk with a given index is created. *)
Variable clock : nat -> Z.

Definition generateChunkId (index : nat) : jsstring :=
  str "chunk_" ++ ofZ (clock index) ++ str "_" ++ ofNat index.

Definition clampSize (o : ChunkingOptions) : Z := Z.max 1 (Qfloor (chunkSize o)).
Definition clampOverlap (o : ChunkingOptions) : Z := Z.max 0 (Qfloor (overlap o)).
Definition stepOf (o : ChunkingOptions) : Z :=
  Z.max 1 (clampSize o - clampOverlap o).

(** The [while (start < text.length)] loop; one unit of fuel per test of the
    loop condition. *)
Fixpoint chunkLoop (fuel : nat) (txt : jsstring) (ty : AnalysisTypeEnum)
    (size step start : Z) (chunks : list ChunkData) : option (list ChunkData) :=
  match fuel with
  | O => None
  | S fuel' =>
      if start <? len txt then
        let end_ := Z.min (len txt) (start + size) in
        let chunkText := slice txt start end_ in
        let chunks' :=
          chunks ++ [ {| id := generateChunkId (length chunks);
                         text := chunkText;
                         offset := start;
                         analysisType := ty |} ] in
        let start' := start + step in
        if len txt <=? end_ then Some chunks'
        else chunkLoop fuel' txt ty size step start' chunks'
      else Some chunks
  end.

Definition chunkUnstructured (fuel : nat) (o : ChunkingOptions)
    (txt : jsstring) (ty : AnalysisTypeEnum) : option (list ChunkData) :=
  let size := clampSize o in
  let ov := clampOverlap o in
  let step := Z.max 1 (size - ov) in
  if len txt =? 0 then
    Some [ {| id := generateChunkId 0; text := []; offset := 0;
              analysisType := ty |} ]
  else chunkLoop fuel txt ty size step 0 [].

(** [getChunkingStrategy]: the lookup in the [strategies] table, for the
    types that are not the name of a property of [Object.prototype]; under
    such a name ([toString], [constructor], ...) the lookup finds the
    inherited value and nothing is thrown. *)
Inductive Strategy := chunkUnstructuredS | chunkByColumnS | chunkJsonS.

Definition getChunkingStrategy (t : AnalysisTypeEnum) : Result Strategy :=
  if streq t UNSTRUCTURED then Ok chunkUnstructuredS
  else if streq t CSV then Ok chunkByColumnS
  else if streq t JSON then Ok chunkJsonS
  else if streq t SPREADSHEET then Ok chunkByColumnS
  else Throw (str "Unsupported analysis type: " ++ t).

(** The column and JSON strategies are not needed below and stay abstract. *)
Variable chunkByColumn chunkJson :
  ChunkingOptions -> jsstring -> AnalysisTypeEnum -> option (list ChunkData).

(** [createChunks]: [None] when the fuel runs out, [Some (Throw _)] for the
    unsupported-type error. *)
Definition createChunks (fuel : nat) (o : ChunkingOptions)
    (t : AnalysisTypeEnum) (content : jsstring)
  : option (Result (list ChunkData)) :=
  match getChunkingStrategy t with
  | Throw m => Some (Throw m)
  | Ok chunkUnstructuredS => Ok <$> chunkUnstructured fuel o content t
  | Ok chunkByColumnS => Ok <$> chunkByColumn o content t
  | Ok chunkJsonS => Ok <$> chunkJson o content t
  end.

End Unstructured.

(** *** Character ranges of chunks, as the specification speaks of them *)

Definition chunkEnd (c : ChunkData) : Z := offset c + len (text c).

Definition inRange (p : Z) (c : ChunkData) : Prop :=
  offset c <= p < chunkEnd c.

(** The union of the ranges [[offset, offset + text.length)] is [[0, L)]. *)
Definition coversExactly (chunks : list ChunkData) (L : Z) : Prop :=
  forall p : Z, (exists c, c ∈ chunks /\ inRange p c) <-> 0 <= p < L.

(** Number of positions two chunks have in common. *)
Definition rangeOverlap (a b : ChunkData) : Z :=
  Z.max 0 (Z.min (chunkEnd a) (chunkEnd b) - Z.max (offset a) (offset b)).

Definition consecutiveOverlap (k : Z) (chunks : list ChunkData) : Prop :=
  forall (i : nat) a b,
    chunks !! i = Some a -> chunks !! S i = Some b -> rangeOverlap a b = k.

(** Every chunk carries the characters of the content at its offset. *)
Definition textsFrom (content : jsstring) (chunks : list ChunkData) : Prop :=
  forall c, c ∈ chunks -> text c = slice content (offset c) (chunkEnd c).

(** The property as the specification words it: exact cover, and every pair
    of consecutive chunks but possibly the last overlaps by [min(O, S)]. *)
Definition specWindows (o : ChunkingOptions) (content : jsstring)
    (chunks : list ChunkData) : Prop :=
  coversExactly chunks (len content) /\
  forall (i : nat) a b,
    (S (S i) < length chunks)%nat ->
    chunks !! i = Some a -> chunks !! S i = Some b ->
    (inject_Z (rangeOverlap a b) == Qmin (overlap o) (chunkSize o))%Q.

(** The windows the loop lays out from [start]: all of size [size] but the
    last, which is the first to reach the end of the text. *)
Inductive Windows (txt : jsstring) (size step : Z) : Z -> list ChunkData -> Prop :=
| Windows_last start c :
    start < len txt -> len txt <= start + size ->
    offset c = start -> text c = slice txt start (len txt) ->
    Windows txt size step start [c]
| Windows_more start c rest :
    start + size < len txt ->
    offset c = start -> text c = slice txt start (start + size) ->
    Windows txt size step (start + step) rest ->
    Windows txt size step start (c :: rest).

(** Inputs used in the examples. *)
Definition clock0 : nat -> Z := fun _ => 0.
Definition noStrategy :
  ChunkingOptions -> jsstring -> AnalysisTypeEnum -> option (list ChunkData) :=
  fun _ _ _ => Some [].
Definition hello : jsstring := str "hello".
Definition negativeOverlap : ChunkingOptions :=
  {| chunkSize := 2; overlap := -1; columnChunkSize := 4 |}.
Definition smallWindow : ChunkingOptions :=
  {| chunkSize := 3; overlap := 1; columnChunkSize := 4 |}.

End Chunker.

(** ** analyze/chunker.ts: the CSV parser and serializer *)

Module Csv.

Definition quote : N := 34.
Definition comma : N := 44.
Definition LF : N := 10.
Definition CR : N := 13.

(** The [while (index < content.length)] loop of [parseCsv]; the list is the
    rest of the content from [index] on, so that [content[index + 1]] is the
    head of the tail and [index += 2] drops two characters. *)
Fixpoint parseLoop (content : jsstring) (inQuotes : bool)
    (currentField : jsstring) (currentRow : list jsstring)
    (rows : list (list jsstring)) : list (list jsstring) :=
  match content with
  | [] => rows ++ [currentRow ++ [currentField]]
  | ch :: rest =>
      if (ch =? quote)%N then
        match rest with
        | next :: rest' =>
            if inQuotes && (next =? quote)%N
            then parseLoop rest' inQuotes (currentField ++ [quote]) currentRow rows
            else parseLoop rest (negb inQuotes) currentField currentRow rows
        | [] => parseLoop rest (negb inQuotes) currentField currentRow rows
        end
      else if negb inQuotes && (ch =? comma)%N then
        parseLoop rest inQuotes [] (currentRow ++ [currentField]) rows
      else if negb inQuotes && ((ch =? LF)%N || (ch =? CR)%N) then
        let rows' := rows ++ [currentRow ++ [currentField]] in
        match rest with
        | next :: rest' =>
            if (ch =? CR)%N && (next =? LF)%N
            then parseLoop rest' inQuotes [] [] rows'
            else parseLoop rest inQuotes [] [] rows'
        | [] => parseLoop rest inQuotes [] [] rows'
        end
      else parseLoop rest inQuotes (currentField ++ [ch]) currentRow rows
  end.

Definition parseCsv (content : jsstring) : list (list jsstring) :=
  parseLoop content false [] [] [].

(** The global replace of [val]: every quote character is doubled. *)
Definition escapeQuotes (val : jsstring) : jsstring :=
  flat_map (fun c => if (c =? quote)%N then [quote; quote] else [c]) val.

Definition serializeField (val : jsstring) : jsstring :=
  let escaped := escapeQuotes val in
  if includes escaped comma || includes escaped quote
     || includes escaped CR || includes escaped LF
  then [quote] ++ escaped ++ [quote]
  else escaped.

Definition serializeCsvRow (vals : list jsstring) : jsstring :=
  join [comma] (List.map serializeField vals).

(** What follows a closing quote: the end of the content, or a character
    other than a quote. *)
Definition closes (rest : jsstring) : Prop :=
  match rest with [] => True | c :: _ => c <> quote end.

(** A character the serializer leaves unquoted. *)
Definition plainChar (c : N) : Prop :=
  c <> quote /\ c <> comma /\ c <> LF /\ c <> CR.

(** The round trip as the specification words it, for one row. *)
Definition roundTrips (vals : list jsstring) : Prop :=
  parseCsv (serializeCsvRow vals) = [vals].

(** A row with a comma, a quote and a newline in its fields. *)
Definition trickyRow : list jsstring :=
  [str "a,b"; str "say " ++ [quote] ++ str "hi" ++ [quote];
   str "line1" ++ [LF] ++ str "line2"; []; str "plain"].

End Csv.

(** ** analyze/validator.ts *)

Module Validator.

Definition defaultConfig : ValidationConfig :=
  {| minimumConfidence := 7; enableStrictMode := false |}.

(** [{ ...base, ...config }]. *)
Definition mergeConfig (base : ValidationConfig) (c : PartialValidationConfig)
  : ValidationConfig :=
  {| minimumConfidence := default (minimumConfidence base) (minimumConfidence_opt c);
     enableStrictMode := default (enableStrictMode base) (enableStrictMode_opt c) |}.

Definition constructor (c : PartialValidationConfig) : ValidationConfig :=
  mergeConfig defaultConfig c.

Definition updateConfig (config : ValidationConfig)
    (newConfig : PartialValidationConfig) : ValidationConfig :=
  mergeConfig config newConfig.

(** [!entity.entity || entity.entity.trim().length === 0]. *)
Definition blankLabel (label : jsstring) : bool :=
  (len label =? 0) || (len (trim label) =? 0).

Definition isValidEntity (config : ValidationConfig) (e : SensitiveEntity) : bool :=
  if Qltb (confidence e) (minimumConfidence config) then false
  else if enableStrictMode config then
    if blankLabel (entity e) then false
    else if Qltb (confidence e) 8 then false
    else true
  else true.

Definition validateEntities (config : ValidationConfig)
    (entities : list SensitiveEntity) : list SensitiveEntity :=
  List.filter (isValidEntity config) entities.

Definition validateSingle (config : ValidationConfig) (e : SensitiveEntity) : bool :=
  isValidEntity config e.

(** *** The rule as the specification words it *)

(** Strict mode's effective floor is [max(minimumConfidence, 8)]. *)
Definition effectiveFloor (config : ValidationConfig) : Q :=
  if enableStrictMode config then Qmax (minimumConfidence config) 8
  else minimumConfidence config.

Definition accepted (config : ValidationConfig) (e : SensitiveEntity) : Prop :=
  (minimumConfidence config <= confidence e)%Q /\
  (enableStrictMode config = true ->
     trim (entity e) <> [] /\ (8 <= confidence e)%Q).

(** [Kept config input output]: [output] is [input] with the entities that
    are not accepted struck out, and nothing else changed. *)
Inductive Kept (config : ValidationConfig)
  : list SensitiveEntity -> list SensitiveEntity -> Prop :=
| Kept_nil : Kept config [] []
| Kept_take e input output :
    accepted config e -> Kept config input output ->
    Kept config (e :: input) (e :: output)
| Kept_drop e input output :
    ~ accepted config e -> Kept config input output ->
    Kept config (e :: input) output.

End Validator.

(** ** analyze/deduper.ts *)

Module Deduper.

Definition isUnstructuredSensitiveEntity (e : SensitiveEntity) : bool :=
  bool_decide (is_Some (Entity.text e)).

Definition isSpreadsheetSensitiveEntity (e : SensitiveEntity) : bool :=
  bool_decide (is_Some (ranges e)) && bool_decide (is_Some (sheetName e)).

Definition isStructuredSensitiveEntity (e : SensitiveEntity) : bool :=
  bool_decide (is_Some (path e)) && negb (bool_decide (is_Some (ranges e))).

Definition defaultConfig : DeduplicationConfig := {| caseSensitive := false |}.

Definition mergeConfig (base : DeduplicationConfig)
    (c : PartialDeduplicationConfig) : DeduplicationConfig :=
  {| caseSensitive := default (caseSensitive base) (caseSensitive_opt c) |}.

Definition constructor (c : PartialDeduplicationConfig) : DeduplicationConfig :=
  mergeConfig defaultConfig c.

Definition updateConfig (config : DeduplicationConfig)
    (newConfig : PartialDeduplicationConfig) : DeduplicationConfig :=
  mergeConfig config newConfig.

(** A key of the [seen] map: a string, or [undefined] when the key
    extractor reads a field the entity does not have. *)
Inductive MapKey := KeyUndefined | KeyString (s : jsstring).

#[export] Instance MapKey_eq_dec : EqDecision MapKey.
Proof. solve_decision. Defined.

(** [Map<string, T>]: the entries in insertion order; [set] on a key that is
    present replaces the value in place, on a new key it appends. *)
Definition SeenMap := list (MapKey * SensitiveEntity).

Fixpoint mapGet (seen : SeenMap) (key : MapKey) : option SensitiveEntity :=
  match seen with
  | [] => None
  | (k, v) :: rest => if decide (k = key) then Some v else mapGet rest key
  end.

Fixpoint mapSet (seen : SeenMap) (key : MapKey) (v : SensitiveEntity) : SeenMap :=
  match seen with
  | [] => [(key, v)]
  | (k, old) :: rest =>
      if decide (k = key) then (k, v) :: rest else (k, old) :: mapSet rest key v
  end.

(** One turn of [for (const entity of entities)]. *)
Definition dedupStep (seen : SeenMap) (key : MapKey) (e : SensitiveEntity) : SeenMap :=
  match mapGet seen key with
  | None => mapSet seen key e
  | Some existing =>
      if Qltb (confidence existing) (confidence e) then mapSet seen key e
      else seen
  end.

Fixpoint dedupLoop (keyExtractor : SensitiveEntity -> Result MapKey)
    (entities : list SensitiveEntity) (seen : SeenMap) : Result SeenMap :=
  match entities with
  | [] => Ok seen
  | e :: rest =>
      bind (keyExtractor e) (fun key =>
        dedupLoop keyExtractor rest (dedupStep seen key e))
  end.

(** [[...seen.values()]]. *)
Definition deduplicateByKey (keyExtractor : SensitiveEntity -> Result MapKey)
    (entities : list SensitiveEntity) : Result (list SensitiveEntity) :=
  bind (dedupLoop keyExtractor entities []) (fun seen => Ok (List.map snd seen)).

(** [Array.prototype.sort] with a comparator: the sort is stable, and for a
    consistent comparator every stable sort returns the list that inserting
    each element before the first one not smaller than it returns. *)
Fixpoint sortInsert (compare : jsstring -> jsstring -> Z) (x : jsstring)
    (sorted : list jsstring) : list jsstring :=
  match sorted with
  | [] => [x]
  | y :: rest =>
      if compare x y <=? 0 then x :: y :: rest
      else y :: sortInsert compare x rest
  end.

Definition sort (compare : jsstring -> jsstring -> Z) (xs : list jsstring)
  : list jsstring :=
  foldr (sortInsert compare) [] xs.

Section RemoveDuplicates.

(** [String.prototype.toLowerCase] and [String.prototype.localeCompare] are
    the engine's. *)
Variable toLowerCase : jsstring -> jsstring.
Variable localeCompare : jsstring -> jsstring -> Z.

Definition undefinedProperty : jsstring :=
  str "Cannot read properties of undefined".
Definition notIterable : jsstring := str "undefined is not iterable".

(** [(entity) => caseSensitive ? entity.text : entity.text.toLowerCase()]. *)
Definition textKey (config : DeduplicationConfig) (e : SensitiveEntity)
  : Result MapKey :=
  if caseSensitive config then
    Ok (match Entity.text e with Some t => KeyString t | None => KeyUndefined end)
  else
    match Entity.text e with
    | Some t => Ok (KeyString (toLowerCase t))
    | None => Throw undefinedProperty
    end.

Definition normalizeRanges (rs : list jsstring) : jsstring :=
  join (str ",") (sort localeCompare rs).

(** The template literal [sheetName:normalizeRanges(ranges)]. *)
Definition rangesKey (e : SensitiveEntity) : Result MapKey :=
  match ranges e with
  | Some rs =>
      Ok (KeyString (default (str "undefined") (sheetName e) ++ str ":"
                     ++ normalizeRanges rs))
  | None => Throw notIterable
  end.

(** [(entity) => entity.path]. *)
Definition pathKey (e : SensitiveEntity) : Result MapKey :=
  Ok (match path e with Some p => KeyString p | None => KeyUndefined end).

(** [console.warn] when entities were left out, except under test. *)
Definition mismatchWarning (env : NodeEnv) (kind : jsstring)
    (entities matched : list SensitiveEntity) : list jsstring :=
  if negb (length matched =? length entities)%nat && negb (isTestEnv env)
  then [str "Expected " ++ ofNat (length entities) ++ str " " ++ kind
        ++ str " entities, but only " ++ ofNat (length matched)
        ++ str " matched the type"]
  else [].

(** [removeDuplicates]: what is written to the console, and the result. *)
Definition removeDuplicates (env : NodeEnv) (config : DeduplicationConfig)
    (entities : list SensitiveEntity) (analysisType : AnalysisTypeEnum)
  : list jsstring * Result (list SensitiveEntity) :=
  if streq analysisType UNSTRUCTURED then
    let unstructuredEntities := List.filter isUnstructuredSensitiveEntity entities in
    (mismatchWarning env (str "unstructured") entities unstructuredEntities,
     deduplicateByKey (textKey config) unstructuredEntities)
  else if streq analysisType SPREADSHEET then
    let spreadsheetEntities := List.filter isSpreadsheetSensitiveEntity entities in
    (mismatchWarning env (str "spreadsheet") entities spreadsheetEntities,
     deduplicateByKey rangesKey spreadsheetEntities)
  else if streq analysisType JSON then
    let jsonEntities := List.filter isStructuredSensitiveEntity entities in
    (mismatchWarning env (str "JSON") entities jsonEntities,
     deduplicateByKey pathKey jsonEntities)
  else if streq analysisType CSV then
    let csvEntities := List.filter isStructuredSensitiveEntity entities in
    (mismatchWarning env (str "CSV") entities csvEntities,
     deduplicateByKey pathKey csvEntities)
  else ([], Ok entities).

(** *** The algorithm as the specification words it *)

(** Which entities take part in the pass for a shape. *)
Definition matchesShape (t : AnalysisTypeEnum) (e : SensitiveEntity) : bool :=
  if streq t UNSTRUCTURED then isUnstructuredSensitiveEntity e
  else if streq t SPREADSHEET then isSpreadsheetSensitiveEntity e
  else isStructuredSensitiveEntity e.

(** The identity key by shape: the excerpt (lower-cased unless
    [caseSensitive]), the sheet name and the sorted ranges, or the path. *)
Definition identityKey (config : DeduplicationConfig) (t : AnalysisTypeEnum)
    (e : SensitiveEntity) : jsstring :=
  if streq t UNSTRUCTURED then
    let excerpt := default [] (Entity.text e) in
    if caseSensitive config then excerpt else toLowerCase excerpt
  else if streq t SPREADSHEET then
    default [] (sheetName e) ++ str ":"
      ++ join (str ",") (sort localeCompare (default [] (ranges e)))
  else default [] (path e).

End RemoveDuplicates.

(** The keys of the map once [k] has been set. *)
Definition addKey (acc : list MapKey) (k : MapKey) : list MapKey :=
  if decide (k ∈ acc) then acc else acc ++ [k].

(** [better cur e]: the entity kept for a key once [e] has been seen. *)
Definition better (cur : option SensitiveEntity) (e : SensitiveEntity)
  : option SensitiveEntity :=
  match cur with
  | None => Some e
  | Some c => if Qltb (confidence c) (confidence e) then Some e else Some c
  end.

(** The loop for a key extractor that does not throw. *)
Definition dedupPure (key : SensitiveEntity -> MapKey)
    (entities : list SensitiveEntity) (seen : SeenMap) : SeenMap :=
  foldl (fun seen e => dedupStep seen (key e) e) seen entities.

(** [a] sorts before [b], or ties with it. *)
Definition before (compare : jsstring -> jsstring -> Z) (a b : jsstring) : Prop :=
  compare a b <= 0.

(** The distinct keys in the order in which they are first seen. *)
Definition firstSeen {K} `{EqDecision K} (keys : list K) : list K :=
  foldl (fun acc k => if decide (k ∈ acc) then acc else acc ++ [k]) [] keys.

(** [IsBest candidates e]: [e] is the first of [candidates] with the highest
    confidence: every earlier one is strictly below it, no later one is
    above it. *)
Definition IsBest (candidates : list SensitiveEntity) (e : SensitiveEntity) : Prop :=
  exists earlier later,
    candidates = earlier ++ e :: later /\
    Forall (fun x => (confidence x < confidence e)%Q) earlier /\
    Forall (fun x => (confidence x <= confidence e)%Q) later.

(** [Deduplicated key input output]: one output entity per distinct key, in
    the order the keys are first seen, each the best of the input entities
    with its key. *)
Definition Deduplicated (key : SensitiveEntity -> jsstring)
    (input output : list SensitiveEntity) : Prop :=
  Forall2
    (fun k e => IsBest (List.filter (fun x => bool_decide (key x = k)) input) e)
    (firstSeen (List.map key input)) output.

End Deduper.

(** ** analyze/identifier.ts, analyze/workflow.ts and analyze/index.ts *)

Module Workflow.

(** [s.includes(sub)]. *)
Fixpoint startsWith (s sub : jsstring) : bool :=
  match sub, s with
  | [], _ => true
  | _ :: _, [] => false
  | c :: sub', d :: s' => (c =? d)%N && startsWith s' sub'
  end.

Fixpoint includesStr (s sub : jsstring) : bool :=
  startsWith s sub ||
  match s with
  | [] => false
  | _ :: s' => includesStr s' sub
  end.

(** What [streamObject] does for one chunk: the [entities] of the partial
    objects it streams ([None] when a partial object has none), then
    [result.object]'s entities, or the failure of the call. *)
Record ModelRun := mkRun {
  partialObjectStream : list (option (list StreamingEntityThinking));
  object : Result (list SensitiveEntity)
}.

(** An issue zod reports on a job. *)
Inductive Issue :=
| contentTooSmall
| invalidEnumValue
| policiesTooSmall
| policyIdNotString (index : nat)
| policyNameNotString (index : nat).

(** What surrounds a run of the workflow. *)
Record World := mkWorld {
  (** [process.env.NODE_ENV] *)
  NODE_ENV : NodeEnv;
  (** the event callback: given the calls made so far and the event, it
      returns or throws *)
  onEvent : list Event -> Event -> Result unit;
  (** the model, for the chunk task of a given index *)
  streamObject : nat -> ChunkData -> ModelRun;
  (** [this.chunker.createChunks] *)
  createChunks : AnalysisTypeEnum -> jsstring -> Result (list ChunkData);
  (** [Date.now()] at the n-th call of the callback *)
  now : nat -> Z;
  (** [Date.now() - startTime] when the results are compiled *)
  elapsed : Z;
  (** the message of a [ZodError] *)
  zodMessage : list Issue -> jsstring;
  toLowerCase : jsstring -> jsstring;
  localeCompare : jsstring -> jsstring -> Z
}.

(** *** [TriggerSchema] *)

Fixpoint policyIssues (index : nat) (ps : list PolicyFragment) : list Issue :=
  match ps with
  | [] => []
  | p :: rest =>
      (if Policy.id p is Some _ then [] else [policyIdNotString index])
      ++ (if Policy.name p is Some _ then [] else [policyNameNotString index])
      ++ policyIssues (S index) rest
  end.

(** [content: z.string().min(1)], [analysisType: z.enum([...])],
    [policies: z.array(z.object({ id: z.string(), name: z.string() })).min(1)]. *)
Definition issues (job : ProcessingJob) : list Issue :=
  (if len (content job) <? 1 then [contentTooSmall] else [])
  ++ (if inEnum (Job.analysisType job) then [] else [invalidEnumValue])
  ++ policyIssues 0 (policies job)
  ++ (if (length (policies job) <? 1)%nat then [policiesTooSmall] else []).

Definition TriggerSchema_parse (w : World) (job : ProcessingJob)
  : Result ProcessingJob :=
  match issues job with
  | [] => Ok job
  | found => Throw (zodMessage w found)
  end.

(** *** The [catch] of [identifySensitiveEntities] *)

Definition recover (env : NodeEnv) (message : jsstring)
  : Result (list SensitiveEntity) :=
  if includesStr message (str "API key") then
    Throw (str "Configuration error: Invalid OpenAI API key")
  else if isTestEnv env then
    if includesStr message (str "Invalid JSON response")
       || includesStr message (str "Policy loading failed")
       || includesStr message (str "Model generation failed")
    then Ok []
    else Throw message
  else Ok [].

(** *** The state of one job *)

Inductive TaskState :=
| Queued
| Running (stream : list (option (list StreamingEntityThinking)))
          (object : Result (list SensitiveEntity))
| Settled (outcome : Result (list SensitiveEntity)).

Inductive Phase := Awaiting | Finished.

(** Work done on the content. *)
Inductive Work := chunking | identification (index : nat).

Record State := mkState {
  chunks : list ChunkData;
  (** the chunk tasks handed to the queue, by chunk index *)
  tasks : list TaskState;
  (** the calls of the event callback, in order *)
  calls : list Event;
  (** the reason of the first task that rejected, for [Promise.all] *)
  rejection : option jsstring;
  identifiedCount : nat;
  validatedCount : nat;
  phase : Phase;
  work : list Work
}.

Definition withTask (s : State) (i : nat) (t : TaskState) : State :=
  {| chunks := chunks s; tasks := <[i := t]> (tasks s); calls := calls s;
     rejection := rejection s; identifiedCount := identifiedCount s;
     validatedCount := validatedCount s; phase := phase s; work := work s |}.

Definition withCall (s : State) (ev : Event) : State :=
  {| chunks := chunks s; tasks := tasks s; calls := calls s ++ [ev];
     rejection := rejection s; identifiedCount := identifiedCount s;
     validatedCount := validatedCount s; phase := phase s; work := work s |}.

Definition finished (s : State) : State :=
  {| chunks := chunks s; tasks := tasks s; calls := calls s;
     rejection := rejection s; identifiedCount := identifiedCount s;
     validatedCount := validatedCount s; phase := Finished; work := work s |}.

(** The [catch] of [execute] rethrows with a prefix; the [catch] of
    [analyzeSensitiveContent] hands the message to the callback. *)
Definition fail (s : State) (message : jsstring) : State :=
  finished (withCall s (error (str "Sensitive analysis failed: " ++ message))).

(** [new ValidatorTool({ minimumConfidence: 7 })] and [new DeduperTool()]. *)
Definition validator : ValidationConfig :=
  Validator.constructor
    {| minimumConfidence_opt := Some 7%Q; enableStrictMode_opt := None |}.
Definition deduper : DeduplicationConfig :=
  Deduper.constructor {| caseSensitive_opt := None |}.

Definition executeValidationStep (entities : list SensitiveEntity)
  : list SensitiveEntity :=
  match entities with
  | [] => []
  | _ => Validator.validateEntities validator entities
  end.

Definition executeDeduplicationStep (w : World)
    (entities : list SensitiveEntity) (t : AnalysisTypeEnum)
  : Result (list SensitiveEntity) :=
  match entities with
  | [] => Ok []
  | _ => (Deduper.removeDuplicates (toLowerCase w) (localeCompare w)
            (NODE_ENV w) deduper entities t).2
  end.

(** The end of a chunk task, from what [identifySensitiveEntities] returned
    or threw. *)
Definition settle (s : State) (i : nat)
    (identified : Result (list SensitiveEntity)) : State :=
  match identified with
  | Ok entities =>
      let validated := executeValidationStep entities in
      {| chunks := chunks s;
         tasks := <[i := Settled (Ok validated)]> (tasks s);
         calls := calls s; rejection := rejection s;
         identifiedCount := identifiedCount s + length entities;
         validatedCount := validatedCount s + length validated;
         phase := phase s; work := work s |}
  | Throw m =>
      let reason := str "Chunk " ++ ofNat (i + 1) ++ str " processing failed: " ++ m in
      {| chunks := chunks s;
         tasks := <[i := Settled (Throw reason)]> (tasks s);
         calls := calls s;
         rejection := if rejection s is Some r then Some r else Some reason;
         identifiedCount := identifiedCount s;
         validatedCount := validatedCount s;
         phase := phase s; work := work s |}
  end.

Definition isRunning (t : TaskState) : bool :=
  match t with Running _ _ => true | _ => false end.

Definition isQueued (t : TaskState) : bool :=
  match t with Queued => true | _ => false end.

(** The index of the task the queue starts next. *)
Fixpoint firstQueued (ts : list TaskState) : option nat :=
  match ts with
  | [] => None
  | t :: rest => if isQueued t then Some 0%nat else S <$> firstQueued rest
  end.

(** [new PQueue({ concurrency: 5 })]. *)
Definition concurrency : nat := 5.

(** The outcomes of the tasks when every one of them resolved. *)
Fixpoint resolved (ts : list TaskState) : option (list (list SensitiveEntity)) :=
  match ts with
  | [] => Some []
  | Settled (Ok validated) :: rest => cons validated <$> resolved rest
  | _ :: _ => None
  end.

(** After [start], a job moves by four kinds of steps, in any order the
    event loop allows: the queue starts its next task when fewer than
    [concurrency] are running; a running task reads the next partial object
    of its stream, handing a [thinking] event to the callback when it holds
    entities, or reads [result.object] and settles; [Promise.all] rejects
    with the reason of the first task that failed, which the two [catch]
    blocks turn into the [error] event; or [Promise.all] resolves, the
    results are deduplicated and the [complete] event is emitted, inside the
    [try] whose [catch] emits [error]. *)
Inductive Action :=
| startNext              (** the queue starts its next task *)
| advance (index : nat)  (** a running task reads on from the model *)
| rejectAll              (** [Promise.all] rejects *)
| resolveAll.            (** [Promise.all] resolves *)

Definition perform (w : World) (job : ProcessingJob) (s : State) (a : Action)
  : option State :=
  match a with
  | startNext =>
      if (length (List.filter isRunning (tasks s)) <? concurrency)%nat then
        i ← firstQueued (tasks s);
        chunk ← chunks s !! i;
        let run := streamObject w i chunk in
        let s' := withTask s i (Running (partialObjectStream run) (object run)) in
        Some {| chunks := chunks s'; tasks := tasks s'; calls := calls s';
                rejection := rejection s'; identifiedCount := identifiedCount s';
                validatedCount := validatedCount s'; phase := phase s';
                work := work s' ++ [identification i] |}
      else None
  | advance i =>
      match tasks s !! i, chunks s !! i with
      | Some (Running (Some (e :: es) :: rest) final), Some chunk =>
          let ev := thinking (id chunk) (e :: es) (now w (length (calls s))) in
          match onEvent w (calls s) ev with
          | Ok _ => Some (withTask (withCall s ev) i (Running rest final))
          | Throw m => Some (settle (withCall s ev) i (recover (NODE_ENV w) m))
          end
      | Some (Running (_ :: rest) final), Some _ =>
          Some (withTask s i (Running rest final))
      | Some (Running [] (Ok entities)), Some _ => Some (settle s i (Ok entities))
      | Some (Running [] (Throw m)), Some _ =>
          Some (settle s i (recover (NODE_ENV w) m))
      | _, _ => None
      end
  | rejectAll =>
      match phase s, rejection s with
      | Awaiting, Some reason => Some (fail s reason)
      | _, _ => None
      end
  | resolveAll =>
      match phase s, resolved (tasks s) with
      | Awaiting, Some validated =>
          let results := concat validated in
          match executeDeduplicationStep w results (Job.analysisType job) with
          | Throw m => Some (fail s m)
          | Ok finalEntities =>
              let ev :=
                complete finalEntities
                  {| chunksGenerated := length (chunks s);
                     entitiesFound := identifiedCount s;
                     entitiesValidated := validatedCount s;
                     entitiesDeduplicated := length finalEntities;
                     processingTimeMs := elapsed w |} in
              match onEvent w (calls s) ev with
              | Ok _ => Some (finished (withCall s ev))
              | Throw m => Some (finished (withCall (withCall s ev) (error m)))
              end
          end
      | _, _ => None
      end
  end.

Definition step (w : World) (job : ProcessingJob) (s s' : State) : Prop :=
  exists a, perform w job s a = Some s'.

Definition idle (w : World) (job : ProcessingJob) (s : State) : Prop :=
  forall a, perform w job s a = None.

(** The job up to the hand-over of the chunk tasks to the queue. *)
Definition start (w : World) (job : ProcessingJob) : State :=
  let empty :=
    {| chunks := []; tasks := []; calls := []; rejection := None;
       identifiedCount := 0; validatedCount := 0; phase := Awaiting;
       work := [] |} in
  match TriggerSchema_parse w job with
  | Throw m => fail empty m
  | Ok validatedJob =>
      let chunked :=
        {| chunks := []; tasks := []; calls := []; rejection := None;
           identifiedCount := 0; validatedCount := 0; phase := Awaiting;
           work := [chunking] |} in
      match createChunks w (Job.analysisType validatedJob) (content validatedJob) with
      | Throw m => fail chunked m
      | Ok cs =>
          {| chunks := cs; tasks := List.map (fun _ => Queued) cs; calls := [];
             rejection := None; identifiedCount := 0; validatedCount := 0;
             phase := Awaiting; work := [chunking] |}
      end
  end.

(** The states a job goes through. *)
Definition reachable (w : World) (job : ProcessingJob) (s : State) : Prop :=
  rtc (step w job) (start w job) s.

(** One way to run a job: start tasks as soon as the queue allows, else let
    the running task of lowest index read on, else settle [Promise.all]. *)
Fixpoint firstRunning (ts : list TaskState) : option nat :=
  match ts with
  | [] => None
  | t :: rest => if isRunning t then Some 0%nat else S <$> firstRunning rest
  end.

Definition next (w : World) (job : ProcessingJob) (s : State) : option State :=
  match perform w job s startNext with
  | Some s' => Some s'
  | None =>
      match firstRunning (tasks s) with
      | Some i => perform w job s (advance i)
      | None =>
          match perform w job s rejectAll with
          | Some s' => Some s'
          | None => perform w job s resolveAll
          end
      end
  end.

Fixpoint run (fuel : nat) (w : World) (job : ProcessingJob) (s : State) : State :=
  match fuel with
  | O => s
  | S fuel' =>
      match next w job s with
      | Some s' => run fuel' w job s'
      | None => s
      end
  end.

(** *** Terminal events *)

Definition isComplete (ev : Event) : bool :=
  match ev with complete _ _ => true | _ => false end.
Definition isError (ev : Event) : bool :=
  match ev with error _ => true | _ => false end.
Definition isTerminal (ev : Event) : bool := isComplete ev || isError ev.

Definition count (f : Event -> bool) (evs : list Event) : nat :=
  length (List.filter f evs).

Definition failed (t : TaskState) : Prop :=
  exists reason, t = Settled (Throw reason).

Definition isSettled (t : TaskState) : bool :=
  match t with Settled _ => true | _ => false end.

(** What is left to do: a bound on the number of steps to come. *)
Definition taskWeight (w : World) (i : nat) (chunk : ChunkData) (t : TaskState)
  : nat :=
  match t with
  | Queued => length (partialObjectStream (streamObject w i chunk)) + 2
  | Running stream _ => length stream + 1
  | Settled _ => 0
  end.

Fixpoint tasksWeight (w : World) (i : nat) (cs : list ChunkData)
    (ts : list TaskState) : nat :=
  match ts, cs with
  | t :: ts', c :: cs' => taskWeight w i c t + tasksWeight w (S i) cs' ts'
  | _, _ => 0
  end.

Definition weight (w : World) (s : State) : nat :=
  tasksWeight w 0 (chunks s) (tasks s)
  + match phase s with Awaiting => 1 | Finished => 0 end.

(** Every run of the job from [s] comes to an end: no sequence of steps
    from [s] is longer than [weight w s]. *)
Definition terminates (w : World) (job : ProcessingJob) (s : State) : Prop :=
  forall (n : nat) s', nsteps (step w job) n s s' -> (n <= weight w s)%nat.

(** What holds of every state of a job: a task per chunk; no terminal event
    while [Promise.all] is pending; afterwards one [error] event, or one
    [complete] event after every task resolved, followed by an [error] event
    only when the callback threw on it; and a rejection recorded as soon as
    a task has failed. *)
Record Invariant (w : World) (s : State) : Prop := {
  inv_chunks : length (chunks s) = length (tasks s);
  inv_awaiting : phase s = Awaiting -> count isTerminal (calls s) = 0%nat;
  inv_finished :
    phase s = Finished ->
    (count isComplete (calls s) = 0%nat /\ count isError (calls s) = 1%nat) \/
    (count isComplete (calls s) = 1%nat /\ is_Some (resolved (tasks s)) /\
     (count isError (calls s) = 0%nat \/
      (count isError (calls s) = 1%nat /\
       exists l ev m, isComplete ev = true /\ onEvent w l ev = Throw m)));
  inv_rejection :
    (exists t, t ∈ tasks s /\ failed t) -> is_Some (rejection s)
}.

(** The outcome as the specification words it: once the job has come to a
    stop, the callback has been handed exactly one terminal event. *)
Definition exactlyOneTerminal (w : World) (job : ProcessingJob) : Prop :=
  forall s, reachable w job s -> idle w job s ->
            count isTerminal (calls s) = 1%nat.

(** The job as the specification has it: invalid input. *)
Definition specInvalid (job : ProcessingJob) : Prop :=
  content job = [] \/
  inEnum (Job.analysisType job) = false \/
  policies job = [] \/
  exists p, p ∈ policies job /\
    (Policy.id p = None \/ Policy.id p = Some [] \/
     Policy.name p = None \/ Policy.name p = Some []).

(** Invalid input as [TriggerSchema] has it. *)
Definition schemaInvalid (job : ProcessingJob) : Prop :=
  content job = [] \/
  inEnum (Job.analysisType job) = false \/
  policies job = [] \/
  exists p, p ∈ policies job /\ (Policy.id p = None \/ Policy.name p = None).

(** The job failed before any chunking or chunk work. *)
Definition failedBeforeChunking (s : State) : Prop :=
  work s = [] /\ phase s = Finished /\ exists m, calls s = [error m].

End Workflow.

(** ** Tools and their configuration objects *)

(** A tool keeps a reference to its configuration object ([this.options],
    [this.config]) in the heap of objects.  [getOptions] and [getConfig]
    return the reference of a new object with the fields of the tool's
    ([{ ...this.config }]); [updateConfig] makes the tool refer to a new
    object; a caller can write to the objects it was handed. *)
Module ConfigObject.

Section Tool.

(** The fields of a configuration object; what a method of the tool is
    called with and what it replies.  A method reads the configuration and,
    when it is [updateConfig], yields the object that replaces it. *)
Variables (Config Call Reply : Type).
Variable method : Call -> Config -> option Config * Reply.

Record Machine := mkMachine {
  (** the configuration objects, by reference *)
  heap : list Config;
  (** [this.config] *)
  this_config : nat;
  (** the references the getter has returned, in order *)
  handed : list nat
}.

(** [new Tool(config)], with the merged configuration. *)
Definition create (config : Config) : Machine :=
  {| heap := [config]; this_config := 0; handed := [] |}.

Inductive Op :=
| call (c : Call)
| getConfig
| mutate (k : nat) (write : Config -> Config).

Inductive Observation :=
| replied (r : Reply)
| returned (value : Config).

Definition exec (m : Machine) (op : Op) : Machine * option Observation :=
  match op with
  | call c =>
      match heap m !! this_config m with
      | Some config =>
          match method c config with
          | (Some config', r) =>
              ({| heap := heap m ++ [config'];
                  this_config := length (heap m);
                  handed := handed m |}, Some (replied r))
          | (None, r) => (m, Some (replied r))
          end
      | None => (m, None)
      end
  | getConfig =>
      match heap m !! this_config m with
      | Some config =>
          ({| heap := heap m ++ [config];
              this_config := this_config m;
              handed := handed m ++ [length (heap m)] |},
           Some (returned config))
      | None => (m, None)
      end
  | mutate k write =>
      match handed m !! k with
      | Some ref =>
          ({| heap := alter write ref (heap m);
              this_config := this_config m;
              handed := handed m |}, None)
      | None => (m, None)
      end
  end.

(** What the calls of the tool's methods and of its getter give, in order. *)
Fixpoint observe (m : Machine) (ops : list Op) : list Observation :=
  match ops with
  | [] => []
  | op :: rest =>
      let '(m', o) := exec m op in
      match o with
      | Some x => x :: observe m' rest
      | None => observe m' rest
      end
  end.

Definition isMutate (op : Op) : bool :=
  match op with mutate _ _ => true | _ => false end.

(** The same operations without the writes to the objects handed out. *)
Definition withoutWrites (ops : list Op) : list Op :=
  List.filter (fun op => negb (isMutate op)) ops.

(** Two machines that differ at most in the objects handed out. *)
Record Alike (m1 m2 : Machine) : Prop := {
  alike_length : length (heap m1) = length (heap m2);
  alike_this : this_config m1 = this_config m2;
  alike_handed : handed m1 = handed m2;
  alike_bound : (this_config m1 < length (heap m1))%nat;
  alike_handed_bound : Forall (fun ref => (ref < length (heap m1))%nat) (handed m1);
  alike_private : this_config m1 ∉ handed m1;
  alike_heap : forall ref, ref ∉ handed m1 -> heap m1 !! ref = heap m2 !! ref
}.

End Tool.

Arguments mkMachine {Config} heap this_config handed.
Arguments heap {Config} m.
Arguments this_config {Config} m.
Arguments handed {Config} m.
Arguments create {Config} config.
Arguments call {Config Call} c.
Arguments getConfig {Config Call}.
Arguments mutate {Config Call} k write.
Arguments replied {Config Reply} r.
Arguments returned {Config Reply} value.
Arguments exec {Config Call Reply} method m op.
Arguments observe {Config Call Reply} method m ops.
Arguments isMutate {Config Call} op.
Arguments withoutWrites {Config Call} ops.
Arguments Alike {Config} m1 m2.

End ConfigObject.

(** The three tools. *)
Module Tools.

(** [ChunkerTool]: [createChunks]. *)
Inductive ChunkerCall :=
| createChunksCall (fuel : nat) (t : AnalysisTypeEnum) (content : jsstring).

Definition chunkerMethod (clock : nat -> Z)
    (chunkByColumn chunkJson :
       ChunkingOptions -> jsstring -> AnalysisTypeEnum -> option (list ChunkData))
    (c : ChunkerCall) (options : ChunkingOptions)
  : option ChunkingOptions * option (Result (list ChunkData)) :=
  match c with
  | createChunksCall fuel t content =>
      (None, Chunker.createChunks clock chunkByColumn chunkJson fuel options t content)
  end.

(** [ValidatorTool]: [validateEntities], [validateSingle], [updateConfig]. *)
Inductive ValidatorCall :=
| validateEntitiesCall (entities : list SensitiveEntity)
| validateSingleCall (e : SensitiveEntity)
| updateValidationCall (newConfig : PartialValidationConfig).

Inductive ValidatorReply :=
| validatedReply (entities : list SensitiveEntity)
| validReply (b : bool)
| updatedValidationReply.

Definition validatorMethod (c : ValidatorCall) (config : ValidationConfig)
  : option ValidationConfig * ValidatorReply :=
  match c with
  | validateEntitiesCall entities =>
      (None, validatedReply (Validator.validateEntities config entities))
  | validateSingleCall e => (None, validReply (Validator.validateSingle config e))
  | updateValidationCall newConfig =>
      (Some (Validator.updateConfig config newConfig), updatedValidationReply)
  end.

(** [DeduperTool]: [removeDuplicates], [updateConfig]. *)
Inductive DeduperCall :=
| removeDuplicatesCall (env : NodeEnv) (entities : list SensitiveEntity)
                       (t : AnalysisTypeEnum)
| updateDeduplicationCall (newConfig : PartialDeduplicationConfig).

Inductive DeduperReply :=
| deduplicatedReply (console : list jsstring)
                    (result : Result (list SensitiveEntity))
| updatedDeduplicationReply.

Definition deduperMethod (toLowerCase : jsstring -> jsstring)
    (localeCompare : jsstring -> jsstring -> Z)
    (c : DeduperCall) (config : DeduplicationConfig)
  : option DeduplicationConfig * DeduperReply :=
  match c with
  | removeDuplicatesCall env entities t =>
      let r := Deduper.removeDuplicates toLowerCase localeCompare env config entities t in
      (None, deduplicatedReply r.1 r.2)
  | updateDeduplicationCall newConfig =>
      (Some (Deduper.updateConfig config newConfig), updatedDeduplicationReply)
  end.

(** The test of the chunker's suite: read the options, overwrite
    [chunkSize] in the object returned, read them again, and chunk. *)
Definition testOptions : ChunkingOptions :=
  {| chunkSize := 100; overlap := 20; columnChunkSize := 2 |}.

Definition overwriteChunkSize (o : ChunkingOptions) : ChunkingOptions :=
  {| chunkSize := 999; overlap := overlap o; columnChunkSize := columnChunkSize o |}.

Definition immutableOptionsTest : list (ConfigObject.Op ChunkingOptions ChunkerCall) :=
  [ConfigObject.getConfig;
   ConfigObject.mutate 0 overwriteChunkSize;
   ConfigObject.getConfig].

End Tools.

(** ** Sample data, after the test suites *)

Module Samples.

(** Lower-casing of the ASCII letters. *)
Definition asciiLower (s : jsstring) : jsstring :=
  List.map (fun c => if (65 <=? c)%N && (c <=? 90)%N then (c + 32)%N else c) s.

(** Comparison by code units, as a three-way result. *)
Fixpoint codeUnitCompare (a b : jsstring) : Z :=
  match a, b with
  | [], [] => 0
  | [], _ :: _ => -1
  | _ :: _, [] => 1
  | x :: a', y :: b' =>
      match (x ?= y)%N with
      | Lt => -1
      | Gt => 1
      | Eq => codeUnitCompare a' b'
      end
  end.

Definition unstructured (label : String.string) (c : Q) (excerpt : String.string)
  : SensitiveEntity :=
  {| entity := str label; reference := str "policy1"; confidence := c;
     rankHex := str "0x1"; category := str "personal";
     Entity.text := Some (str excerpt); ranges := None; sheetName := None;
     path := None |}.

Definition spreadsheet (c : Q) (rs : list jsstring) (sheet : String.string)
  : SensitiveEntity :=
  {| entity := str "email"; reference := str "policy1"; confidence := c;
     rankHex := str "0x1"; category := str "personal";
     Entity.text := None; ranges := Some rs; sheetName := Some (str sheet);
     path := None |}.

Definition structured (c : Q) (p : String.string) : SensitiveEntity :=
  {| entity := str "email"; reference := str "policy1"; confidence := c;
     rankHex := str "0x1"; category := str "personal";
     Entity.text := None; ranges := None; sheetName := None;
     path := Some (str p) |}.

Arguments unstructured label%_string c%_Q excerpt%_string.
Arguments spreadsheet c%_Q rs%_list sheet%_string.
Arguments structured c%_Q p%_string.

Definition john8 := unstructured "email" 8 "John@example.com".
Definition john9 := unstructured "email" 9 "john@example.com".
Definition jane7 := unstructured "email" 7 "jane@example.com".
Definition johnAgain9 := unstructured "mail" 9 "JOHN@example.com".
Definition sheetBA := spreadsheet 8 [str "B1:B5"; str "A1:A5"] "Sheet1".
Definition sheetAB := spreadsheet 9 [str "A1:A5"; str "B1:B5"] "Sheet1".
Definition userEmail := structured 8 "user.email".

Definition production : NodeEnv := Some (str "production").
Definition insensitive : DeduplicationConfig := {| caseSensitive := false |}.
Definition sensitive : DeduplicationConfig := {| caseSensitive := true |}.

(** A run of the workflow: the callback returns, the model streams one
    partial object and answers with two entities. *)
Definition streamedOnce : list (option (list StreamingEntityThinking)) :=
  [None;
   Some [ {| thinking_opt := Some (str "an address"); entity_opt := None;
             reference_opt := None; confidence_opt := None; rankHex_opt := None;
             category_opt := None; path_opt := None; ranges_opt := None;
             sheetName_opt := None; text_opt := None |} ]].

Definition answers (i : nat) (c : ChunkData) : Workflow.ModelRun :=
  {| Workflow.partialObjectStream := streamedOnce;
     Workflow.object := Ok [john9; unstructured "phone" 4 "555-1234"] |}.

(** The model fails on the second chunk. *)
Definition failsOnSecond (i : nat) (c : ChunkData) : Workflow.ModelRun :=
  if (i =? 1)%nat then
    {| Workflow.partialObjectStream := streamedOnce;
       Workflow.object := Throw (str "Invalid API key provided") |}
  else answers i c.

(** The default chunker on unstructured content. *)
Definition chunker (t : AnalysisTypeEnum) (content : jsstring)
  : Result (list ChunkData) :=
  match Chunker.createChunks Chunker.clock0 Chunker.noStrategy Chunker.noStrategy
          (S (length content)) Chunker.smallWindow t content with
  | Some r => r
  | None => Throw (str "out of fuel")
  end.

Definition returns : list Event -> Event -> Result unit := fun _ _ => Ok ().

(** A callback that throws when it is handed the [complete] event. *)
Definition throwsOnComplete : list Event -> Event -> Result unit :=
  fun _ ev => if Workflow.isComplete ev then Throw (str "stream closed") else Ok ().

Definition world (callback : list Event -> Event -> Result unit)
    (model : nat -> ChunkData -> Workflow.ModelRun) : Workflow.World :=
  {| Workflow.NODE_ENV := production;
     Workflow.onEvent := callback;
     Workflow.streamObject := model;
     Workflow.createChunks := chunker;
     Workflow.now := fun n => 1000 + Z.of_nat n;
     Workflow.elapsed := 42;
     Workflow.zodMessage := fun _ => str "invalid job";
     Workflow.toLowerCase := asciiLower;
     Workflow.localeCompare := codeUnitCompare |}.

Definition policy (i n : String.string) : PolicyFragment :=
  {| Policy.id := Some (str i); Policy.name := Some (str n) |}.
Arguments policy i%_string n%_string.

Definition job : ProcessingJob :=
  {| content := str "hello"; Job.analysisType := UNSTRUCTURED;
     policies := [policy "policy1" "PII Protection Policy"] |}.

(** A job whose only policy has an empty id and an empty name. *)
Definition namelessPolicyJob : ProcessingJob :=
  {| content := str "hello"; Job.analysisType := UNSTRUCTURED;
     policies := [policy "" ""] |}.

(** The run in which the second chunk task fails, up to its end. *)
Definition failingWorld : Workflow.World := world returns failsOnSecond.
Definition failedRun : Workflow.State :=
  Workflow.run 20 failingWorld job (Workflow.start failingWorld job).

Definition emptyJob : ProcessingJob :=
  {| content := []; Job.analysisType := UNSTRUCTURED;
     policies := [policy "policy1" "PII Protection Policy"] |}.

End Samples.

(** ** analyze/chunker.ts: putting the chunks back together *)

Module Reassembly.

(** The content from its chunks: the first [step] characters of every chunk
    but the last, and the last chunk whole. *)
Fixpoint reassemble (step : Z) (chunks : list ChunkData) : jsstring :=
  match chunks with
  | [] => []
  | [c] => text c
  | c :: rest => take (Z.to_nat step) (text c) ++ reassemble step rest
  end.

(** The number of windows of [size] characters, [step] apart, on a text of
    [L] characters. *)
Definition windowCount (L size step : Z) : nat :=
  if L <=? size then 1%nat
  else S (Z.to_nat ((L - size + step - 1) / step)).

(** The characters a decimal rendering is made of: the digits and the
    minus sign. *)
Definition isDecimalChar (c : N) : bool :=
  (c =? 45)%N || ((48 <=? c)%N && (c <=? 57)%N).

Definition underscore : N := 95.

(** A text of four windows. *)
Definition alphabet : jsstring := str "abcdefghij".

End Reassembly.

(** ** analyze/chunker.ts: chunking by column *)

Module Columns.
Import Chunker Csv.

(** [Array.prototype.slice(start, end)] on integer arguments. *)
Definition sliceArray {A} (xs : list A) (start end_ : Z) : list A :=
  let n := Z.of_nat (length xs) in
  let from := if start <? 0 then Z.max (n + start) 0 else Z.min start n in
  let to := if end_ <? 0 then Z.max (n + end_) 0 else Z.min end_ n in
  take (Z.to_nat (to - from)) (drop (Z.to_nat from) xs).

(** The integer a fractional argument of [slice] is read as: its integer
    part, rounded towards zero. *)
Definition truncate (q : Q) : Z :=
  if Qle_bool 0 q then Qfloor q else Qceiling q.

(** [h.trim() === ''], the test on a header cell. *)
Definition blank (h : jsstring) : bool := streq (trim h) [].

Section ByColumn.
Variable clock : nat -> Z.

(** The body of the loop of [chunkByColumn] for the column index [i]. The
    offset of the chunk is [i]; [ChunkData] holds integer offsets, so it is
    [i] itself whenever [columnChunkSize] is an integer, and the integer part
    of [i] otherwise. *)
Definition columnChunk (parsedRows : list (list jsstring))
    (header : list jsstring) (ty : AnalysisTypeEnum) (columnChunkSize i : Q)
    (chunks : list ChunkData) : ChunkData :=
  let from := truncate i in
  let to := truncate (i + columnChunkSize) in
  let columns := sliceArray header from to in
  let rows :=
    List.map (fun row => serializeCsvRow (sliceArray row from to))
             (drop 1 parsedRows) in
  let chunkText := join [LF] (serializeCsvRow columns :: rows) in
  {| id := generateChunkId clock (length chunks);
     text := chunkText;
     offset := Qfloor i;
     analysisType := ty |}.

(** [for (let i = 0; i < header.length; i += columnChunkSize)]; one unit of
    fuel per test of the loop condition. *)
Fixpoint columnLoop (fuel : nat) (parsedRows : list (list jsstring))
    (header : list jsstring) (ty : AnalysisTypeEnum) (columnChunkSize i : Q)
    (chunks : list ChunkData) : option (list ChunkData) :=
  match fuel with
  | O => None
  | S fuel' =>
      if Qltb i (inject_Z (Z.of_nat (length header))) then
        columnLoop fuel' parsedRows header ty columnChunkSize
          (i + columnChunkSize)%Q
          (chunks ++ [columnChunk parsedRows header ty columnChunkSize i chunks])
      else Some chunks
  end.

Definition chunkByColumn (fuel : nat) (o : ChunkingOptions)
    (csv : jsstring) (ty : AnalysisTypeEnum) : option (list ChunkData) :=
  let parsedRows := parseCsv csv in
  let header := default [] (parsedRows !! 0%nat) in
  if (length header =? 0)%nat || forallb blank header
  then chunkUnstructured clock fuel o csv ty
  else columnLoop fuel parsedRows header ty (columnChunkSize o) 0 [].

End ByColumn.

(** The line endings [parseCsv] takes for the end of a row. *)
Definition lineEnding (sep : jsstring) : Prop :=
  sep = [LF] \/ sep = [CR; LF] \/ sep = [CR].

(** Content that does not start with a line feed. *)
Definition headNotLF (content : jsstring) : Prop :=
  match content with
  | c :: _ => c <> LF
  | [] => True
  end.

(** What a row is read back as after [serializeCsvRow]: a row without
    fields is written as the empty line, which reads as one empty field. *)
Definition reparse (row : list jsstring) : list jsstring :=
  match row with
  | [] => [[]]
  | _ => row
  end.

(** The columns [from, from + k) of a row. *)
Definition window (k : Z) (j : nat) (row : list jsstring) : list jsstring :=
  sliceArray row (Z.of_nat j * k) (Z.of_nat j * k + k).

(** The number of chunks for [n] columns, [k] to a chunk. *)
Definition chunkCount (n : nat) (k : Z) : nat :=
  Z.to_nat ((Z.of_nat n + k - 1) / k).

(** The first row of the parsed content. *)
Definition headerOf (csv : jsstring) : list jsstring :=
  default [] (parseCsv csv !! 0%nat).

(** The [j]-th chunk of a table for an integer [columnChunkSize] of [k]. *)
Definition columnChunkAt (clock : nat -> Z) (parsedRows : list (list jsstring))
    (header : list jsstring) (ty : AnalysisTypeEnum) (k : Z) (j : nat)
  : ChunkData :=
  {| id := generateChunkId clock j;
     text := join [LF]
               (serializeCsvRow (window k j header)
                :: List.map (fun row => serializeCsvRow (window k j row))
                            (drop 1 parsedRows));
     offset := Z.of_nat j * k;
     analysisType := ty |}.

(** The names under which every object literal finds a value of
    [Object.prototype]. *)
Definition objectPrototypeNames : list jsstring :=
  [str "constructor"; str "hasOwnProperty"; str "isPrototypeOf";
   str "propertyIsEnumerable"; str "toLocaleString"; str "toString";
   str "valueOf"; str "__proto__"; str "__defineGetter__";
   str "__defineSetter__"; str "__lookupGetter__"; str "__lookupSetter__"].

Definition inherited (t : jsstring) : bool :=
  existsb (streq t) objectPrototypeNames.

(** Fuel that is enough for either strategy on [content]. *)
Definition enoughFuel (content : jsstring) (k : Z) : nat :=
  S (length content) + S (chunkCount (length (headerOf content)) k).

(** A table of five columns and a quoted cell, and options of two columns to
    a chunk. *)
Definition people : jsstring :=
  str "name,email,city,zip,phone" ++ [LF] ++
  str "Ann," ++ [quote] ++ str "a,b@x.org" ++ [quote] ++ str ",Oslo,0150,555".

Definition twoColumns : ChunkingOptions :=
  {| chunkSize := 100; overlap := 20; columnChunkSize := 2 |}.

Definition noColumns : ChunkingOptions :=
  {| chunkSize := 100; overlap := 20; columnChunkSize := 0 |}.

End Columns.

(** ** analyze/validator.ts and analyze/deduper.ts: statistics *)

Module ValidatorStats.
Import Validator.

Record ValidationStats := mkValidationStats {
  total : Z;
  valid : Z;
  invalid : Z;
  validationRate : Q
}.

(** [validationRate] is [validCount / total], written here as the exact
    quotient; the number the code holds is the double nearest to it. *)
Definition getValidationStats (config : ValidationConfig)
    (entities : list SensitiveEntity) : ValidationStats :=
  let valid := List.filter (isValidEntity config) entities in
  let total := Z.of_nat (length entities) in
  let validCount := Z.of_nat (length valid) in
  let invalid := total - validCount in
  {| total := total;
     valid := validCount;
     invalid := invalid;
     validationRate :=
       if 0 <? total then (inject_Z validCount / inject_Z total)%Q else 0 |}.

(** [c2] asks at least what [c1] asks. *)
Definition stricter (c1 c2 : ValidationConfig) : Prop :=
  (minimumConfidence c1 <= minimumConfidence c2)%Q /\
  (enableStrictMode c1 = true -> enableStrictMode c2 = true).

Definition lenient : ValidationConfig :=
  {| minimumConfidence := 5; enableStrictMode := false |}.
Definition strict : ValidationConfig :=
  {| minimumConfidence := 7; enableStrictMode := true |}.

End ValidatorStats.

Module DeduperStats.

Record DeduplicationStats := mkDeduplicationStats {
  original : Z;
  deduplicated : Z;
  removed : Z;
  removalRate : Q
}.

(** [removalRate] is [removed / original], written here as the exact
    quotient; the number the code holds is the double nearest to it. *)
Definition getStats (originalEntities deduplicatedEntities : list SensitiveEntity)
  : DeduplicationStats :=
  let original := Z.of_nat (length originalEntities) in
  let deduplicated := Z.of_nat (length deduplicatedEntities) in
  let removed := original - deduplicated in
  {| original := original;
     deduplicated := deduplicated;
     removed := removed;
     removalRate :=
       if 0 <? original then (inject_Z removed / inject_Z original)%Q else 0 |}.

End DeduperStats.

(** ** analyze/workflow.ts: the steps of a job, one by one *)

Module Accounting.
Import Workflow.

(** The state once the queue has started the task of chunk [i]. *)
Definition started (w : World) (s : State) (i : nat) (chunk : ChunkData) : State :=
  {| chunks := chunks s;
     tasks := <[i := Running (partialObjectStream (streamObject w i chunk))
                             (object (streamObject w i chunk))]> (tasks s);
     calls := calls s; rejection := rejection s;
     identifiedCount := identifiedCount s;
     validatedCount := validatedCount s; phase := phase s;
     work := work s ++ [identification i] |}.

(** The [thinking] event of a partial object of chunk [chunk]. *)
Definition thought (w : World) (s : State) (chunk : ChunkData)
    (entities : list StreamingEntityThinking) : Event :=
  thinking (id chunk) entities (now w (length (calls s))).

(** The [complete] event for the final entities. *)
Definition completion (w : World) (s : State)
    (finalEntities : list SensitiveEntity) : Event :=
  complete finalEntities
    {| chunksGenerated := length (chunks s);
       entitiesFound := identifiedCount s;
       entitiesValidated := validatedCount s;
       entitiesDeduplicated := length finalEntities;
       processingTimeMs := elapsed w |}.

(** The steps of [perform], case by case. *)
Inductive Move (w : World) (job : ProcessingJob) (s : State) : State -> Prop :=
| move_start i chunk :
    (length (List.filter isRunning (tasks s)) < concurrency)%nat ->
    tasks s !! i = Some Queued -> chunks s !! i = Some chunk ->
    Move w job s (started w s i chunk)
| move_read i skipped rest final :
    tasks s !! i = Some (Running (skipped :: rest) final) ->
    Move w job s (withTask s i (Running rest final))
| move_think i chunk e es rest final :
    tasks s !! i = Some (Running (Some (e :: es) :: rest) final) ->
    chunks s !! i = Some chunk ->
    onEvent w (calls s) (thought w s chunk (e :: es)) = Ok () ->
    Move w job s
      (withTask (withCall s (thought w s chunk (e :: es))) i (Running rest final))
| move_think_throw i chunk e es rest final m :
    tasks s !! i = Some (Running (Some (e :: es) :: rest) final) ->
    chunks s !! i = Some chunk ->
    onEvent w (calls s) (thought w s chunk (e :: es)) = Throw m ->
    Move w job s
      (settle (withCall s (thought w s chunk (e :: es))) i (recover (NODE_ENV w) m))
| move_settle i entities :
    tasks s !! i = Some (Running [] (Ok entities)) ->
    Move w job s (settle s i (Ok entities))
| move_recover i m :
    tasks s !! i = Some (Running [] (Throw m)) ->
    Move w job s (settle s i (recover (NODE_ENV w) m))
| move_reject reason :
    phase s = Awaiting -> rejection s = Some reason ->
    Move w job s (fail s reason)
| move_dedup_throw validated m :
    phase s = Awaiting -> resolved (tasks s) = Some validated ->
    executeDeduplicationStep w (concat validated) (Job.analysisType job) = Throw m ->
    Move w job s (fail s m)
| move_complete validated finalEntities :
    phase s = Awaiting -> resolved (tasks s) = Some validated ->
    executeDeduplicationStep w (concat validated) (Job.analysisType job)
    = Ok finalEntities ->
    onEvent w (calls s) (completion w s finalEntities) = Ok () ->
    Move w job s (finished (withCall s (completion w s finalEntities)))
| move_complete_throw validated finalEntities m :
    phase s = Awaiting -> resolved (tasks s) = Some validated ->
    executeDeduplicationStep w (concat validated) (Job.analysisType job)
    = Ok finalEntities ->
    onEvent w (calls s) (completion w s finalEntities) = Throw m ->
    Move w job s
      (finished (withCall (withCall s (completion w s finalEntities)) (error m))).

(** The entities a settled task resolved with. *)
Definition outcomeSize (t : TaskState) : nat :=
  match t with
  | Settled (Ok validated) => length validated
  | _ => 0%nat
  end.

Definition settledSize (ts : list TaskState) : nat :=
  sum_list (List.map outcomeSize ts).

(** A [thinking] event carries entities, and the id of a chunk of the job. *)
Definition thinkingOk (cs : list ChunkData) (ev : Event) : Prop :=
  match ev with
  | thinking chunkId entities _ =>
      entities <> [] /\ exists chunk, chunk ∈ cs /\ id chunk = chunkId
  | _ => True
  end.

(** The statistics of a [complete] event describe a funnel. *)
Definition completeOk (cs : list ChunkData) (ev : Event) : Prop :=
  match ev with
  | complete entities stats =>
      chunksGenerated stats = length cs /\
      entitiesDeduplicated stats = length entities /\
      (entitiesDeduplicated stats <= entitiesValidated stats)%nat /\
      (entitiesValidated stats <= entitiesFound stats)%nat
  | _ => True
  end.

Definition isThinking (ev : Event) : bool :=
  match ev with thinking _ _ _ => true | _ => false end.

(** The books of a job: the counter of validated entities is the size of
    the outcomes settled so far, and every event handed out is in order. *)
Definition Accounts (s : State) : Prop :=
  validatedCount s = settledSize (tasks s) /\
  (validatedCount s <= identifiedCount s)%nat /\
  Forall (thinkingOk (chunks s)) (calls s) /\
  Forall (completeOk (chunks s)) (calls s).

(** Where a [complete] event is among the calls: only [thinking] events
    before it, after it at most the [error] event, and the job at rest. *)
Definition CompleteLast (s : State) : Prop :=
  forall pre ev post,
    calls s = pre ++ ev :: post -> isComplete ev = true ->
    Forall (fun e => isThinking e = true) pre /\
    (post = [] \/ exists m, post = [error m]) /\
    phase s = Finished /\
    Forall (fun t => isSettled t = true) (tasks s).

(** A task that cannot reject: it has not failed, and if the model fails
    on it the failure is not about the API key. *)
Definition benign (t : TaskState) : Prop :=
  match t with
  | Queued => True
  | Running _ (Ok _) => True
  | Running _ (Throw m) => includesStr m (str "API key") = false
  | Settled (Ok _) => True
  | Settled (Throw _) => False
  end.

(** No task has failed, no [error] event was handed out, and a finished job
    has handed out its [complete] event. *)
Definition Degrading (s : State) : Prop :=
  rejection s = None /\
  Forall benign (tasks s) /\
  count isError (calls s) = 0%nat /\
  (phase s = Finished -> count isComplete (calls s) = 1%nat).

(** The reason a chunk task rejects with. *)
Definition chunkFailure (cs : list ChunkData) (reason : jsstring) : Prop :=
  exists (i : nat) m,
    (i < length cs)%nat /\
    reason = str "Chunk " ++ ofNat (i + 1) ++ str " processing failed: " ++ m.

(** What an [error] event says: the failure of the workflow, which is the
    message of the schema, of the chunker or of a chunk task, or else the
    exception of the callback on the [complete] event. *)
Definition errorOk (w : World) (job : ProcessingJob) (cs : list ChunkData)
    (ev : Event) : Prop :=
  match ev with
  | error message =>
      (exists cause,
         message = str "Sensitive analysis failed: " ++ cause /\
         ((issues job <> [] /\ cause = zodMessage w (issues job)) \/
          createChunks w (Job.analysisType job) (content job) = Throw cause \/
          chunkFailure cs cause)) \/
      (exists made ev', isComplete ev' = true /\ onEvent w made ev' = Throw message)
  | _ => True
  end.

Definition Explained (w : World) (job : ProcessingJob) (s : State) : Prop :=
  (forall reason, rejection s = Some reason -> chunkFailure (chunks s) reason) /\
  Forall (errorOk w job (chunks s)) (calls s).

(** A run to its end in which the model answers, and a model that is out
    of service. *)
Definition completedRun : State :=
  run 20 (Samples.world Samples.returns Samples.answers) Samples.job
    (start (Samples.world Samples.returns Samples.answers) Samples.job).

Definition outage (i : nat) (c : ChunkData) : ModelRun :=
  {| partialObjectStream := Samples.streamedOnce;
     object := Throw (str "Service unavailable") |}.

Definition degradedRun : State :=
  run 20 (Samples.world Samples.returns outage) Samples.job
    (start (Samples.world Samples.returns outage) Samples.job).

(** A job on JSON content for which the chunker returns no chunk. *)
Definition jsonJob : ProcessingJob :=
  {| content := str "null"; Job.analysisType := JSON;
     policies := [Samples.policy "policy1" "PII Protection Policy"] |}.

(** The statistics of a job without chunks. *)
Definition nothingFound (w : World) : AnalysisStats :=
  {| chunksGenerated := 0; entitiesFound := 0; entitiesValidated := 0;
     entitiesDeduplicated := 0; processingTimeMs := elapsed w |}.

End Accounting.

(** ** server.ts: the checks of the [/api/analyze] route *)

Module Server.
Import Workflow.

(** The body of a request whose [content] and [analysisType] are strings and
    whose [policies] is an array of objects is a [ProcessingJob]; the route
    answers 400 with an error, or starts streaming. *)
Inductive Response :=
| BadRequest (error : jsstring)
| Streaming.

(** A string in a condition: true unless it is empty. *)
Definition truthy (s : jsstring) : bool := negb (len s =? 0).

(** [p && typeof p.id === 'string' && p.id && typeof p.name === 'string' &&
    p.name]. *)
Definition policyOk (p : PolicyFragment) : bool :=
  match Policy.id p with
  | Some i =>
      truthy i &&
      match Policy.name p with
      | Some n => truthy n
      | None => false
      end
  | None => false
  end.

Definition validate (body : ProcessingJob) : Response :=
  if negb (truthy (trim (content body))) then
    BadRequest (str "Content is required for analysis")
  else if (length (policies body) =? 0)%nat
          || negb (forallb policyOk (policies body)) then
    BadRequest (str "At least one valid policy must be selected")
  else if negb (truthy (Job.analysisType body))
          || negb (inEnum (Job.analysisType body)) then
    BadRequest (str "Valid analysis type is required")
  else Streaming.

End Server.

(** ** analyze/chunker.ts: chunking JSON *)

Module JsonChunker.
Import Chunker.

(** [JsonValue] of types.ts; the entries of an object in the order of
    [Object.entries]. *)
#[warnings="-register-all"]
Inductive JsonValue :=
| JNull
| JBool (b : bool)
| JNumber (n : Q)
| JString (s : jsstring)
| JArray (items : list JsonValue)
| JObject (entries : list (jsstring * JsonValue)).

Section Json.
Variable clock : nat -> Z.
(** [JSON.stringify(value)] and [JSON.stringify(value, null, 2)] are the
    engine's. *)
Variable stringify : JsonValue -> jsstring.
Variable stringifyIndented : JsonValue -> jsstring.
Variable o : ChunkingOptions.
Variable ty : AnalysisTypeEnum.

(** The chunk pushed onto [chunks]. Its offset is [chunks.length *
    chunkSize]: that number itself whenever [chunkSize] is an integer, its
    integer part otherwise. *)
Definition pushed (chunks : list ChunkData) (chunkText : jsstring) : list ChunkData :=
  chunks ++ [ {| id := generateChunkId clock (length chunks);
                 text := chunkText;
                 offset := Qfloor (inject_Z (Z.of_nat (length chunks)) * chunkSize o);
                 analysisType := ty |} ].

Definition itemPath (currentPath : jsstring) (index : nat) : jsstring :=
  if negb (len currentPath =? 0)
  then currentPath ++ str "[" ++ ofNat index ++ str "]"
  else str "[" ++ ofNat index ++ str "]".

Definition keyPath (currentPath key : jsstring) : jsstring :=
  if negb (len currentPath =? 0)
  then currentPath ++ str "." ++ key
  else key.

Definition primitiveStr (currentPath : jsstring) (obj : JsonValue) : jsstring :=
  if negb (len currentPath =? 0)
  then [34%N] ++ currentPath ++ [34%N] ++ str ": " ++ stringify obj
  else stringify obj.

(** [objStr.length <= this.options.chunkSize]. *)
Definition small (obj : JsonValue) : bool :=
  Qle_bool (inject_Z (len (stringifyIndented obj))) (chunkSize o).

Fixpoint recursiveJsonChunk (obj : JsonValue) (currentPath : jsstring)
    (chunks : list ChunkData) {struct obj} : list ChunkData :=
  match obj with
  | JNull => chunks
  | JArray items =>
      (fix each (items : list JsonValue) (index : nat) (chunks : list ChunkData)
         : list ChunkData :=
         match items with
         | [] => chunks
         | item :: rest =>
             each rest (S index)
               (recursiveJsonChunk item (itemPath currentPath index) chunks)
         end) items 0%nat chunks
  | JObject entries =>
      if small obj then pushed chunks (stringifyIndented obj)
      else
        (fix each (entries : list (jsstring * JsonValue))
             (chunks : list ChunkData) : list ChunkData :=
           match entries with
           | [] => chunks
           | (key, value) :: rest =>
               each rest (recursiveJsonChunk value (keyPath currentPath key) chunks)
           end) entries chunks
  | _ => pushed chunks (primitiveStr currentPath obj)
  end.

End Json.

(** [chunkJson]: what is written to the console, and the chunks; the error
    of [JSON.parse], the engine's, sends the content to [chunkUnstructured]. *)
Definition chunkJson (clock : nat -> Z) (parse : jsstring -> Result JsonValue)
    (stringify stringifyIndented : JsonValue -> jsstring) (env : NodeEnv)
    (fuel : nat) (o : ChunkingOptions) (jsonStr : jsstring)
    (ty : AnalysisTypeEnum)
  : list jsstring * option (list ChunkData) :=
  match parse jsonStr with
  | Ok parsedJson =>
      ([], Some (recursiveJsonChunk clock stringify stringifyIndented o ty
                   parsedJson [] []))
  | Throw m =>
      (if negb (isTestEnv env)
       then [str "Failed to parse JSON, falling back to unstructured chunking: " ++ m]
       else [],
       chunkUnstructured clock fuel o jsonStr ty)
  end.

(** The number of chunks a value gives: one for each primitive and for each
    object that is small, found in arrays and in objects that are not. *)
Fixpoint leaves (small : JsonValue -> bool) (obj : JsonValue) : nat :=
  match obj with
  | JNull => 0
  | JArray items =>
      (fix each (items : list JsonValue) : nat :=
         match items with
         | [] => 0
         | item :: rest => leaves small item + each rest
         end) items
  | JObject entries =>
      if small obj then 1
      else
        (fix each (entries : list (jsstring * JsonValue)) : nat :=
           match entries with
           | [] => 0
           | (_, value) :: rest => leaves small value + each rest
           end) entries
  | _ => 1
  end%nat.

(** Induction on a value, with the property at hand for the items of an
    array and for the values of an object. *)
Section Induction.
Variable P : JsonValue -> Prop.
Hypothesis case_null : P JNull.
Hypothesis case_bool : forall b, P (JBool b).
Hypothesis case_number : forall n, P (JNumber n).
Hypothesis case_string : forall s, P (JString s).
Hypothesis case_array : forall items, Forall P items -> P (JArray items).
Hypothesis case_object :
  forall entries, Forall (fun kv => P kv.2) entries -> P (JObject entries).

Fixpoint JsonValue_nested_ind (obj : JsonValue) : P obj :=
  match obj with
  | JNull => case_null
  | JBool b => case_bool b
  | JNumber n => case_number n
  | JString s => case_string s
  | JArray items =>
      case_array items
        ((fix each (items : list JsonValue) : Forall P items :=
            match items with
            | [] => List.Forall_nil P
            | item :: rest =>
                @List.Forall_cons _ P item rest
                  (JsonValue_nested_ind item) (each rest)
            end) items)
  | JObject entries =>
      case_object entries
        ((fix each (entries : list (jsstring * JsonValue))
            : Forall (fun kv => P kv.2) entries :=
            match entries with
            | [] => List.Forall_nil (fun kv => P kv.2)
            | (key, value) :: rest =>
                @List.Forall_cons _ (fun kv => P kv.2) (key, value) rest
                  (JsonValue_nested_ind value) (each rest)
            end) entries)
  end.

End Induction.

(** The chunks are numbered: the i-th carries the index [i] in its id, the
    offset [i * chunkSize] and the analysis type. *)
Definition numbered (clock : nat -> Z) (o : ChunkingOptions)
    (ty : AnalysisTypeEnum) (chunks : list ChunkData) : Prop :=
  forall (i : nat) c, chunks !! i = Some c ->
    id c = generateChunkId clock i /\
    offset c = Qfloor (inject_Z (Z.of_nat i) * chunkSize o) /\
    analysisType c = ty.

(** [f] appends [n] chunks and keeps the chunks numbered. *)
Definition appends (clock : nat -> Z) (o : ChunkingOptions)
    (ty : AnalysisTypeEnum) (f : list ChunkData -> list ChunkData) (n : nat)
  : Prop :=
  forall chunks, exists new,
    f chunks = chunks ++ new /\ length new = n /\
    (numbered clock o ty chunks -> numbered clock o ty (chunks ++ new)).

(** [{ users: [ { id: 1 }, null ], ok: true }], with a rendering of the
    values that is long enough for the whole not to be small. *)
Definition sample : JsonValue :=
  JObject [(str "users", JArray [JObject [(str "id", JNumber 1)]; JNull]);
           (str "ok", JBool true)].

Fixpoint size (obj : JsonValue) : nat :=
  match obj with
  | JArray items => S (list_sum (List.map size items))
  | JObject entries => S (list_sum (List.map (fun kv => size kv.2) entries))
  | _ => 1
  end.

(** A stand-in for [JSON.stringify] in the examples: ten characters for
    each node of the value. *)
Definition render (obj : JsonValue) : jsstring := repeat 120%N (10 * size obj).

Definition thirty : ChunkingOptions :=
  {| chunkSize := 30; overlap := 0; columnChunkSize := 4 |}.

End JsonChunker.

(** ** policy/formatPolicies.ts and the policy cache of analyze/identifier.ts *)

Module Policies.

Record Document := mkDocument {
  title : jsstring;
  snippet : jsstring
}.

(** A policy with its documents; [None] for [documents] that are missing
    or [null]. *)
Record PolicyData := mkPolicyData {
  fragment : PolicyFragment;
  documents : option (list Document)
}.

(** A string that may be [undefined], inside a template literal. *)
Definition shown (x : option jsstring) : jsstring := default (str "undefined") x.

Definition formatDocument (doc : Document) : jsstring :=
  str "Section: " ++ title doc ++ str " - Reference: '" ++ snippet doc ++ str "'.".

Definition formatPolicy (policyData : PolicyData) : jsstring :=
  shown (Policy.name (fragment policyData)) ++ str " Privacy Policy. Documents: "
  ++ join (str " ") (List.map formatDocument (default [] (documents policyData))).

Definition formatPolicies (policies : list PolicyData) : list jsstring :=
  List.map formatPolicy policies.

(** [Array.prototype.sort()] on ids: the strings by code units, every
    [undefined] after them. *)
Definition sortDefault (ids : list (option jsstring)) : list (option jsstring) :=
  (Some <$> Deduper.sort Samples.codeUnitCompare (omap (fun x => x) ids))
  ++ List.filter (fun x => negb (bool_decide (is_Some x))) ids.

Section Cache.
(** [JSON.stringify] of an array of ids is the engine's. *)
Variable stringify : list (option jsstring) -> jsstring.

Definition cacheKey (policies : list PolicyData) : jsstring :=
  stringify (sortDefault (List.map (fun p => Policy.id (fragment p)) policies)).

(** [getFormattedPolicies]: the cache afterwards, and the text returned. *)
Definition getFormattedPolicies (policyCache : gmap jsstring jsstring)
    (policies : list PolicyData) : gmap jsstring jsstring * jsstring :=
  let key := cacheKey policies in
  let miss :=
    let formatted := formatPolicies policies in
    let joined := join [Csv.LF] formatted in
    (<[key := joined]> policyCache, joined) in
  match policyCache !! key with
  | Some hit => if negb (len hit =? 0) then (policyCache, hit) else miss
  | None => miss
  end.

End Cache.

(** Two policies, and policies of the same ids under other names. *)
Definition gdpr : PolicyData :=
  {| fragment := Samples.policy "p2" "GDPR";
     documents := Some [ {| title := str "Art. 4"; snippet := str "personal data" |} ] |}.
Definition ccpa : PolicyData :=
  {| fragment := Samples.policy "p1" "CCPA"; documents := None |}.
Definition renamed : list PolicyData :=
  [ {| fragment := Samples.policy "p1" "Draft"; documents := None |};
    {| fragment := Samples.policy "p2" "Other"; documents := None |} ].

Definition plain (ids : list (option jsstring)) : jsstring :=
  join (str ",") (List.map shown ids).

End Policies.

(** ** The comparison of strings by the engine *)

Module Collation.

(** [String.prototype.localeCompare] takes canonically equivalent strings
    for equal: the letter U+00E9 and the letter e followed by the combining
    acute accent U+0301 compare 0.  [compose] writes that pair of code units
    as the one letter. *)
Fixpoint compose (s : jsstring) : jsstring :=
  match s with
  | [] => []
  | c :: rest =>
      match rest with
      | d :: rest' =>
          if (c =? 101)%N && (d =? 769)%N then 233%N :: compose rest'
          else c :: compose rest
      | [] => [c]
      end
  end.

(** A comparison that, like the engine's, is total and transitive and takes
    the two spellings for equal: by code units, after [compose]. *)
Definition canonicalCompare (a b : jsstring) : Z :=
  Samples.codeUnitCompare (compose a) (compose b).

Definition eAcute : jsstring := [233%N].
Definition eCombining : jsstring := [101%N; 769%N].

(** Two entities on one sheet with the same two ranges, in the two orders. *)
Definition accentFirst : SensitiveEntity :=
  Samples.spreadsheet 8 [eAcute; eCombining] "Sheet1".
Definition accentLast : SensitiveEntity :=
  Samples.spreadsheet 9 [eCombining; eAcute] "Sheet1".

End Collation.

(** * Properties *)

(** ** Chunker *)

Module ChunkerFacts.
Import Chunker.

Lemma len_nonneg s : 0 <= len s.
Proof. unfold len. lia. Qed.

Lemma len_slice s a b :
  0 <= a -> a <= b -> b <= len s -> len (slice s a b) = b - a.
Proof.
  intros Ha Hab Hb. unfold slice.
  destruct (Z.ltb_spec a 0); [lia|].
  destruct (Z.ltb_spec b 0); [lia|].
  unfold len in *. rewrite length_take, length_drop. lia.
Qed.

Lemma clampSize_pos o : 1 <= clampSize o.
Proof. unfold clampSize. lia. Qed.

Lemma clampOverlap_nonneg o : 0 <= clampOverlap o.
Proof. unfold clampOverlap. lia. Qed.

Lemma stepOf_pos o : 1 <= stepOf o.
Proof. unfold stepOf. lia. Qed.

Lemma stepOf_le_size o : stepOf o <= clampSize o.
Proof. unfold stepOf. pose proof (clampSize_pos o). pose proof (clampOverlap_nonneg o). lia. Qed.

Section Loop.
Variable clock : nat -> Z.
Variables (txt : jsstring) (ty : AnalysisTypeEnum) (size step : Z).
Hypothesis step_pos : 1 <= step.

(** The loop needs at most one test per remaining character, plus one. *)
Lemma chunkLoop_fuel_enough (n : nat) : forall start chunks,
  len txt - start <= Z.of_nat n ->
  exists res, chunkLoop clock (S n) txt ty size step start chunks = Some res /\
              (length chunks <= length res)%nat /\
              (start < len txt -> (length chunks < length res)%nat).
Proof using step_pos.
  induction n as [|n IH]; intros start chunks Hn.
  - exists chunks. cbn. destruct (Z.ltb_spec start (len txt)); [lia|].
    split; [reflexivity|]. split; lia.
  - cbn [chunkLoop]. destruct (Z.ltb_spec start (len txt)) as [Hlt|Hge].
    + destruct (Z.leb_spec (len txt) (Z.min (len txt) (start + size))).
      * eexists; split; [reflexivity|]. rewrite length_app; cbn. split; lia.
      * destruct (IH (start + step)
                   (chunks ++ [{| id := generateChunkId clock (length chunks);
                                  text := slice txt start (Z.min (len txt) (start + size));
                                  offset := start; analysisType := ty |}]))
          as (res & Hres & Hlen & _); [lia|].
        exists res. split; [exact Hres|].
        rewrite length_app in Hlen; cbn in Hlen. split; lia.
    + exists chunks. split; [reflexivity|]. split; lia.
Qed.

Lemma chunkLoop_mono (n : nat) : forall start chunks res (k : nat),
  chunkLoop clock n txt ty size step start chunks = Some res ->
  chunkLoop clock (n + k) txt ty size step start chunks = Some res.
Proof.
  induction n as [|n IH]; intros start chunks res k H; [discriminate|].
  cbn [chunkLoop Nat.add] in *.
  destruct (start <? len txt); [|exact H].
  destruct (len txt <=? Z.min (len txt) (start + size)); [exact H|].
  apply IH, H.
Qed.

Hypothesis step_le_size : step <= size.

(** From a position inside the text the loop appends exactly the windows. *)
Lemma chunkLoop_windows (n : nat) : forall start chunks res,
  0 <= start -> start < len txt ->
  chunkLoop clock n txt ty size step start chunks = Some res ->
  exists new, res = chunks ++ new /\ Windows txt size step start new.
Proof using step_pos step_le_size.
  induction n as [|n IH]; intros start chunks res H0 Hlt H; [discriminate|].
  cbn [chunkLoop] in H.
  destruct (Z.ltb_spec start (len txt)); [|lia].
  destruct (Z.leb_spec (len txt) (Z.min (len txt) (start + size))) as [Hend|Hend].
  - inversion H; subst res. eexists; split; [reflexivity|].
    apply Windows_last; cbn; try lia.
    f_equal. lia.
  - apply IH in H; [|lia|lia]. destruct H as (new & -> & Hw).
    eexists. rewrite <- app_assoc. split; [reflexivity|]. cbn.
    apply Windows_more; cbn; try lia; [|exact Hw].
    f_equal. lia.
Qed.

Hypothesis size_pos : 1 <= size.

Lemma Windows_head start c rest :
  0 <= start ->
  Windows txt size step start (c :: rest) ->
  offset c = start /\ chunkEnd c = Z.min (len txt) (start + size).
Proof.
  intros H0 Hw. unfold chunkEnd.
  inversion Hw; subst; (split; [reflexivity|]).
  - match goal with H : text c = _ |- _ => rewrite H end.
    rewrite len_slice; lia.
  - match goal with H : text c = _ |- _ => rewrite H end.
    rewrite len_slice; lia.
Qed.

Lemma Windows_cover start ws :
  0 <= start ->
  Windows txt size step start ws ->
  forall p, (exists c, c ∈ ws /\ inRange p c) <-> start <= p < len txt.
Proof using step_pos step_le_size size_pos.
  intros H0 Hw. induction Hw as [start c Hlt Hend Hoff Htxt
                                |start c rest Hend Hoff Htxt Hw IH]; intros p.
  - assert (Hc : chunkEnd c = len txt).
    { unfold chunkEnd. rewrite Htxt, len_slice; lia. }
    unfold inRange. split.
    + intros (c' & Hin & Hr). apply list_elem_of_singleton in Hin. subst c'. lia.
    + intros Hp. exists c. split; [apply list_elem_of_singleton; reflexivity|]. lia.
  - assert (Hc : chunkEnd c = start + size).
    { unfold chunkEnd. rewrite Htxt, len_slice; lia. }
    specialize (IH ltac:(lia) p). unfold inRange in *. split.
    + intros (c' & Hin & Hr). apply elem_of_cons in Hin as [->|Hin].
      * lia.
      * assert (start + step <= p < len txt) by (apply IH; eauto). lia.
    + intros Hp. destruct (Z.lt_ge_cases p (start + size)).
      * exists c. split; [left|lia].
      * destruct IH as [_ IH]. destruct IH as (c' & Hin & Hr); [lia|].
        exists c'. split; [right; exact Hin|exact Hr].
Qed.

Lemma Windows_texts start ws :
  0 <= start ->
  Windows txt size step start ws -> textsFrom txt ws.
Proof using step_pos size_pos.
  intros H0 Hw. induction Hw as [start c Hlt Hend Hoff Htxt
                                |start c rest Hend Hoff Htxt Hw IH]; intros c' Hin.
  - apply list_elem_of_singleton in Hin. subst c'.
    unfold chunkEnd. rewrite Htxt at 1. rewrite Htxt, len_slice by lia.
    rewrite Hoff. f_equal. lia.
  - apply elem_of_cons in Hin as [->|Hin]; [|apply IH; [lia|exact Hin]].
    unfold chunkEnd. rewrite Htxt at 1. rewrite Htxt, len_slice by lia.
    rewrite Hoff. f_equal. lia.
Qed.

(** Two neighbours share exactly [size - step] positions. *)
Lemma Windows_overlap start ws :
  0 <= start ->
  Windows txt size step start ws -> consecutiveOverlap (size - step) ws.
Proof using step_pos step_le_size size_pos.
  intros H0 Hw. induction Hw as [start c Hlt Hend Hoff Htxt
                                |start c rest Hend Hoff Htxt Hw IH]; intros i a b Ha Hb.
  - destruct i; discriminate.
  - destruct i as [|i].
    + cbn in Ha, Hb. injection Ha as <-.
      destruct rest as [|b' rest']; [discriminate|]. cbn in Hb. injection Hb as <-.
      destruct (Windows_head (start + step) b' rest') as [Hob Heb]; [lia|exact Hw|].
      assert (Hc : chunkEnd c = start + size).
      { unfold chunkEnd. rewrite Htxt, len_slice; lia. }
      unfold rangeOverlap. rewrite Hc, Heb, Hob, Hoff. lia.
    + cbn in Ha, Hb. eapply IH; eauto. lia.
Qed.

Lemma Windows_nonempty start ws :
  Windows txt size step start ws -> (1 <= length ws)%nat.
Proof. intros Hw; inversion Hw; cbn; lia. Qed.

End Loop.

(** What [chunkUnstructured] returns, for every configuration: it returns
    (one unit of fuel per character and one more is enough), with at least one
    chunk, the chunks cover the text with its own characters, and neighbours
    share [size - step] positions. *)
Lemma chunkUnstructured_spec clock o txt ty (k : nat) :
  exists chunks,
    chunkUnstructured clock (S (length txt) + k) o txt ty = Some chunks /\
    (1 <= length chunks)%nat /\
    coversExactly chunks (len txt) /\
    textsFrom txt chunks /\
    consecutiveOverlap (clampSize o - stepOf o) chunks.
Proof.
  unfold chunkUnstructured. fold (stepOf o).
  destruct (Z.eqb_spec (len txt) 0) as [Hz|Hnz].
  - eexists. split; [reflexivity|]. split; [cbn; lia|].
    split; [|split].
    + intros p. unfold inRange, chunkEnd. split.
      * intros (c & Hin & Hr). apply list_elem_of_singleton in Hin. subst c.
        cbn in Hr. unfold len in *. cbn in Hr. lia.
      * lia.
    + intros c Hin. apply list_elem_of_singleton in Hin. subst c.
      destruct txt; [reflexivity|]. unfold len in Hz. cbn in Hz. lia.
    + intros i a b Ha Hb. destruct i; discriminate.
  - pose proof (len_nonneg txt) as Hlen.
    pose proof (stepOf_pos o) as Hstep.
    pose proof (stepOf_le_size o) as Hle.
    pose proof (clampSize_pos o) as Hsize.
    destruct (chunkLoop_fuel_enough clock txt ty (clampSize o) (stepOf o) Hstep
                (length txt) 0 []) as (res & Hres & _ & _).
    { unfold len. lia. }
    exists res. split; [apply chunkLoop_mono, Hres|].
    apply chunkLoop_windows in Hres; [|lia..].
    destruct Hres as (new & -> & Hw). cbn [app].
    split; [eapply Windows_nonempty, Hw|].
    split; [|split].
    + intros p. eapply Windows_cover in Hw; [exact Hw|lia..].
    + eapply Windows_texts; [| | |exact Hw]; lia.
    + eapply Windows_overlap; [| | | |exact Hw]; lia.
Qed.

(** C6. For every [chunkSize] and [overlap], [overlap >= chunkSize]
    included, unstructured chunking of any content returns, and returns at
    least one chunk: the size is clamped to at least 1, the overlap to at
    least 0, and the step [max(1, size - overlap)] is at least 1, so that a
    configuration with [overlap >= chunkSize] advances one character at a
    time. *)
Theorem chunkUnstructured_terminates clock o txt ty (k : nat) :
  exists chunks,
    chunkUnstructured clock (S (length txt) + k) o txt ty = Some chunks /\
    (1 <= length chunks)%nat /\
    1 <= clampSize o /\ 0 <= clampOverlap o /\ 1 <= stepOf o /\
    stepOf o = (if clampSize o <=? clampOverlap o then 1
                else clampSize o - clampOverlap o).
Proof.
  destruct (chunkUnstructured_spec clock o txt ty k) as (chunks & H & Hlen & _).
  exists chunks. split; [exact H|]. split; [exact Hlen|].
  pose proof (clampSize_pos o). pose proof (clampOverlap_nonneg o).
  pose proof (stepOf_pos o).
  repeat split; try assumption.
  unfold stepOf. destruct (Z.leb_spec (clampSize o) (clampOverlap o)); lia.
Qed.

(** C1 (as amended). When the integer part of [overlap] is below the integer
    part of [chunkSize] (for integer options: O < S), [createChunks] on
    UNSTRUCTURED content returns chunks whose ranges cover [0, L) exactly,
    each holding the content's characters at its offset, and every two
    consecutive chunks, the last pair included, share exactly
    [max(0, floor(O))] characters: the clamped overlap. *)
Theorem unstructured_cover_and_overlap clock byColumn json o content :
  Qfloor (overlap o) < Qfloor (chunkSize o) ->
  exists chunks,
    createChunks clock byColumn json (S (length content)) o UNSTRUCTURED content
      = Some (Ok chunks) /\
    coversExactly chunks (len content) /\
    textsFrom content chunks /\
    consecutiveOverlap (Z.max 0 (Qfloor (overlap o))) chunks.
Proof.
  intros Hlt.
  destruct (chunkUnstructured_spec clock o content UNSTRUCTURED 0)
    as (chunks & H & _ & Hcov & Htxt & Hov).
  exists chunks. split.
  - unfold createChunks. cbn [getChunkingStrategy].
    replace (S (length content) + 0)%nat with (S (length content)) in H by lia.
    change (streq UNSTRUCTURED UNSTRUCTURED) with true. cbn iota.
    rewrite H. reflexivity.
  - split; [exact Hcov|]. split; [exact Htxt|].
    replace (Z.max 0 (Qfloor (overlap o))) with (clampSize o - stepOf o); [exact Hov|].
    unfold stepOf, clampSize, clampOverlap. lia.
Qed.

Lemma unstructured_cover_and_overlap_witness :
  exists chunks,
    createChunks clock0 noStrategy noStrategy (S (length hello)) smallWindow
      UNSTRUCTURED hello = Some (Ok chunks) /\
    coversExactly chunks (len hello) /\
    textsFrom hello chunks /\
    consecutiveOverlap (Z.max 0 (Qfloor (overlap smallWindow))) chunks.
Proof.
  apply (unstructured_cover_and_overlap clock0 noStrategy noStrategy smallWindow hello).
  vm_compute. reflexivity.
Defined.

(** C1 (as stated) fails: with chunkSize 2 and overlap -1 (so O < S) the
    chunks of a five-character text are [0,2), [2,4), [4,5); the first two
    share no character, and [min(O, S)] is -1. *)
Lemma unstructured_overlap_not_min :
  (overlap negativeOverlap < chunkSize negativeOverlap)%Q /\
  exists chunks,
    createChunks clock0 noStrategy noStrategy (S (length hello)) negativeOverlap
      UNSTRUCTURED hello = Some (Ok chunks) /\
    ~ specWindows negativeOverlap hello chunks.
Proof.
  split; [reflexivity|].
  eexists. split; [vm_compute; reflexivity|].
  intros [_ Hov].
  specialize (Hov 0%nat _ _ ltac:(cbn; lia) eq_refl eq_refl).
  vm_compute in Hov. discriminate.
Qed.

Example createChunks_hello :
  createChunks clock0 noStrategy noStrategy (S (length hello)) smallWindow
    UNSTRUCTURED hello
  = Some (Ok [ {| id := str "chunk_0_0"; text := str "hel"; offset := 0;
                  analysisType := UNSTRUCTURED |};
               {| id := str "chunk_0_1"; text := str "llo"; offset := 2;
                  analysisType := UNSTRUCTURED |} ]).
Proof. vm_compute. reflexivity. Qed.

Example createChunks_unsupported :
  createChunks clock0 noStrategy noStrategy 1 smallWindow (str "UNSUPPORTED") hello
  = Some (Throw (str "Unsupported analysis type: UNSUPPORTED")).
Proof. vm_compute. reflexivity. Qed.

End ChunkerFacts.

(** ** CSV round trip *)

Module CsvFacts.
Import Csv.

Lemma parseLoop_open rest f row rows :
  parseLoop (quote :: rest) false f row rows = parseLoop rest true f row rows.
Proof. destruct rest; reflexivity. Qed.

(** Inside quotes the escaped field is read back character by character, up
    to the closing quote. *)
Lemma parseLoop_quoted v : forall rest f row rows,
  closes rest ->
  parseLoop (escapeQuotes v ++ quote :: rest) true f row rows
  = parseLoop rest false (f ++ v) row rows.
Proof.
  induction v as [|c v IH]; intros rest f row rows Hrest.
  - rewrite app_nil_r. cbn.
    destruct rest as [|c r]; [reflexivity|].
    cbn in Hrest. destruct (N.eqb_spec c quote); [contradiction|reflexivity].
  - cbn [escapeQuotes flat_map]. fold (escapeQuotes v).
    destruct (N.eqb_spec c quote) as [->|Hc].
    + cbn. rewrite IH by exact Hrest. rewrite <- app_assoc. reflexivity.
    + cbn [app parseLoop]. destruct (N.eqb_spec c quote); [contradiction|].
      cbn. rewrite IH by exact Hrest. rewrite <- app_assoc. reflexivity.
Qed.

(** Outside quotes a field without special characters is read back as it is. *)
Lemma parseLoop_plain v : forall rest f row rows,
  Forall plainChar v ->
  parseLoop (v ++ rest) false f row rows = parseLoop rest false (f ++ v) row rows.
Proof.
  induction v as [|c v IH]; intros rest f row rows Hv.
  - rewrite app_nil_r. reflexivity.
  - inversion Hv as [|c' v' (Hq & Hc & Hl & Hr) Hv']; subst.
    cbn [app parseLoop].
    destruct (N.eqb_spec c quote); [contradiction|].
    destruct (N.eqb_spec c comma); [contradiction|].
    destruct (N.eqb_spec c LF); [contradiction|].
    destruct (N.eqb_spec c CR); [contradiction|].
    cbn. rewrite IH by exact Hv'. rewrite <- app_assoc. reflexivity.
Qed.

Lemma includes_false s c : includes s c = false -> Forall (fun x => x <> c) s.
Proof.
  unfold includes. induction s as [|x s IH]; cbn; intros H; [constructor|].
  apply orb_false_iff in H as [Hx Hs]. constructor; [|apply IH, Hs].
  intros ->. rewrite N.eqb_refl in Hx. discriminate.
Qed.

Lemma escapeQuotes_no_quote v :
  Forall (fun x => x <> quote) (escapeQuotes v) -> escapeQuotes v = v.
Proof.
  induction v as [|c v IH]; [reflexivity|].
  cbn [escapeQuotes flat_map]. fold (escapeQuotes v).
  destruct (N.eqb_spec c quote) as [->|Hc]; cbn; intros H.
  - inversion H; subst; contradiction.
  - inversion H; subst. f_equal. apply IH. assumption.
Qed.

(** One serialized field, followed by the end or by a separator, parses back
    to the field. *)
Lemma parseLoop_field v rest f row rows :
  closes rest ->
  parseLoop (serializeField v ++ rest) false f row rows
  = parseLoop rest false (f ++ v) row rows.
Proof.
  intros Hrest. unfold serializeField.
  destruct (includes (escapeQuotes v) comma || includes (escapeQuotes v) quote
            || includes (escapeQuotes v) CR || includes (escapeQuotes v) LF) eqn:E.
  - rewrite <- !app_assoc. cbn [app]. rewrite parseLoop_open.
    apply parseLoop_quoted, Hrest.
  - apply orb_false_iff in E as [E Hlf].
    apply orb_false_iff in E as [E Hcr].
    apply orb_false_iff in E as [Hco Hq].
    apply includes_false in Hlf, Hcr, Hco, Hq.
    pose proof (escapeQuotes_no_quote v Hq) as Heq. rewrite Heq in *.
    apply parseLoop_plain.
    rewrite Forall_forall in *. intros c Hc.
    repeat split; [apply Hq|apply Hco|apply Hlf|apply Hcr]; exact Hc.
Qed.

Lemma parseLoop_row vs : forall v row rows,
  parseLoop (serializeCsvRow (v :: vs)) false [] row rows
  = rows ++ [row ++ v :: vs].
Proof.
  unfold serializeCsvRow.
  induction vs as [|v2 vs IH]; intros v row rows.
  - cbn [List.map join].
    rewrite <- (app_nil_r (serializeField v)).
    rewrite parseLoop_field by exact I. reflexivity.
  - cbn [List.map join] in *.
    rewrite parseLoop_field by (cbn; discriminate).
    cbn [app parseLoop]. cbn.
    rewrite IH. rewrite <- app_assoc. reflexivity.
Qed.

(** C7 (as amended). For every row with at least one field, serializing it
    with [serializeCsvRow] and parsing the text with [parseCsv] gives back
    one row with exactly the original fields, whatever commas, quotes,
    carriage returns and newlines they contain. *)
Theorem csv_round_trip (vals : list jsstring) :
  vals <> [] -> parseCsv (serializeCsvRow vals) = [vals].
Proof.
  intros Hne. destruct vals as [|v vs]; [contradiction|].
  unfold parseCsv. rewrite parseLoop_row. reflexivity.
Qed.

Lemma csv_round_trip_witness :
  trickyRow <> [] /\ parseCsv (serializeCsvRow trickyRow) = [trickyRow].
Proof.
  split; [discriminate|].
  apply (csv_round_trip trickyRow). discriminate.
Defined.

(** C7 (as stated) fails on the row without fields: it serializes to the
    empty text, which [parseCsv] reads as one row holding one empty field. *)
Lemma csv_round_trip_empty_row :
  parseCsv (serializeCsvRow []) = [[[]]] /\ ~ roundTrips [].
Proof.
  split; [reflexivity|]. unfold roundTrips. cbn. discriminate.
Qed.

End CsvFacts.

(** ** Validator *)

Module ValidatorFacts.
Import Validator.

Lemma Qltb_true a b : Qltb a b = true <-> (a < b)%Q.
Proof.
  unfold Qltb. rewrite negb_true_iff. split.
  - intros H. apply Qnot_le_lt. intros Hle.
    apply Qle_bool_iff in Hle. congruence.
  - intros H. destruct (Qle_bool b a) eqn:E; [|reflexivity].
    apply Qle_bool_iff in E. exfalso. exact (Qlt_not_le _ _ H E).
Qed.

Lemma Qltb_false a b : Qltb a b = false <-> (b <= a)%Q.
Proof.
  unfold Qltb. rewrite negb_false_iff. apply Qle_bool_iff.
Qed.

Lemma blankLabel_true label : blankLabel label = true <-> trim label = [].
Proof.
  unfold blankLabel, len. rewrite orb_true_iff, !Z.eqb_eq. split.
  - intros [H|H].
    + destruct label; [reflexivity|cbn in H; lia].
    + destruct (trim label); [reflexivity|cbn in H; lia].
  - intros ->. right. reflexivity.
Qed.

Lemma blankLabel_false label : blankLabel label = false <-> trim label <> [].
Proof.
  rewrite <- blankLabel_true. destruct (blankLabel label); split; congruence.
Qed.

Lemma isValidEntity_accepted config e :
  isValidEntity config e = true <-> accepted config e.
Proof.
  unfold isValidEntity, accepted.
  destruct (Qltb (confidence e) (minimumConfidence config)) eqn:Hmin.
  - apply Qltb_true in Hmin. split; [discriminate|].
    intros [Hle _]. exfalso. exact (Qlt_not_le _ _ Hmin Hle).
  - apply Qltb_false in Hmin.
    destruct (enableStrictMode config).
    + destruct (blankLabel (entity e)) eqn:Hb.
      * apply blankLabel_true in Hb. split; [discriminate|].
        intros [_ H]. destruct (H eq_refl) as [Hne _]. contradiction.
      * apply blankLabel_false in Hb.
        destruct (Qltb (confidence e) 8) eqn:H8.
        -- apply Qltb_true in H8. split; [discriminate|].
           intros [_ H]. destruct (H eq_refl) as [_ Hle].
           exfalso. exact (Qlt_not_le _ _ H8 Hle).
        -- apply Qltb_false in H8. split; [|reflexivity].
           intros _. split; [exact Hmin|]. intros _. split; assumption.
    + split; [|reflexivity]. intros _. split; [exact Hmin|discriminate].
Qed.

Lemma accepted_floor config e :
  accepted config e <->
  (effectiveFloor config <= confidence e)%Q /\
  (enableStrictMode config = true -> trim (entity e) <> []).
Proof.
  unfold accepted, effectiveFloor.
  destruct (enableStrictMode config).
  - rewrite Q.max_lub_iff. split.
    + intros [Hmin H]. destruct (H eq_refl) as [Hne H8]. auto.
    + intros [[Hmin H8] H]. auto.
  - split; intros [Hmin _]; (split; [exact Hmin|discriminate]).
Qed.

Lemma validateEntities_Kept config entities :
  Kept config entities (validateEntities config entities).
Proof.
  unfold validateEntities.
  induction entities as [|e entities IH]; cbn; [constructor|].
  destruct (isValidEntity config e) eqn:E.
  - apply Kept_take; [apply isValidEntity_accepted, E|exact IH].
  - apply Kept_drop; [|exact IH].
    rewrite <- isValidEntity_accepted. congruence.
Qed.

(** C4. The validator accepts an entity exactly when its confidence is at
    least [minimumConfidence] and, in strict mode, its label is not blank
    after trimming and its confidence is at least 8, that is, when its
    confidence is at least the effective floor ([max(minimumConfidence, 8)]
    in strict mode) and, in strict mode, its label is not blank; the bound is
    inclusive; and [validateEntities] returns the accepted entities, and only
    them, in input order. *)
Theorem validator_rule config e entities :
  (isValidEntity config e = true <-> accepted config e) /\
  (accepted config e <->
     (effectiveFloor config <= confidence e)%Q /\
     (enableStrictMode config = true -> trim (entity e) <> [])) /\
  ((confidence e == effectiveFloor config)%Q /\
   (enableStrictMode config = true -> trim (entity e) <> []) ->
     validateSingle config e = true) /\
  Kept config entities (validateEntities config entities).
Proof.
  split; [apply isValidEntity_accepted|].
  split; [apply accepted_floor|].
  split; [|apply validateEntities_Kept].
  intros [Heq Hlabel]. apply isValidEntity_accepted, accepted_floor.
  split; [|exact Hlabel]. rewrite Heq. apply Qle_refl.
Qed.

(** The boundary cases of the test suite, with the default configuration,
    and strict mode on an entity between the two thresholds. *)
Example validator_boundary :
  validateSingle Validator.defaultConfig
    (Samples.unstructured "email" 7 "boundary@example.com") = true /\
  validateSingle Validator.defaultConfig
    (Samples.unstructured "email" (699 # 100) "boundary@example.com") = false /\
  validateSingle {| minimumConfidence := 7; enableStrictMode := true |}
    (Samples.unstructured "email" (15 # 2) "boundary@example.com") = false /\
  validateSingle {| minimumConfidence := 7; enableStrictMode := true |}
    (Samples.unstructured "  " 9 "boundary@example.com") = false /\
  validateEntities Validator.defaultConfig
    [Samples.john8; Samples.unstructured "phone" 6 "555-1234"; Samples.john9]
  = [Samples.john8; Samples.john9].
Proof. repeat split; vm_compute; reflexivity. Qed.

End ValidatorFacts.

(** ** Deduper *)

Module DeduperFacts.
Import Deduper.

(** *** The [seen] map *)

Lemma mapGet_mapSet_eq seen key v : mapGet (mapSet seen key v) key = Some v.
Proof.
  induction seen as [|[k old] seen IH]; cbn.
  - destruct (decide (key = key)); congruence.
  - destruct (decide (k = key)) as [->|Hne]; cbn.
    + destruct (decide (key = key)); congruence.
    + destruct (decide (k = key)); [contradiction|exact IH].
Qed.

Lemma mapGet_mapSet_ne seen key key' v :
  key <> key' -> mapGet (mapSet seen key v) key' = mapGet seen key'.
Proof.
  intros Hne. induction seen as [|[k old] seen IH]; cbn.
  - destruct (decide (key = key')); [contradiction|reflexivity].
  - destruct (decide (k = key)) as [->|Hk]; cbn.
    + destruct (decide (key = key')); [contradiction|reflexivity].
    + destruct (decide (k = key')); [reflexivity|exact IH].
Qed.

Lemma mapGet_None seen key : mapGet seen key = None <-> key ∉ seen.*1.
Proof.
  induction seen as [|[k v] seen IH]; cbn.
  - split; [intros _ H; inversion H|reflexivity].
  - destruct (decide (k = key)) as [->|Hne].
    + split; [discriminate|]. intros H. exfalso. apply H. left.
    + rewrite IH. rewrite not_elem_of_cons. split; [auto|]. intros [_ H]; exact H.
Qed.

Lemma keys_mapSet seen key v : (mapSet seen key v).*1 = addKey seen.*1 key.
Proof.
  unfold addKey. induction seen as [|[k old] seen IH]; cbn.
  - destruct (decide (key ∈ [])) as [H|_]; [inversion H|reflexivity].
  - destruct (decide (k = key)) as [->|Hne]; cbn.
    + destruct (decide (key ∈ key :: seen.*1)) as [_|H]; [reflexivity|].
      exfalso. apply H. left.
    + rewrite IH.
      destruct (decide (key ∈ seen.*1)) as [Hin|Hnin];
        destruct (decide (key ∈ k :: seen.*1)) as [Hin'|Hnin']; try reflexivity.
      * exfalso. apply Hnin'. right. exact Hin.
      * exfalso. apply elem_of_cons in Hin' as [->|Hin']; [congruence|contradiction].
Qed.

Lemma keys_dedupStep seen key e : (dedupStep seen key e).*1 = addKey seen.*1 key.
Proof.
  unfold dedupStep. destruct (mapGet seen key) as [existing|] eqn:E.
  - destruct (Qltb _ _); [apply keys_mapSet|].
    unfold addKey. destruct (decide (key ∈ seen.*1)) as [_|Hnin]; [reflexivity|].
    apply mapGet_None in Hnin. congruence.
  - apply keys_mapSet.
Qed.

Lemma mapGet_dedupStep_eq seen key e :
  mapGet (dedupStep seen key e) key = better (mapGet seen key) e.
Proof.
  unfold dedupStep, better. destruct (mapGet seen key) as [existing|] eqn:E.
  - destruct (Qltb _ _); [apply mapGet_mapSet_eq|exact E].
  - apply mapGet_mapSet_eq.
Qed.

Lemma mapGet_dedupStep_ne seen key key' e :
  key <> key' -> mapGet (dedupStep seen key e) key' = mapGet seen key'.
Proof.
  intros Hne. unfold dedupStep. destruct (mapGet seen key) as [existing|].
  - destruct (Qltb _ _); [apply mapGet_mapSet_ne, Hne|reflexivity].
  - apply mapGet_mapSet_ne, Hne.
Qed.

(** *** The loop, for a key extractor that does not throw *)

Section Loop.
Variable keyExtractor : SensitiveEntity -> Result MapKey.
Variable key : SensitiveEntity -> MapKey.

Lemma dedupLoop_pure entities : forall seen,
  Forall (fun e => keyExtractor e = Ok (key e)) entities ->
  dedupLoop keyExtractor entities seen = Ok (dedupPure key entities seen).
Proof.
  induction entities as [|e entities IH]; intros seen H; [reflexivity|].
  inversion H as [|e' l He Hrest]; subst.
  cbn. rewrite He. cbn. apply IH, Hrest.
Qed.

Lemma keys_dedupPure entities : forall seen,
  (dedupPure key entities seen).*1 = foldl addKey seen.*1 (List.map key entities).
Proof.
  induction entities as [|e entities IH]; intros seen; [reflexivity|].
  cbn. unfold dedupPure in IH. rewrite IH, keys_dedupStep. reflexivity.
Qed.

Lemma mapGet_dedupPure k entities : forall seen,
  mapGet (dedupPure key entities seen) k
  = foldl better (mapGet seen k)
      (List.filter (fun x => bool_decide (key x = k)) entities).
Proof.
  induction entities as [|e entities IH]; intros seen; [reflexivity|].
  cbn. unfold dedupPure in IH. rewrite IH.
  destruct (bool_decide_reflect (key e = k)) as [<-|Hne]; cbn.
  - rewrite mapGet_dedupStep_eq. reflexivity.
  - rewrite mapGet_dedupStep_ne by exact Hne. reflexivity.
Qed.

End Loop.

Lemma addKey_NoDup acc k : NoDup acc -> NoDup (addKey acc k).
Proof.
  intros H. unfold addKey. destruct (decide (k ∈ acc)); [exact H|].
  apply NoDup_app. split; [exact H|]. split.
  - intros x Hx Hx'. apply list_elem_of_singleton in Hx'. subst. contradiction.
  - apply NoDup_singleton.
Qed.

Lemma foldl_addKey_NoDup ks : forall acc,
  NoDup acc -> NoDup (foldl addKey acc ks).
Proof.
  induction ks as [|k ks IH]; intros acc H; [exact H|].
  cbn. apply IH, addKey_NoDup, H.
Qed.

(** With distinct keys, looking a key up finds the entry listed with it. *)
Lemma mapGet_entries (seen : SeenMap) :
  NoDup seen.*1 -> Forall2 (fun k e => mapGet seen k = Some e) seen.*1 seen.*2.
Proof.
  induction seen as [|[k v] seen IH]; cbn; intros Hnd; [constructor|].
  apply NoDup_cons in Hnd as [Hnin Hnd].
  constructor.
  - destruct (decide (k = k)); congruence.
  - specialize (IH Hnd).
    eapply Forall2_impl; [exact IH|].
    intros k' e. cbn. intros H.
    destruct (decide (k = k')) as [->|_]; [|exact H].
    apply mapGet_None in Hnin. congruence.
Qed.

(** *** The best entity of a key *)

Lemma IsBest_single x : IsBest [x] x.
Proof. exists [], []. repeat split; constructor. Qed.

Lemma IsBest_replace candidates c x :
  IsBest candidates c -> (confidence c < confidence x)%Q ->
  IsBest (candidates ++ [x]) x.
Proof.
  intros (earlier & later & -> & He & Hl) Hlt.
  exists (earlier ++ c :: later), []. split; [reflexivity|].
  split; [|constructor].
  apply Forall_app. split.
  - eapply Forall_impl; [exact He|]. intros y Hy. cbn in Hy.
    eapply Qlt_trans; eassumption.
  - constructor; [exact Hlt|].
    eapply Forall_impl; [exact Hl|]. intros y Hy. cbn in Hy.
    eapply Qle_lt_trans; eassumption.
Qed.

Lemma IsBest_keep candidates c x :
  IsBest candidates c -> (confidence x <= confidence c)%Q ->
  IsBest (candidates ++ [x]) c.
Proof.
  intros (earlier & later & -> & He & Hl) Hle.
  exists earlier, (later ++ [x]). split.
  - rewrite <- app_assoc. reflexivity.
  - split; [exact He|]. apply Forall_app. split; [exact Hl|].
    constructor; [exact Hle|constructor].
Qed.

Lemma foldl_better_IsBest rest : forall candidates c,
  IsBest candidates c ->
  exists e, foldl better (Some c) rest = Some e /\ IsBest (candidates ++ rest) e.
Proof.
  induction rest as [|x rest IH]; intros candidates c Hc.
  - exists c. rewrite app_nil_r. split; [reflexivity|exact Hc].
  - cbn [foldl better].
    replace (candidates ++ x :: rest) with ((candidates ++ [x]) ++ rest)
      by (rewrite <- app_assoc; reflexivity).
    destruct (Qltb (confidence c) (confidence x)) eqn:E.
    + apply ValidatorFacts.Qltb_true in E.
      apply IH, IsBest_replace with c; assumption.
    + apply ValidatorFacts.Qltb_false in E.
      apply IH, IsBest_keep; assumption.
Qed.

Lemma foldl_better_Some candidates e :
  foldl better None candidates = Some e -> IsBest candidates e.
Proof.
  destruct candidates as [|x rest]; [discriminate|].
  cbn [foldl better]. intros H.
  destruct (foldl_better_IsBest rest [x] x (IsBest_single x)) as (e' & He' & Hbest).
  rewrite He' in H. injection H as <-. exact Hbest.
Qed.

(** *** First-seen order of the keys *)

Lemma firstSeen_KeyString_acc (ks : list jsstring) : forall acc,
  foldl addKey (KeyString <$> acc) (KeyString <$> ks)
  = KeyString <$>
      foldl (fun acc k => if decide (k ∈ acc) then acc else acc ++ [k]) acc ks.
Proof.
  induction ks as [|k ks IH]; intros acc; [reflexivity|].
  cbn. rewrite <- IH. f_equal. unfold addKey.
  destruct (decide (k ∈ acc)) as [Hin|Hnin];
    destruct (decide (KeyString k ∈ KeyString <$> acc)) as [Hin'|Hnin'].
  - reflexivity.
  - exfalso. apply Hnin'. apply list_elem_of_fmap. eauto.
  - exfalso. apply list_elem_of_fmap in Hin' as (k' & Heq & Hin').
    injection Heq as ->. contradiction.
  - rewrite fmap_app. reflexivity.
Qed.

Lemma firstSeen_KeyString (ks : list jsstring) :
  foldl addKey [] (KeyString <$> ks) = KeyString <$> firstSeen ks.
Proof. apply (firstSeen_KeyString_acc ks []). Qed.

(** [deduplicateByKey] with a key extractor that yields the key [f e] on
    every entity it is given. *)
Lemma deduplicateByKey_spec keyExtractor (f : SensitiveEntity -> jsstring) entities :
  Forall (fun e => keyExtractor e = Ok (KeyString (f e))) entities ->
  exists output,
    deduplicateByKey keyExtractor entities = Ok output /\
    Deduplicated f entities output.
Proof.
  intros Hkeys. unfold deduplicateByKey.
  rewrite (dedupLoop_pure keyExtractor (fun e => KeyString (f e))) by exact Hkeys.
  cbn [bind]. eexists. split; [reflexivity|].
  set (final := dedupPure (fun e => KeyString (f e)) entities []).
  assert (Hk : final.*1 = KeyString <$> firstSeen (List.map f entities)).
  { unfold final. rewrite keys_dedupPure. cbn [fmap list_fmap].
    rewrite <- firstSeen_KeyString.
    f_equal. rewrite List.map_map. reflexivity. }
  assert (Hnd : NoDup final.*1).
  { unfold final. rewrite keys_dedupPure. apply foldl_addKey_NoDup, NoDup_nil_2. }
  pose proof (mapGet_entries final Hnd) as Hall.
  rewrite Hk in Hall. apply Forall2_fmap_l in Hall.
  unfold Deduplicated.
  eapply Forall2_impl; [exact Hall|].
  intros k e. cbn. unfold final. rewrite mapGet_dedupPure. cbn.
  intros Hbest. apply foldl_better_Some.
  erewrite List.filter_ext; [exact Hbest|].
  intros x. cbn. apply bool_decide_ext. split; [congruence|].
  intros Heq. injection Heq as ->. reflexivity.
Qed.

(** *** [removeDuplicates], shape by shape *)

Lemma inEnum_cases t :
  inEnum t = true ->
  t = UNSTRUCTURED \/ t = CSV \/ t = JSON \/ t = SPREADSHEET.
Proof.
  unfold inEnum, streq. rewrite !orb_true_iff, !bool_decide_eq_true. tauto.
Qed.

Lemma filter_idem {A} (g : A -> bool) l :
  List.filter g (List.filter g l) = List.filter g l.
Proof.
  induction l as [|x l IH]; [reflexivity|]. cbn.
  destruct (g x) eqn:E; [|exact IH]. cbn. rewrite E, IH. reflexivity.
Qed.

Lemma Forall_filter_true {A} (g : A -> bool) l :
  Forall (fun x => g x = true) (List.filter g l).
Proof.
  apply Forall_forall. intros x Hx. apply list_elem_of_In, filter_In in Hx. tauto.
Qed.

Section Shapes.
Variable toLowerCase : jsstring -> jsstring.
Variable localeCompare : jsstring -> jsstring -> Z.

Local Abbreviation removeDuplicates := (removeDuplicates toLowerCase localeCompare).
Local Abbreviation identityKey := (identityKey toLowerCase localeCompare).

Lemma textKey_matching config e :
  isUnstructuredSensitiveEntity e = true ->
  textKey toLowerCase config e = Ok (KeyString (identityKey config UNSTRUCTURED e)).
Proof.
  unfold isUnstructuredSensitiveEntity, textKey, Deduper.identityKey.
  rewrite bool_decide_eq_true. intros [t Ht]. rewrite Ht.
  change (streq UNSTRUCTURED UNSTRUCTURED) with true. cbn.
  destruct (caseSensitive config); reflexivity.
Qed.

Lemma rangesKey_matching config e :
  isSpreadsheetSensitiveEntity e = true ->
  rangesKey localeCompare e = Ok (KeyString (identityKey config SPREADSHEET e)).
Proof.
  unfold isSpreadsheetSensitiveEntity, rangesKey, Deduper.identityKey, normalizeRanges.
  rewrite andb_true_iff, !bool_decide_eq_true. intros [[rs Hrs] [sn Hsn]].
  rewrite Hrs, Hsn.
  change (streq SPREADSHEET UNSTRUCTURED) with false.
  change (streq SPREADSHEET SPREADSHEET) with true. reflexivity.
Qed.

Lemma pathKey_matching config t e :
  t = JSON \/ t = CSV ->
  isStructuredSensitiveEntity e = true ->
  pathKey e = Ok (KeyString (identityKey config t e)).
Proof.
  unfold isStructuredSensitiveEntity, pathKey, Deduper.identityKey.
  rewrite andb_true_iff, !bool_decide_eq_true. intros Ht [[p Hp] _].
  rewrite Hp. destruct Ht as [->| ->].
  - change (streq JSON UNSTRUCTURED) with false.
    change (streq JSON SPREADSHEET) with false. reflexivity.
  - change (streq CSV UNSTRUCTURED) with false.
    change (streq CSV SPREADSHEET) with false. reflexivity.
Qed.

(** For a member of the enum, [removeDuplicates] is [deduplicateByKey] on the
    entities that match the shape, with a key extractor that yields the
    identity key on each of them. *)
Lemma removeDuplicates_recognized env config entities t :
  inEnum t = true ->
  exists keyExtractor,
    (removeDuplicates env config entities t).2
    = deduplicateByKey keyExtractor (List.filter (matchesShape t) entities) /\
    forall e, matchesShape t e = true ->
      keyExtractor e = Ok (KeyString (identityKey config t e)).
Proof.
  intros Ht. apply inEnum_cases in Ht as [->|[->|[->| ->]]];
    unfold Deduper.removeDuplicates, matchesShape.
  - change (streq UNSTRUCTURED UNSTRUCTURED) with true. cbn iota.
    eexists. split; [reflexivity|]. intros e. apply textKey_matching.
  - change (streq CSV UNSTRUCTURED) with false.
    change (streq CSV SPREADSHEET) with false.
    change (streq CSV JSON) with false.
    change (streq CSV CSV) with true. cbn iota.
    eexists. split; [reflexivity|]. intros e. apply pathKey_matching. auto.
  - change (streq JSON UNSTRUCTURED) with false.
    change (streq JSON SPREADSHEET) with false.
    change (streq JSON JSON) with true. cbn iota.
    eexists. split; [reflexivity|]. intros e. apply pathKey_matching. auto.
  - change (streq SPREADSHEET UNSTRUCTURED) with false.
    change (streq SPREADSHEET SPREADSHEET) with true. cbn iota.
    eexists. split; [reflexivity|]. intros e. apply rangesKey_matching.
Qed.

End Shapes.

(** C5. For every entity list and every shape of the enum,
    [removeDuplicates] returns, for each distinct identity key of the
    entities of that shape and in the order in which the keys are first
    seen, the one entity that is the best of its key: the first with the
    highest confidence, so that a later entity replaces an earlier one only
    when its confidence is strictly higher. *)
Theorem removeDuplicates_keeps_best toLowerCase localeCompare env config entities t :
  inEnum t = true ->
  exists output,
    (removeDuplicates toLowerCase localeCompare env config entities t).2 = Ok output /\
    Deduplicated (identityKey toLowerCase localeCompare config t)
      (List.filter (matchesShape t) entities) output.
Proof.
  intros Ht.
  destruct (removeDuplicates_recognized toLowerCase localeCompare env config
              entities t Ht) as (keyExtractor & -> & Hkeys).
  apply deduplicateByKey_spec.
  eapply Forall_impl; [apply Forall_filter_true|].
  intros e. cbn. apply Hkeys.
Qed.

Lemma removeDuplicates_keeps_best_witness :
  inEnum UNSTRUCTURED = true /\
  exists output,
    (removeDuplicates Samples.asciiLower Samples.codeUnitCompare Samples.production
       Samples.insensitive
       [Samples.john8; Samples.jane7; Samples.john9; Samples.johnAgain9]
       UNSTRUCTURED).2 = Ok output /\
    Deduplicated
      (identityKey Samples.asciiLower Samples.codeUnitCompare Samples.insensitive
         UNSTRUCTURED)
      (List.filter (matchesShape UNSTRUCTURED)
         [Samples.john8; Samples.jane7; Samples.john9; Samples.johnAgain9])
      output.
Proof.
  split; [reflexivity|].
  apply (removeDuplicates_keeps_best Samples.asciiLower Samples.codeUnitCompare
           Samples.production Samples.insensitive
           [Samples.john8; Samples.jane7; Samples.john9; Samples.johnAgain9]
           UNSTRUCTURED).
  reflexivity.
Defined.

(** The run behind the witness: the tie between the two entities of
    confidence 9 keeps the earlier one, in the place of the first key. *)
Example removeDuplicates_sample :
  (removeDuplicates Samples.asciiLower Samples.codeUnitCompare Samples.production
     Samples.insensitive
     [Samples.john8; Samples.jane7; Samples.john9; Samples.johnAgain9]
     UNSTRUCTURED).2
  = Ok [Samples.john9; Samples.jane7].
Proof. vm_compute. reflexivity. Qed.

Example removeDuplicates_case_sensitive :
  (removeDuplicates Samples.asciiLower Samples.codeUnitCompare Samples.production
     Samples.sensitive [Samples.john8; Samples.john9] UNSTRUCTURED).2
  = Ok [Samples.john8; Samples.john9].
Proof. vm_compute. reflexivity. Qed.

(** *** Entities of another shape, and shapes outside the enum *)

Lemma Forall2_right {A B} (P : A -> B -> Prop) (Q : B -> Prop) l k :
  Forall2 P l k -> (forall x y, P x y -> Q y) -> Forall Q k.
Proof.
  intros H HPQ. induction H; constructor; eauto.
Qed.

Lemma IsBest_elem candidates e : IsBest candidates e -> e ∈ candidates.
Proof.
  intros (earlier & later & -> & _). apply elem_of_app. right. left.
Qed.

Lemma mismatchWarning_test env kind entities matched :
  isTestEnv env = true -> mismatchWarning env kind entities matched = [].
Proof.
  intros H. unfold mismatchWarning. rewrite H, andb_false_r. reflexivity.
Qed.

Lemma dedupLoop_ext kx kx' entities : forall seen,
  Forall (fun e => kx' e = kx e) entities ->
  dedupLoop kx' entities seen = dedupLoop kx entities seen.
Proof.
  induction entities as [|e entities IH]; intros seen H; [reflexivity|].
  inversion H as [|e' l He Hrest]; subst. cbn. rewrite He.
  destruct (kx e); cbn; [apply IH, Hrest|reflexivity].
Qed.

Lemma deduplicateByKey_ext kx kx' entities :
  Forall (fun e => kx' e = kx e) entities ->
  deduplicateByKey kx' entities = deduplicateByKey kx entities.
Proof.
  intros H. unfold deduplicateByKey. rewrite (dedupLoop_ext kx kx') by exact H.
  reflexivity.
Qed.

(** C9. For every entity list, [removeDuplicates] with a shape of the enum
    does not throw; entities that do not match the shape take no part in the
    pass (the result is the one for the list without them, and every entity
    returned matches the shape and comes from the input); the only trace of
    a mismatch is a console warning, which is not printed under test.  With
    a shape outside the enum it returns the input list unchanged, and prints
    nothing. *)
Theorem removeDuplicates_mismatch_graceful toLowerCase localeCompare env config
    entities t :
  (inEnum t = true ->
     exists output,
       (removeDuplicates toLowerCase localeCompare env config entities t).2
         = Ok output /\
       (removeDuplicates toLowerCase localeCompare env config
          (List.filter (matchesShape t) entities) t).2 = Ok output /\
       Forall (fun e => matchesShape t e = true /\ e ∈ entities) output /\
       (isTestEnv env = true ->
          (removeDuplicates toLowerCase localeCompare env config entities t).1 = [])) /\
  (inEnum t = false ->
     removeDuplicates toLowerCase localeCompare env config entities t
       = ([], Ok entities)).
Proof.
  split.
  - intros Ht.
    destruct (removeDuplicates_recognized toLowerCase localeCompare env config
                entities t Ht) as (kx & Hrun & Hkeys).
    destruct (removeDuplicates_recognized toLowerCase localeCompare env config
                (List.filter (matchesShape t) entities) t Ht) as (kx' & Hrun' & Hkeys').
    destruct (deduplicateByKey_spec kx
                (identityKey toLowerCase localeCompare config t)
                (List.filter (matchesShape t) entities)) as (output & Hout & Hded).
    { eapply Forall_impl; [apply Forall_filter_true|]. intros e. cbn. apply Hkeys. }
    exists output. split; [rewrite Hrun; exact Hout|]. split; [|split].
    + rewrite Hrun', filter_idem, <- Hout.
      apply deduplicateByKey_ext.
      eapply Forall_impl; [apply Forall_filter_true|].
      intros e He. cbn in He. rewrite Hkeys, Hkeys' by exact He. reflexivity.
    + eapply Forall2_right; [exact Hded|].
      intros k e Hbest. apply IsBest_elem in Hbest.
      apply list_elem_of_In, filter_In in Hbest as [Hin _].
      apply filter_In in Hin as [Hin Hm].
      split; [exact Hm|apply list_elem_of_In, Hin].
    + intros Htest. apply inEnum_cases in Ht as [->|[->|[->| ->]]];
        unfold removeDuplicates.
      * change (streq UNSTRUCTURED UNSTRUCTURED) with true. cbn iota.
        apply mismatchWarning_test, Htest.
      * change (streq CSV UNSTRUCTURED) with false.
        change (streq CSV SPREADSHEET) with false.
        change (streq CSV JSON) with false.
        change (streq CSV CSV) with true. cbn iota.
        apply mismatchWarning_test, Htest.
      * change (streq JSON UNSTRUCTURED) with false.
        change (streq JSON SPREADSHEET) with false.
        change (streq JSON JSON) with true. cbn iota.
        apply mismatchWarning_test, Htest.
      * change (streq SPREADSHEET UNSTRUCTURED) with false.
        change (streq SPREADSHEET SPREADSHEET) with true. cbn iota.
        apply mismatchWarning_test, Htest.
  - unfold inEnum, removeDuplicates. rewrite !orb_false_iff.
    intros [[[-> ->] ->] ->]. reflexivity.
Qed.

(** The two fail-safe cases of the test suite. *)
Example removeDuplicates_mixed :
  removeDuplicates Samples.asciiLower Samples.codeUnitCompare (Some (str "test"))
    Samples.insensitive [Samples.john8; Samples.sheetAB; Samples.userEmail]
    UNSTRUCTURED
  = ([], Ok [Samples.john8]).
Proof. vm_compute. reflexivity. Qed.

Example removeDuplicates_unknown_shape :
  removeDuplicates Samples.asciiLower Samples.codeUnitCompare Samples.production
    Samples.insensitive [Samples.john8; Samples.john9] (str "UNKNOWN")
  = ([], Ok [Samples.john8; Samples.john9]).
Proof. vm_compute. reflexivity. Qed.

(** Outside the test environment, leaving entities out is reported on the
    console. *)
Example removeDuplicates_warns :
  (removeDuplicates Samples.asciiLower Samples.codeUnitCompare Samples.production
     Samples.insensitive [Samples.john8; Samples.sheetAB] UNSTRUCTURED).1
  = [str "Expected 2 unstructured entities, but only 1 matched the type"].
Proof. vm_compute. reflexivity. Qed.

(** *** Spreadsheet keys: the order of the ranges *)

Section Sorting.
Variable compare : jsstring -> jsstring -> Z.

Hypothesis compare_total : forall a b, before compare a b \/ before compare b a.
Hypothesis compare_trans :
  forall a b c, before compare a b -> before compare b c -> before compare a c.
Hypothesis compare_antisym :
  forall a b, before compare a b -> before compare b a -> a = b.

Lemma sortInsert_Permutation x sorted : sortInsert compare x sorted ≡ₚ x :: sorted.
Proof.
  induction sorted as [|y sorted IH]; cbn; [reflexivity|].
  destruct (compare x y <=? 0); [reflexivity|].
  rewrite IH. apply perm_swap.
Qed.

Lemma sort_Permutation xs : sort compare xs ≡ₚ xs.
Proof.
  induction xs as [|x xs IH]; cbn; [reflexivity|].
  rewrite sortInsert_Permutation, IH. reflexivity.
Qed.

Lemma sortInsert_Sorted x sorted :
  Sorted (before compare) sorted -> Sorted (before compare) (sortInsert compare x sorted).
Proof using compare_total.
  induction sorted as [|y sorted IH]; cbn; intros Hs.
  - repeat constructor.
  - destruct (Z.leb_spec (compare x y) 0) as [Hle|Hgt].
    + constructor; [exact Hs|]. constructor. exact Hle.
    + apply Sorted_inv in Hs as [Hs Hhd]. constructor; [apply IH, Hs|].
      assert (Hyx : before compare y x).
      { destruct (compare_total x y) as [H|H]; [unfold before in H; lia|exact H]. }
      destruct sorted as [|z sorted]; cbn.
      * constructor. exact Hyx.
      * destruct (compare x z <=? 0); constructor; [exact Hyx|].
        inversion Hhd; assumption.
Qed.

Lemma sort_Sorted xs : Sorted (before compare) (sort compare xs).
Proof using compare_total.
  induction xs as [|x xs IH]; cbn; [constructor|].
  apply sortInsert_Sorted, IH.
Qed.

(** The sorted list does not depend on the order of the input. *)
Lemma sort_order_irrelevant xs ys : xs ≡ₚ ys -> sort compare xs = sort compare ys.
Proof using compare_total compare_trans compare_antisym.
  intros Hp.
  apply (@Sorted_unique_strong _ (before compare) (fun a b c => compare_trans a b c)).
  - intros a b _ _. apply compare_antisym.
  - apply sort_Sorted.
  - apply sort_Sorted.
  - rewrite !sort_Permutation. exact Hp.
Qed.

(** The same when only the strings at hand are told apart by the
    comparison. *)
Lemma sort_order_irrelevant_among xs ys :
  (forall a b, a ∈ xs -> b ∈ xs ->
               before compare a b -> before compare b a -> a = b) ->
  xs ≡ₚ ys -> sort compare xs = sort compare ys.
Proof using compare_total compare_trans.
  intros Hamong Hp.
  apply (@Sorted_unique_strong _ (before compare) (fun a b c => compare_trans a b c)).
  - intros a b Ha Hb. apply Hamong.
    + rewrite sort_Permutation in Ha. exact Ha.
    + rewrite sort_Permutation, <- Hp in Hb. exact Hb.
  - apply sort_Sorted.
  - apply sort_Sorted.
  - rewrite !sort_Permutation. exact Hp.
Qed.

End Sorting.

(** The comparison by code units is a total order. *)
Lemma codeUnitCompare_total a : forall b,
  before Samples.codeUnitCompare a b \/ before Samples.codeUnitCompare b a.
Proof.
  unfold before. induction a as [|x a IH]; intros [|y b]; cbn; try lia.
  rewrite (N.compare_antisym x y).
  destruct (x ?= y)%N; cbn; try lia. apply IH.
Qed.

Lemma codeUnitCompare_antisym a : forall b,
  before Samples.codeUnitCompare a b -> before Samples.codeUnitCompare b a -> a = b.
Proof.
  unfold before. induction a as [|x a IH]; intros [|y b]; cbn; try lia; [reflexivity|].
  rewrite (N.compare_antisym x y).
  destruct (N.compare_spec x y) as [->|Hlt|Hgt]; cbn; try lia.
  intros H1 H2. f_equal. apply IH; assumption.
Qed.

Lemma codeUnitCompare_trans a : forall b c,
  before Samples.codeUnitCompare a b -> before Samples.codeUnitCompare b c ->
  before Samples.codeUnitCompare a c.
Proof.
  unfold before. induction a as [|x a IH]; intros [|y b] [|z c]; cbn; try lia.
  destruct (N.compare_spec x y) as [->|Hxy|Hxy]; try lia.
  - destruct (N.compare_spec y z) as [->|Hyz|Hyz]; try lia. apply IH.
  - destruct (N.compare_spec y z) as [->|Hyz|Hyz]; try lia.
    + intros _ _. destruct (N.compare_spec x z); lia.
    + intros _ _. destruct (N.compare_spec x z); lia.
Qed.

(** The comparison after [compose] is total and transitive, and takes the
    two spellings of the accented letter for equal. *)
Lemma canonicalCompare_total a b :
  before Collation.canonicalCompare a b \/ before Collation.canonicalCompare b a.
Proof. apply (codeUnitCompare_total (Collation.compose a) (Collation.compose b)). Qed.

Lemma canonicalCompare_trans a b c :
  before Collation.canonicalCompare a b -> before Collation.canonicalCompare b c ->
  before Collation.canonicalCompare a c.
Proof.
  apply (codeUnitCompare_trans (Collation.compose a) (Collation.compose b)
           (Collation.compose c)).
Qed.

(** C8 (as amended). Two spreadsheet entities on the same sheet whose range
    lists hold the same ranges in any order, no two different ranges of
    which compare equal, get the same identity key, from the key extractor
    of the code as from the key the specification describes, and
    [removeDuplicates] with SPREADSHEET returns one entity for the two: the
    second when its confidence is strictly higher, else the first, so that
    no confidence of the two is above the one kept.  The comparison of the
    engine is taken to be total and transitive. *)
Theorem spreadsheet_range_order_irrelevant toLowerCase localeCompare env config
    e1 e2 rs1 rs2 sheet :
  (forall a b, before localeCompare a b \/ before localeCompare b a) ->
  (forall a b c, before localeCompare a b -> before localeCompare b c ->
                 before localeCompare a c) ->
  (forall a b, a ∈ rs1 -> b ∈ rs1 ->
               before localeCompare a b -> before localeCompare b a -> a = b) ->
  ranges e1 = Some rs1 -> ranges e2 = Some rs2 ->
  sheetName e1 = Some sheet -> sheetName e2 = Some sheet ->
  rs1 ≡ₚ rs2 ->
  identityKey toLowerCase localeCompare config SPREADSHEET e1
    = identityKey toLowerCase localeCompare config SPREADSHEET e2 /\
  rangesKey localeCompare e1 = rangesKey localeCompare e2 /\
  exists kept,
    (removeDuplicates toLowerCase localeCompare env config [e1; e2] SPREADSHEET).2
      = Ok [kept] /\
    kept = (if Qltb (confidence e1) (confidence e2) then e2 else e1) /\
    (confidence e1 <= confidence kept)%Q /\
    (confidence e2 <= confidence kept)%Q.
Proof.
  intros Htotal Htrans Hamong Hr1 Hr2 Hs1 Hs2 Hperm.
  pose proof (sort_order_irrelevant_among localeCompare Htotal Htrans rs1 rs2
                Hamong Hperm) as Hsort.
  assert (Hkey : rangesKey localeCompare e1 = rangesKey localeCompare e2).
  { unfold rangesKey, normalizeRanges. rewrite Hr1, Hr2, Hs1, Hs2, Hsort. reflexivity. }
  split; [|split; [exact Hkey|]].
  - unfold identityKey.
    change (streq SPREADSHEET UNSTRUCTURED) with false.
    change (streq SPREADSHEET SPREADSHEET) with true. cbn iota.
    rewrite Hr1, Hr2, Hs1, Hs2. cbn [from_option]. unfold Datatypes.id.
    rewrite Hsort. reflexivity.
  - exists (if Qltb (confidence e1) (confidence e2) then e2 else e1).
    split; [|split; [reflexivity|]].
    + unfold removeDuplicates.
      change (streq SPREADSHEET UNSTRUCTURED) with false.
      change (streq SPREADSHEET SPREADSHEET) with true. cbn iota.
      cbn [snd List.filter]. unfold isSpreadsheetSensitiveEntity.
      rewrite Hr1, Hr2, Hs1, Hs2.
      rewrite !bool_decide_eq_true_2 by eauto. cbn [andb].
      unfold deduplicateByKey. cbn [dedupLoop]. rewrite <- Hkey.
      unfold rangesKey. rewrite Hr1. cbn [bind].
      unfold dedupStep. cbn [mapGet mapSet].
      rewrite decide_True by reflexivity.
      destruct (Qltb (confidence e1) (confidence e2)); cbn [mapSet].
      * rewrite decide_True by reflexivity. reflexivity.
      * reflexivity.
    + destruct (Qltb (confidence e1) (confidence e2)) eqn:E.
      * apply ValidatorFacts.Qltb_true in E. split; [apply Qlt_le_weak, E|apply Qle_refl].
      * apply ValidatorFacts.Qltb_false in E. split; [apply Qle_refl|exact E].
Qed.

Lemma spreadsheet_range_order_irrelevant_witness :
  identityKey Samples.asciiLower Collation.canonicalCompare Samples.insensitive
    SPREADSHEET Samples.sheetBA
    = identityKey Samples.asciiLower Collation.canonicalCompare Samples.insensitive
        SPREADSHEET Samples.sheetAB /\
  rangesKey Collation.canonicalCompare Samples.sheetBA
    = rangesKey Collation.canonicalCompare Samples.sheetAB /\
  exists kept,
    (removeDuplicates Samples.asciiLower Collation.canonicalCompare
       Samples.production Samples.insensitive
       [Samples.sheetBA; Samples.sheetAB] SPREADSHEET).2
      = Ok [kept] /\
    kept = (if Qltb (confidence Samples.sheetBA) (confidence Samples.sheetAB)
            then Samples.sheetAB else Samples.sheetBA) /\
    (confidence Samples.sheetBA <= confidence kept)%Q /\
    (confidence Samples.sheetAB <= confidence kept)%Q.
Proof.
  apply (spreadsheet_range_order_irrelevant Samples.asciiLower
           Collation.canonicalCompare Samples.production Samples.insensitive
           Samples.sheetBA Samples.sheetAB
           [str "B1:B5"; str "A1:A5"] [str "A1:A5"; str "B1:B5"] (str "Sheet1")).
  - intros a b. apply canonicalCompare_total.
  - intros a b c. apply canonicalCompare_trans.
  - intros a b Ha Hb Hab Hba.
    apply elem_of_cons in Ha as [->|Ha]; [|apply list_elem_of_singleton in Ha as ->];
      (apply elem_of_cons in Hb as [->|Hb]; [|apply list_elem_of_singleton in Hb as ->]);
      try reflexivity; exfalso; vm_compute in Hab, Hba;
      first [apply Hab; reflexivity|apply Hba; reflexivity].
  - reflexivity.
  - reflexivity.
  - reflexivity.
  - reflexivity.
  - apply perm_swap.
Defined.

(** C8 (as stated) fails: the engine's comparison takes some different
    strings for equal, the letter U+00E9 and its spelling with the combining
    accent for one.  The sort is stable, so two lists that hold these two
    ranges in the two orders stay as they are, the keys differ, and both
    entities are kept. *)
Lemma spreadsheet_equivalent_ranges_kept :
  (forall a b, before Collation.canonicalCompare a b
               \/ before Collation.canonicalCompare b a) /\
  (forall a b c, before Collation.canonicalCompare a b ->
                 before Collation.canonicalCompare b c ->
                 before Collation.canonicalCompare a c) /\
  Collation.canonicalCompare Collation.eAcute Collation.eCombining = 0 /\
  Collation.canonicalCompare Collation.eCombining Collation.eAcute = 0 /\
  sheetName Collation.accentFirst = sheetName Collation.accentLast /\
  default [] (ranges Collation.accentFirst)
    ≡ₚ default [] (ranges Collation.accentLast) /\
  rangesKey Collation.canonicalCompare Collation.accentFirst
    <> rangesKey Collation.canonicalCompare Collation.accentLast /\
  (removeDuplicates Samples.asciiLower Collation.canonicalCompare Samples.production
     Samples.insensitive [Collation.accentFirst; Collation.accentLast] SPREADSHEET).2
  = Ok [Collation.accentFirst; Collation.accentLast].
Proof.
  split; [exact canonicalCompare_total|]. split; [exact canonicalCompare_trans|].
  split; [reflexivity|]. split; [reflexivity|]. split; [reflexivity|].
  split; [apply perm_swap|]. split; [|vm_compute; reflexivity].
  vm_compute. discriminate.
Qed.

Example spreadsheet_collapse_sample :
  (removeDuplicates Samples.asciiLower Samples.codeUnitCompare Samples.production
     Samples.insensitive [Samples.sheetBA; Samples.sheetAB] SPREADSHEET).2
  = Ok [Samples.sheetAB].
Proof. vm_compute. reflexivity. Qed.

End DeduperFacts.

(** ** Workflow *)

Module WorkflowFacts.
Import Workflow.

(** *** Input validation *)

Lemma policyIssues_nil ps : forall index,
  policyIssues index ps = [] <->
  Forall (fun p => is_Some (Policy.id p) /\ is_Some (Policy.name p)) ps.
Proof.
  induction ps as [|p ps IH]; intros index; cbn.
  - split; [constructor|reflexivity].
  - destruct (Policy.id p) as [i|] eqn:Hi, (Policy.name p) as [n|] eqn:Hn; cbn.
    + rewrite IH. split.
      * intros H. constructor; [|exact H]. rewrite Hi, Hn. eauto.
      * intros H. inversion H; assumption.
    + split; [discriminate|]. intros H. inversion H as [|? ? [_ [? Hx]]]; subst.
      rewrite Hn in Hx. discriminate.
    + split; [discriminate|]. intros H. inversion H as [|? ? [[? Hx] _]]; subst.
      rewrite Hi in Hx. discriminate.
    + split; [discriminate|]. intros H. inversion H as [|? ? [[? Hx] _]]; subst.
      rewrite Hi in Hx. discriminate.
Qed.

Lemma issues_nil job : issues job = [] <-> ~ schemaInvalid job.
Proof.
  unfold issues, schemaInvalid. split.
  - intros H.
    apply app_eq_nil in H as [Hc H]. apply app_eq_nil in H as [He H].
    apply app_eq_nil in H as [Hp Hl].
    intros [Hbad|[Hbad|[Hbad|(p & Hin & Hbad)]]].
    + rewrite Hbad in Hc. discriminate.
    + rewrite Hbad in He. discriminate.
    + rewrite Hbad in Hl. discriminate.
    + apply policyIssues_nil in Hp. rewrite Forall_forall in Hp.
      destruct (Hp p Hin) as [[i Hi] [n Hn]].
      destruct Hbad; congruence.
  - intros Hok.
    assert (Hc : content job <> []) by tauto.
    assert (He : inEnum (Job.analysisType job) = true).
    { destruct (inEnum (Job.analysisType job)); [reflexivity|]. tauto. }
    assert (Hl : policies job <> []) by tauto.
    assert (Hp : Forall (fun p => is_Some (Policy.id p) /\ is_Some (Policy.name p))
                   (policies job)).
    { apply Forall_forall. intros p Hin.
      destruct (Policy.id p) eqn:Hi, (Policy.name p) eqn:Hn; eauto;
        exfalso; apply Hok; right; right; right; exists p; split; auto. }
    apply policyIssues_nil with (index := 0%nat) in Hp. rewrite Hp, He.
    destruct (content job) as [|c cs]; [contradiction|].
    destruct (policies job) as [|q qs]; [contradiction|].
    unfold len. cbn [length]. destruct (Z.ltb_spec (Z.of_nat (S (length cs))) 1); [lia|].
    reflexivity.
Qed.

Lemma schemaInvalid_dec job : schemaInvalid job \/ ~ schemaInvalid job.
Proof.
  unfold schemaInvalid.
  destruct (content job) as [|c cs]; [left; left; reflexivity|].
  destruct (inEnum (Job.analysisType job)); [|left; right; left; reflexivity].
  destruct (policies job) as [|q qs] eqn:Hps; [left; right; right; left; reflexivity|].
  rewrite <- Hps.
  destruct (decide (Forall (fun p => is_Some (Policy.id p) /\ is_Some (Policy.name p))
                      (policies job))) as [Hall|Hnot].
  - right. intros [H|[H|[H|(p & Hin & H)]]]; try discriminate; [congruence|].
    rewrite Forall_forall in Hall. destruct (Hall p Hin) as [[i Hi] [n Hn]].
    destruct H; congruence.
  - left. right. right. right.
    apply not_Forall_Exists in Hnot; [|intros p; apply _].
    apply Exists_exists in Hnot as (p & Hin & Hp).
    exists p. split; [exact Hin|]. cbn in Hp.
    destruct (Policy.id p); [|left; reflexivity].
    destruct (Policy.name p); [|right; reflexivity].
    exfalso. apply Hp. eauto.
Qed.

Lemma parse_rejects w job :
  schemaInvalid job -> exists m, TriggerSchema_parse w job = Throw m.
Proof.
  intros H. unfold TriggerSchema_parse.
  destruct (issues job) eqn:E; [|eauto].
  apply issues_nil in E. contradiction.
Qed.

Lemma parse_accepts w job :
  ~ schemaInvalid job -> TriggerSchema_parse w job = Ok job.
Proof.
  intros H. unfold TriggerSchema_parse. apply issues_nil in H. rewrite H. reflexivity.
Qed.

Lemma start_valid_work w job :
  ~ schemaInvalid job -> work (start w job) = [chunking].
Proof.
  intros H. unfold start. rewrite (parse_accepts w job H).
  destruct (createChunks w _ _); reflexivity.
Qed.

(** C3 (as amended). [Workflow.execute] fails the job before any chunking or
    chunk work exactly when [TriggerSchema] rejects it: the content is empty,
    the analysis type is outside the enum, the policy list is empty, or some
    policy has an id or a name that is not a string.  Nothing happens after
    such a failure, and for every other job (one whose policies have empty
    ids or names included) chunking is carried out. *)
Theorem execute_fails_fast w job :
  (schemaInvalid job <-> failedBeforeChunking (start w job)) /\
  (schemaInvalid job -> idle w job (start w job)) /\
  (~ schemaInvalid job -> work (start w job) = [chunking]).
Proof.
  split; [|split].
  - split.
    + intros H. destruct (parse_rejects w job H) as [m Hm].
      unfold start. rewrite Hm. unfold failedBeforeChunking. cbn. eauto.
    + intros [Hwork _]. destruct (schemaInvalid_dec job) as [H|H]; [exact H|].
      rewrite (start_valid_work w job H) in Hwork. discriminate.
  - intros H. destruct (parse_rejects w job H) as [m Hm].
    unfold start. rewrite Hm. intros [| i | |]; reflexivity.
  - apply start_valid_work.
Qed.

(** C3 (as stated) fails: a job whose only policy has an empty id and an
    empty name is invalid for the specification, and yet it is chunked. *)
Lemma execute_accepts_empty_policy_id :
  specInvalid Samples.namelessPolicyJob /\
  ~ failedBeforeChunking
      (start (Samples.world Samples.returns Samples.answers)
         Samples.namelessPolicyJob) /\
  work (start (Samples.world Samples.returns Samples.answers)
          Samples.namelessPolicyJob) = [chunking].
Proof.
  split; [|split].
  - right. right. right. eexists. split; [left|]. right. left. reflexivity.
  - intros [Hwork _]. vm_compute in Hwork. discriminate.
  - vm_compute. reflexivity.
Qed.

Example execute_rejects_empty_content :
  failedBeforeChunking
    (start (Samples.world Samples.returns Samples.answers) Samples.emptyJob).
Proof. unfold failedBeforeChunking. vm_compute. eauto. Qed.

(** *** Counting events *)

Lemma count_snoc f evs ev :
  count f (evs ++ [ev]) = (count f evs + if f ev then 1 else 0)%nat.
Proof.
  unfold count. rewrite List.filter_app, length_app. cbn.
  destruct (f ev); reflexivity.
Qed.

Lemma count_terminal evs :
  count isTerminal evs = (count isComplete evs + count isError evs)%nat.
Proof.
  unfold count. induction evs as [|ev evs IH]; [reflexivity|].
  cbn [List.filter]. unfold isTerminal in *.
  destruct ev; cbn [isComplete isError orb length]; lia.
Qed.

(** *** Tasks *)

Lemma resolved_lookup ts : forall outcomes i t,
  resolved ts = Some outcomes -> ts !! i = Some t ->
  exists validated, t = Settled (Ok validated).
Proof.
  induction ts as [|t0 ts IH]; intros outcomes i t Hres Hi; [discriminate|].
  cbn in Hres. destruct t0 as [| |[validated|m]]; try discriminate.
  destruct (resolved ts) as [rest|] eqn:E; [|discriminate].
  destruct i as [|i]; cbn in Hi.
  - injection Hi as <-. eauto.
  - eapply IH; eauto.
Qed.

Lemma resolved_None ts :
  resolved ts = None -> Forall (fun t => isSettled t = true) ts ->
  exists t, t ∈ ts /\ failed t.
Proof.
  induction ts as [|t0 ts IH]; [discriminate|].
  intros Hres Hall. inversion Hall as [|? ? Ht0 Hts]; subst.
  destruct t0 as [| |[validated|m]]; try discriminate.
  - cbn in Hres. destruct (resolved ts) eqn:E; [discriminate|].
    destruct (IH eq_refl Hts) as (t & Hin & Hf). exists t. split; [right; exact Hin|exact Hf].
  - exists (Settled (Throw m)). split; [left|]. exists m. reflexivity.
Qed.

Lemma firstQueued_Some ts i :
  firstQueued ts = Some i -> ts !! i = Some Queued.
Proof.
  revert i. induction ts as [|t ts IH]; intros i H; [discriminate|].
  cbn in H. destruct t; cbn in H; try (injection H as <-; reflexivity);
    destruct (firstQueued ts) as [j|]; try discriminate;
    injection H as <-; cbn; apply IH; reflexivity.
Qed.

Lemma firstQueued_None ts :
  firstQueued ts = None -> Forall (fun t => isQueued t = false) ts.
Proof.
  induction ts as [|t ts IH]; intros H; [constructor|].
  cbn in H. destruct (isQueued t) eqn:E; [discriminate|].
  constructor; [exact E|]. apply IH. destruct (firstQueued ts); [discriminate|reflexivity].
Qed.

Lemma elem_of_insert_inv {A} (l : list A) i x y :
  y ∈ <[i := x]> l -> y = x \/ y ∈ l.
Proof.
  intros H. apply list_elem_of_lookup in H as [j Hj].
  destruct (decide (i = j)) as [->|Hne].
  - destruct (decide (j < length l)%nat) as [Hlt|Hge].
    + rewrite list_lookup_insert_eq in Hj by exact Hlt. injection Hj as ->. left. reflexivity.
    + rewrite list_insert_ge in Hj by lia. right. eapply list_elem_of_lookup_2, Hj.
  - rewrite list_lookup_insert_ne in Hj by exact Hne.
    right. eapply list_elem_of_lookup_2, Hj.
Qed.

(** *** The invariant *)

Ltac simpl_state :=
  cbn [fail finished withCall withTask settle
       chunks tasks calls phase rejection identifiedCount validatedCount work].

Lemma Invariant_ext w s s' :
  chunks s' = chunks s -> tasks s' = tasks s -> calls s' = calls s ->
  rejection s' = rejection s -> phase s' = phase s ->
  Invariant w s -> Invariant w s'.
Proof.
  intros Hc Ht Hl Hr Hp [H1 H2 H3 H4].
  split; rewrite ?Hc, ?Ht, ?Hl, ?Hr, ?Hp; assumption.
Qed.

Lemma unsettled_not_resolved ts i t :
  ts !! i = Some t -> isSettled t = false -> is_Some (resolved ts) -> False.
Proof.
  intros Hi Ht [outcomes Hres].
  destruct (resolved_lookup ts outcomes i t Hres Hi) as [v ->]. discriminate.
Qed.

Lemma Invariant_withTask w s i t t' :
  tasks s !! i = Some t -> isSettled t = false -> isSettled t' = false ->
  Invariant w s -> Invariant w (withTask s i t').
Proof.
  intros Hi Ht Ht' [H1 H2 H3 H4]. split; cbn.
  - rewrite length_insert. exact H1.
  - exact H2.
  - intros Hp. destruct (H3 Hp) as [H|(_ & Hres & _)]; [left; exact H|].
    exfalso. eapply unsettled_not_resolved; eauto.
  - intros (y & Hin & Hf). apply H4.
    apply elem_of_insert_inv in Hin as [->|Hin]; [|eauto].
    destruct Hf as [m ->]. discriminate.
Qed.

Lemma Invariant_thinking w s chunkId es ts :
  Invariant w s -> Invariant w (withCall s (thinking chunkId es ts)).
Proof.
  intros [H1 H2 H3 H4].
  split; cbn [withCall chunks tasks calls phase rejection];
    rewrite ?count_snoc; cbn [isTerminal isComplete isError orb];
    rewrite ?Nat.add_0_r; assumption.
Qed.

Lemma Invariant_settle w s i t identified :
  tasks s !! i = Some t -> isSettled t = false ->
  Invariant w s -> Invariant w (settle s i identified).
Proof.
  intros Hi Ht [H1 H2 H3 H4]. destruct identified as [entities|m]; split; cbn.
  - rewrite length_insert. exact H1.
  - exact H2.
  - intros Hp. destruct (H3 Hp) as [H|(_ & Hres & _)]; [left; exact H|].
    exfalso. eapply unsettled_not_resolved; eauto.
  - intros (y & Hin & Hf). apply H4.
    apply elem_of_insert_inv in Hin as [->|Hin]; [|eauto].
    destruct Hf as [m Hm]. discriminate.
  - rewrite length_insert. exact H1.
  - exact H2.
  - intros Hp. destruct (H3 Hp) as [H|(_ & Hres & _)]; [left; exact H|].
    exfalso. eapply unsettled_not_resolved; eauto.
  - intros _. destruct (rejection s); eauto.
Qed.

Lemma Invariant_fail w s m :
  phase s = Awaiting -> Invariant w s -> Invariant w (fail s m).
Proof.
  intros Hp [H1 H2 H3 H4]. specialize (H2 Hp). rewrite count_terminal in H2.
  split; simpl_state.
  - exact H1.
  - discriminate.
  - intros _. left. rewrite !count_snoc. cbn [isComplete isError]. lia.
  - exact H4.
Qed.

Lemma perform_Invariant w job s a s' :
  perform w job s a = Some s' -> Invariant w s -> Invariant w s'.
Proof.
  intros Hstep Hinv. destruct a as [|i| |];
    cbn -[Nat.ltb concurrency settle withTask withCall fail finished] in Hstep.
  - (* startNext *)
    destruct (_ <? _)%nat; [|discriminate].
    destruct (firstQueued (tasks s)) as [i|] eqn:Hq; [|discriminate]. cbn in Hstep.
    destruct (chunks s !! i) as [chunk|]; [|discriminate]. cbn in Hstep.
    injection Hstep as <-.
    apply firstQueued_Some in Hq.
    eapply Invariant_ext;
      [| | | | |eapply (Invariant_withTask w s i Queued), Hinv; eauto]; reflexivity.
  - (* advance *)
    destruct (tasks s !! i) as [t|] eqn:Hi; [|discriminate].
    destruct t as [|stream final|]; try discriminate.
    destruct (chunks s !! i) as [chunk|];
      [|destruct stream as [|[[|]|]]; try destruct final; discriminate].
    destruct stream as [|[[|e es]|] rest].
    + destruct final as [entities|m]; injection Hstep as <-.
      * apply (Invariant_settle w s i (Running [] (Ok entities)) (Ok entities));
          auto.
      * apply (Invariant_settle w s i (Running [] (Throw m))
                 (recover (NODE_ENV w) m)); auto.
    + injection Hstep as <-. eapply Invariant_withTask; eauto.
    + destruct (onEvent w (calls s) _); injection Hstep as <-.
      * eapply Invariant_withTask; [exact Hi|reflexivity|reflexivity|].
        apply Invariant_thinking, Hinv.
      * eapply Invariant_settle; [exact Hi|reflexivity|].
        apply Invariant_thinking, Hinv.
    + injection Hstep as <-. eapply Invariant_withTask; eauto.
  - (* rejectAll *)
    destruct (phase s) eqn:Hp; [|discriminate].
    destruct (rejection s); [|discriminate].
    injection Hstep as <-. apply Invariant_fail; assumption.
  - (* resolveAll *)
    destruct (phase s) eqn:Hp; [|discriminate].
    destruct (resolved (tasks s)) as [validated|] eqn:Hres; [|discriminate].
    destruct (executeDeduplicationStep w _ _) as [finalEntities|m].
    + pose proof (inv_awaiting w s Hinv Hp) as Hzero.
      rewrite count_terminal in Hzero.
      destruct (onEvent w (calls s) _) as [|m] eqn:Hcall; injection Hstep as <-.
      * destruct Hinv as [H1 H2 H3 H4]. split; simpl_state.
        -- exact H1.
        -- discriminate.
        -- intros _. right. rewrite !count_snoc. cbn [isComplete isError].
           split; [lia|]. split; [rewrite Hres; eauto|]. left. lia.
        -- exact H4.
      * destruct Hinv as [H1 H2 H3 H4]. split; simpl_state.
        -- exact H1.
        -- discriminate.
        -- intros _. right. rewrite !count_snoc. cbn [isComplete isError].
           split; [lia|]. split; [rewrite Hres; eauto|]. right.
           split; [lia|]. eexists _, _, _. split; [|exact Hcall]. reflexivity.
        -- exact H4.
    + injection Hstep as <-. apply Invariant_fail; assumption.
Qed.

Lemma start_Invariant w job : Invariant w (start w job).
Proof.
  assert (Hfail : forall wk m,
    Invariant w (fail {| chunks := []; tasks := []; calls := []; rejection := None;
                         identifiedCount := 0; validatedCount := 0;
                         phase := Awaiting; work := wk |} m)).
  { intros wk m. apply Invariant_fail; [reflexivity|].
    split; cbn; try reflexivity; try discriminate.
    intros (t & Hin & _). inversion Hin. }
  unfold start. destruct (TriggerSchema_parse w job) as [validatedJob|m]; [|apply Hfail].
  destruct (createChunks w _ _) as [cs|m]; [|apply Hfail].
  split; cbn.
  - rewrite length_map. reflexivity.
  - reflexivity.
  - discriminate.
  - intros (t & Hin & [m Hm]). apply list_elem_of_In, in_map_iff in Hin as (c & Hc & _).
    congruence.
Qed.

Lemma reachable_Invariant w job s : reachable w job s -> Invariant w s.
Proof.
  unfold reachable. revert s.
  apply (rtc_ind_r (fun s => Invariant w s) (start w job)).
  - apply start_Invariant.
  - intros s s' _ [a Ha] IH. eapply perform_Invariant; eauto.
Qed.

(** *** Progress: a job stops only once it has finished *)

Lemma advance_enabled w job s i stream final :
  length (chunks s) = length (tasks s) ->
  tasks s !! i = Some (Running stream final) ->
  exists s', perform w job s (advance i) = Some s'.
Proof.
  intros Hlen Hi.
  destruct (lookup_lt_is_Some_2 (chunks s) i) as [chunk Hc].
  { rewrite Hlen. eapply lookup_lt_Some, Hi. }
  cbn [perform]. rewrite Hi, Hc.
  destruct stream as [|[[|e es]|] rest]; [destruct final| |destruct (onEvent w _ _)|];
    eauto.
Qed.

Lemma no_running_filter ts :
  Forall (fun t => isRunning t = false) ts -> List.filter isRunning ts = [].
Proof.
  induction 1 as [|t ts Ht _ IH]; [reflexivity|]. cbn. rewrite Ht. exact IH.
Qed.

Lemma idle_settled w job s :
  Invariant w s -> idle w job s ->
  phase s = Finished /\ Forall (fun t => isSettled t = true) (tasks s).
Proof.
  intros Hinv Hidle.
  assert (Hrun : Forall (fun t => isRunning t = false) (tasks s)).
  { apply Forall_lookup. intros i t Hi. destruct t as [|stream final|]; try reflexivity.
    destruct (advance_enabled w job s i stream final (inv_chunks w s Hinv) Hi)
      as [s' Hs']. rewrite Hidle in Hs'. discriminate. }
  assert (Hq : firstQueued (tasks s) = None).
  { destruct (firstQueued (tasks s)) as [i|] eqn:E; [|reflexivity]. exfalso.
    pose proof (Hidle startNext) as Hs. cbn [perform] in Hs.
    rewrite (no_running_filter _ Hrun), E in Hs. cbn in Hs.
    apply firstQueued_Some in E.
    destruct (lookup_lt_is_Some_2 (chunks s) i) as [chunk Hc].
    { rewrite (inv_chunks w s Hinv). eapply lookup_lt_Some, E. }
    rewrite Hc in Hs. discriminate. }
  assert (Hall : Forall (fun t => isSettled t = true) (tasks s)).
  { apply firstQueued_None in Hq. rewrite Forall_forall in *.
    intros t Ht. specialize (Hrun t Ht). specialize (Hq t Ht).
    destruct t; try discriminate. reflexivity. }
  split; [|exact Hall].
  destruct (phase s) eqn:Hp; [exfalso|reflexivity].
  destruct (resolved (tasks s)) as [validated|] eqn:Hres.
  - pose proof (Hidle resolveAll) as Hs. cbn [perform] in Hs. rewrite Hp, Hres in Hs.
    destruct (executeDeduplicationStep w _ _); [|discriminate].
    destruct (onEvent w _ _); discriminate.
  - destruct (inv_rejection w s Hinv (resolved_None _ Hres Hall)) as [reason Hr].
    pose proof (Hidle rejectAll) as Hs. cbn [perform] in Hs. rewrite Hp, Hr in Hs.
    discriminate.
Qed.

Lemma settled_no_queued ts :
  Forall (fun t => isSettled t = true) ts -> firstQueued ts = None.
Proof.
  induction 1 as [|t ts Ht _ IH]; [reflexivity|].
  cbn. destruct t; try discriminate. cbn. rewrite IH. reflexivity.
Qed.

Lemma settled_idle w job s :
  phase s = Finished -> Forall (fun t => isSettled t = true) (tasks s) ->
  idle w job s.
Proof.
  intros Hp Hall [|i| |]; cbn [perform].
  - rewrite (settled_no_queued _ Hall). destruct (_ <? _)%nat; reflexivity.
  - destruct (tasks s !! i) as [t|] eqn:Hi; [|reflexivity].
    rewrite Forall_lookup in Hall. specialize (Hall i t Hi).
    destruct t; try discriminate. reflexivity.
  - rewrite Hp. reflexivity.
  - rewrite Hp. reflexivity.
Qed.

(** *** Termination: every step uses up some of the weight *)

Lemma tasksWeight_insert w ts : forall i cs k t t' c,
  ts !! k = Some t -> cs !! k = Some c ->
  (taskWeight w (i + k) c t' < taskWeight w (i + k) c t)%nat ->
  (tasksWeight w i cs (<[k := t']> ts) < tasksWeight w i cs ts)%nat.
Proof.
  induction ts as [|t0 ts IH]; intros i cs k t t' c Ht Hc Hlt; [discriminate|].
  destruct cs as [|c0 cs]; [discriminate|].
  destruct k as [|k]; cbn in Ht, Hc |- *.
  - injection Ht as ->. injection Hc as ->.
    rewrite Nat.add_0_r in Hlt. lia.
  - specialize (IH (S i) cs k t t' c Ht Hc).
    replace (S i + k)%nat with (i + S k)%nat in IH by lia.
    specialize (IH Hlt). apply Nat.add_lt_mono_l. exact IH.
Qed.

Lemma perform_weight w job s a s' :
  length (chunks s) = length (tasks s) ->
  perform w job s a = Some s' -> (weight w s' < weight w s)%nat.
Proof.
  intros Hlen Hstep. unfold weight. destruct a as [|i| |];
    cbn -[Nat.ltb concurrency settle withTask withCall fail finished] in Hstep.
  - destruct (_ <? _)%nat; [|discriminate].
    destruct (firstQueued (tasks s)) as [i|] eqn:Hq; [|discriminate]. cbn in Hstep.
    destruct (chunks s !! i) as [chunk|] eqn:Hc; [|discriminate]. cbn in Hstep.
    injection Hstep as <-. cbn. apply firstQueued_Some in Hq.
    apply Nat.add_lt_mono_r.
    eapply tasksWeight_insert; [exact Hq|exact Hc|]. cbn. lia.
  - destruct (tasks s !! i) as [t|] eqn:Hi; [|discriminate].
    destruct t as [|stream final|]; try discriminate.
    destruct (chunks s !! i) as [chunk|] eqn:Hc;
      [|destruct stream as [|[[|]|]]; try destruct final; discriminate].
    assert (Hdrop : forall t',
      (taskWeight w (0 + i) chunk t' < taskWeight w (0 + i) chunk (Running stream final))%nat ->
      (tasksWeight w 0 (chunks s) (<[i := t']> (tasks s))
         + match phase s with Awaiting => 1 | Finished => 0 end
       < tasksWeight w 0 (chunks s) (tasks s)
         + match phase s with Awaiting => 1 | Finished => 0 end)%nat).
    { intros t' Hlt. apply Nat.add_lt_mono_r. eapply tasksWeight_insert; eauto. }
    destruct stream as [|[[|e es]|] rest].
    + destruct final as [entities|m]; injection Hstep as <-.
      * apply (Hdrop (Settled _)). cbn. lia.
      * destruct (recover (NODE_ENV w) m); apply (Hdrop (Settled _)); cbn; lia.
    + injection Hstep as <-. apply (Hdrop (Running rest final)). cbn. lia.
    + destruct (onEvent w (calls s) _); injection Hstep as <-.
      * apply (Hdrop (Running rest final)). cbn. lia.
      * destruct (recover (NODE_ENV w) message); apply (Hdrop (Settled _)); cbn; lia.
    + injection Hstep as <-. apply (Hdrop (Running rest final)). cbn. lia.
  - destruct (phase s) eqn:Hp; [|discriminate].
    destruct (rejection s); [|discriminate].
    injection Hstep as <-. cbn. lia.
  - destruct (phase s) eqn:Hp; [|discriminate].
    destruct (resolved (tasks s)); [|discriminate].
    destruct (executeDeduplicationStep w _ _).
    + destruct (onEvent w _ _); injection Hstep as <-; cbn; lia.
    + injection Hstep as <-. cbn. lia.
Qed.

Lemma nsteps_weight w job n : forall s s',
  Invariant w s -> nsteps (step w job) n s s' ->
  (n + weight w s' <= weight w s)%nat.
Proof.
  induction n as [|n IH]; intros s s' Hinv Hn.
  - inversion Hn; subst. lia.
  - inversion Hn as [|? ? y ? [a Ha] Hrest]; subst.
    pose proof (perform_weight w job s a y (inv_chunks w s Hinv) Ha).
    pose proof (perform_Invariant w job s a y Ha Hinv) as Hinv'.
    specialize (IH y s' Hinv' Hrest). lia.
Qed.

Lemma next_step w job s s' : next w job s = Some s' -> step w job s s'.
Proof.
  unfold next, step.
  destruct (perform w job s startNext) eqn:E1.
  - intros H. injection H as <-. eauto.
  - destruct (firstRunning (tasks s)); [eauto|].
    destruct (perform w job s rejectAll) eqn:E2; [|eauto].
    intros H. injection H as <-. eauto.
Qed.

Lemma run_reachable w job fuel : forall s,
  reachable w job s -> reachable w job (run fuel w job s).
Proof.
  induction fuel as [|fuel IH]; intros s Hs; [exact Hs|].
  cbn. destruct (next w job s) as [s'|] eqn:E; [|exact Hs].
  apply IH. eapply rtc_r; [exact Hs|]. apply next_step, E.
Qed.

(** *** Terminal events *)

(** C2 (as amended). Every run of a job comes to an end (the model answers
    each chunk with a finite stream), and it stops only when every chunk
    task has settled and [analyzeSensitiveContent] has finished.  If the
    callback returns normally whenever it is handed a [complete] event, it
    is handed at most one terminal event at any time, and exactly one once
    the job has come to a stop.  Whatever the callback does, as soon as one
    chunk task has failed no [complete] event is ever emitted, and once the
    job has come to a stop exactly one [error] event has been. *)
Theorem one_terminal_event w job s :
  reachable w job s ->
  terminates w job s /\
  (idle w job s <->
     phase s = Finished /\ Forall (fun t => isSettled t = true) (tasks s)) /\
  ((forall made ev, isComplete ev = true -> onEvent w made ev = Ok ()) ->
     (count isTerminal (calls s) <= 1)%nat /\
     (idle w job s -> count isTerminal (calls s) = 1%nat)) /\
  ((exists t, t ∈ tasks s /\ failed t) ->
     count isComplete (calls s) = 0%nat /\
     (count isError (calls s) <= 1)%nat /\
     (idle w job s -> count isError (calls s) = 1%nat)).
Proof.
  intros Hreach. pose proof (reachable_Invariant w job s Hreach) as Hinv.
  split; [|split; [|split]].
  - intros n s' Hn. pose proof (nsteps_weight w job n s s' Hinv Hn). lia.
  - split; [apply idle_settled, Hinv|]. intros [Hp Hall]. apply settled_idle; assumption.
  - intros Hsink.
    assert (Hfin : phase s = Finished -> count isTerminal (calls s) = 1%nat).
    { intros Hp. rewrite count_terminal.
      destruct (inv_finished w s Hinv Hp) as [[Hc He]|(Hc & _ & [He|[_ Hthrow]])];
        [lia|lia|].
      destruct Hthrow as (made & ev & m & Hev & Hcall).
      rewrite (Hsink made ev Hev) in Hcall. discriminate. }
    split.
    + destruct (phase s) eqn:Hp.
      * rewrite (inv_awaiting w s Hinv Hp). lia.
      * rewrite Hfin by reflexivity. lia.
    + intros Hidle. apply Hfin. apply (idle_settled w job s Hinv Hidle).
  - intros (t & Hin & Hfailed).
    assert (Hnot : ~ is_Some (resolved (tasks s))).
    { intros [outcomes Hres]. apply list_elem_of_lookup in Hin as [i Hi].
      destruct (resolved_lookup _ _ _ _ Hres Hi) as [v ->].
      destruct Hfailed as [m Hm]. discriminate. }
    destruct (phase s) eqn:Hp.
    + pose proof (inv_awaiting w s Hinv Hp) as Hzero.
      rewrite count_terminal in Hzero.
      split; [lia|]. split; [lia|].
      intros Hidle. destruct (idle_settled w job s Hinv Hidle) as [Hp' _]. congruence.
    + destruct (inv_finished w s Hinv Hp) as [[Hc He]|(_ & Hres & _)];
        [|contradiction].
      split; [exact Hc|]. split; [lia|]. intros _. exact He.
Qed.

Lemma one_terminal_event_witness :
  reachable Samples.failingWorld Samples.job Samples.failedRun /\
  (exists t, t ∈ tasks Samples.failedRun /\ failed t) /\
  idle Samples.failingWorld Samples.job Samples.failedRun /\
  count isComplete (calls Samples.failedRun) = 0%nat /\
  count isError (calls Samples.failedRun) = 1%nat /\
  count isTerminal (calls Samples.failedRun) = 1%nat.
Proof.
  assert (Hreach : reachable Samples.failingWorld Samples.job Samples.failedRun).
  { apply run_reachable, rtc_refl. }
  destruct (one_terminal_event Samples.failingWorld Samples.job Samples.failedRun
              Hreach) as (_ & Hidle & Hone & Hfailed).
  assert (Hstop : idle Samples.failingWorld Samples.job Samples.failedRun).
  { apply Hidle. split; [vm_compute; reflexivity|]. vm_compute. repeat constructor. }
  assert (Hsome : exists t, t ∈ tasks Samples.failedRun /\ failed t).
  { eexists. split; [vm_compute; right; left|]. eexists. reflexivity. }
  destruct (Hfailed Hsome) as (Hc & _ & He).
  destruct Hone as [_ Hexact]; [intros made ev _; reflexivity|].
  split; [exact Hreach|]. split; [exact Hsome|]. split; [exact Hstop|].
  split; [exact Hc|]. split; [exact (He Hstop)|exact (Hexact Hstop)].
Defined.

(** C2 (as stated) fails: when the callback throws on the [complete] event,
    the [catch] of [analyzeSensitiveContent] hands it an [error] event as
    well, and the job ends with both. *)
Lemma complete_then_error :
  ~ exactlyOneTerminal (Samples.world Samples.throwsOnComplete Samples.answers)
      Samples.job /\
  exists s,
    reachable (Samples.world Samples.throwsOnComplete Samples.answers) Samples.job s /\
    idle (Samples.world Samples.throwsOnComplete Samples.answers) Samples.job s /\
    count isComplete (calls s) = 1%nat /\
    count isError (calls s) = 1%nat.
Proof.
  assert (Hreach :
    reachable (Samples.world Samples.throwsOnComplete Samples.answers) Samples.job
      (run 20 (Samples.world Samples.throwsOnComplete Samples.answers) Samples.job
         (start (Samples.world Samples.throwsOnComplete Samples.answers)
            Samples.job))).
  { apply run_reachable, rtc_refl. }
  assert (Hidle :
    idle (Samples.world Samples.throwsOnComplete Samples.answers) Samples.job
      (run 20 (Samples.world Samples.throwsOnComplete Samples.answers) Samples.job
         (start (Samples.world Samples.throwsOnComplete Samples.answers)
            Samples.job))).
  { apply settled_idle; [vm_compute; reflexivity|].
    vm_compute. repeat constructor. }
  split.
  - intros Hone. specialize (Hone _ Hreach Hidle). vm_compute in Hone. discriminate.
  - eexists. split; [exact Hreach|]. split; [exact Hidle|].
    split; vm_compute; reflexivity.
Qed.

(** The two runs of the samples: one [complete] event with the statistics of
    the job, and one [error] event when the second chunk task fails. *)
Example job_completes :
  List.filter isTerminal
    (calls (run 20 (Samples.world Samples.returns Samples.answers) Samples.job
              (start (Samples.world Samples.returns Samples.answers) Samples.job)))
  = [complete [Samples.john9]
       {| chunksGenerated := 2; entitiesFound := 4; entitiesValidated := 2;
          entitiesDeduplicated := 1; processingTimeMs := 42 |}].
Proof. vm_compute. reflexivity. Qed.

Example job_fails_on_chunk :
  List.filter isTerminal
    (calls (run 20 (Samples.world Samples.returns Samples.failsOnSecond) Samples.job
              (start (Samples.world Samples.returns Samples.failsOnSecond)
                 Samples.job)))
  = [error (str "Sensitive analysis failed: Chunk 2 processing failed: Configuration error: Invalid OpenAI API key")].
Proof. vm_compute. reflexivity. Qed.

End WorkflowFacts.

(** ** Configuration getters *)

Module ConfigObjectFacts.
Import ConfigObject.

Section Tool.
Context {Config Call Reply : Type}.
Variable method : Call -> Config -> option Config * Reply.

Lemma Alike_create (config : Config) : Alike (create config) (create config).
Proof.
  split; cbn; try reflexivity; try lia.
  - constructor.
  - intros H. inversion H.
Qed.

(** Allocation of the same object on both sides. *)
Lemma Alike_alloc (m1 m2 : Machine Config) config this' handed' :
  Alike m1 m2 ->
  (this' < S (length (heap m1)))%nat ->
  this' ∉ handed' ->
  (handed' = handed m1 \/ handed' = handed m1 ++ [length (heap m1)]) ->
  Alike {| heap := heap m1 ++ [config]; this_config := this'; handed := handed' |}
        {| heap := heap m2 ++ [config]; this_config := this'; handed := handed' |}.
Proof.
  intros [Hlen Hthis Hhanded Hbound Hhb Hpriv Hheap] Hlt Hnot Hh.
  split; cbn.
  - rewrite !length_app, Hlen. reflexivity.
  - reflexivity.
  - reflexivity.
  - rewrite length_app. cbn. lia.
  - rewrite length_app. cbn.
    assert (Hold : Forall (fun ref => (ref < length (heap m1) + 1)%nat) (handed m1)).
    { eapply Forall_impl; [exact Hhb|]. intros ref Href. cbn in Href. lia. }
    destruct Hh as [->| ->]; [exact Hold|].
    apply Forall_app. split; [exact Hold|]. constructor; [lia|constructor].
  - exact Hnot.
  - intros ref Href.
    assert (Hout : ref ∉ handed m1).
    { destruct Hh as [->| ->]; [exact Href|].
      intros Hin. apply Href, elem_of_app. left. exact Hin. }
    destruct (decide (ref < length (heap m1))%nat) as [Hin|Hge].
    + rewrite !lookup_app_l by lia. apply Hheap, Hout.
    + rewrite !lookup_app_r by lia. rewrite Hlen. reflexivity.
Qed.

Lemma Alike_write (m1 m2 : Machine Config) ref write :
  Alike m1 m2 -> ref ∈ handed m1 ->
  Alike {| heap := alter write ref (heap m1); this_config := this_config m1;
           handed := handed m1 |} m2.
Proof.
  intros [Hlen Hthis Hhanded Hbound Hhb Hpriv Hheap] Hin.
  split; cbn; rewrite ?length_alter; try assumption.
  intros ref' Href'. rewrite list_lookup_alter_ne; [apply Hheap, Href'|].
  intros ->. contradiction.
Qed.

(** Writes to the objects handed out are not observed. *)
Lemma observe_alike ops : forall m1 m2 : Machine Config,
  Alike m1 m2 ->
  observe method m1 ops = observe method m2 (withoutWrites ops).
Proof.
  induction ops as [|op ops IH]; intros m1 m2 Hal; [reflexivity|].
  pose proof Hal as [Hlen Hthis Hhanded Hbound Hhb Hpriv Hheap].
  destruct op as [c| |k write]; cbn [withoutWrites List.filter isMutate negb observe exec].
  - rewrite <- Hthis, <- (Hheap _ Hpriv).
    destruct (lookup_lt_is_Some_2 (heap m1) (this_config m1) Hbound) as [config ->].
    destruct (method c config) as [[config'|] r].
    + f_equal. rewrite <- Hlen, <- Hhanded. apply IH.
      apply Alike_alloc; [exact Hal|lia| |left; reflexivity].
      intros Hin. rewrite Forall_forall in Hhb. specialize (Hhb _ Hin). lia.
    + f_equal. apply IH, Hal.
  - rewrite <- Hthis, <- (Hheap _ Hpriv).
    destruct (lookup_lt_is_Some_2 (heap m1) (this_config m1) Hbound) as [config ->].
    f_equal. rewrite <- Hhanded, <- Hlen. apply IH.
    apply Alike_alloc; [exact Hal|lia| |right; reflexivity].
    intros Hin. apply elem_of_app in Hin as [Hin|Hin]; [contradiction|].
    apply list_elem_of_singleton in Hin. lia.
  - destruct (handed m1 !! k) as [ref|] eqn:Hk.
    + apply IH. apply Alike_write; [exact Hal|].
      eapply list_elem_of_lookup_2, Hk.
    + apply IH, Hal.
Qed.

Lemma observe_create (config : Config) ops :
  observe method (create config) ops
  = observe method (create config) (withoutWrites ops).
Proof. apply observe_alike, Alike_create. Qed.

End Tool.

Import Tools.

(** C10. [ChunkerTool.getOptions], [ValidatorTool.getConfig] and
    [DeduperTool.getConfig] return a copy: in every sequence of calls of the
    tool's methods, of its getter, and of writes to the objects the getter
    has returned, each method call and each getter call gives what it gives
    in the same sequence without the writes. *)
Theorem getters_return_copies :
  (forall clock chunkByColumn chunkJson options ops,
     observe (chunkerMethod clock chunkByColumn chunkJson) (create options) ops
     = observe (chunkerMethod clock chunkByColumn chunkJson) (create options)
         (withoutWrites ops)) /\
  (forall config ops,
     observe validatorMethod (create config) ops
     = observe validatorMethod (create config) (withoutWrites ops)) /\
  (forall toLowerCase localeCompare config ops,
     observe (deduperMethod toLowerCase localeCompare) (create config) ops
     = observe (deduperMethod toLowerCase localeCompare) (create config)
         (withoutWrites ops)).
Proof.
  split; [|split]; intros; apply observe_create.
Qed.

(** The test of the suites: the options read after the write are the
    options read before it. *)
Example options_unchanged_by_write :
  observe (chunkerMethod Chunker.clock0 Chunker.noStrategy Chunker.noStrategy)
    (create testOptions) immutableOptionsTest
  = [returned testOptions; returned testOptions].
Proof. reflexivity. Qed.

End ConfigObjectFacts.

(** ** Chunker: layout, identifiers and reassembly *)

Module ReassemblyFacts.
Import Chunker Reassembly.

Lemma slice_take_drop (s : jsstring) a b :
  0 <= a -> a <= b -> b <= len s ->
  slice s a b = take (Z.to_nat (b - a)) (drop (Z.to_nat a) s).
Proof.
  intros Ha Hab Hb. unfold slice.
  destruct (Z.ltb_spec a 0); [lia|]. destruct (Z.ltb_spec b 0); [lia|].
  replace (Z.min a (len s)) with a by lia.
  replace (Z.min b (len s)) with b by lia. reflexivity.
Qed.

Lemma slice_to_end (s : jsstring) a :
  0 <= a -> a <= len s -> slice s a (len s) = drop (Z.to_nat a) s.
Proof.
  intros Ha Hb. rewrite slice_take_drop by lia.
  apply take_ge. rewrite length_drop. unfold len. lia.
Qed.

Lemma Windows_layout txt size step start ws :
  0 <= start -> 1 <= size -> 1 <= step ->
  Windows txt size step start ws ->
  forall (i : nat) c, ws !! i = Some c ->
    offset c = start + Z.of_nat i * step /\
    len (text c) = Z.min size (len txt - offset c).
Proof.
  intros H0 Hsize Hstep Hw.
  induction Hw as [start c Hlt Hend Hoff Htxt
                  |start c rest Hend Hoff Htxt Hw IH]; intros i c' Hi.
  - destruct i as [|i]; [|destruct i; discriminate].
    injection Hi as <-. rewrite Htxt, ChunkerFacts.len_slice by lia. lia.
  - destruct i as [|i]; cbn in Hi.
    + injection Hi as <-. rewrite Htxt, ChunkerFacts.len_slice by lia. lia.
    + destruct (IH ltac:(lia) i c' Hi) as [Ho Hl]. split; lia.
Qed.

Lemma Windows_reassemble txt size step start ws :
  0 <= start -> 1 <= step -> step <= size ->
  Windows txt size step start ws ->
  reassemble step ws = drop (Z.to_nat start) txt.
Proof.
  intros H0 Hstep Hle Hw.
  induction Hw as [start c Hlt Hend Hoff Htxt
                  |start c rest Hend Hoff Htxt Hw IH].
  - cbn. rewrite Htxt. apply slice_to_end; lia.
  - pose proof (ChunkerFacts.Windows_nonempty _ _ _ _ _ Hw) as Hne.
    destruct rest as [|c2 rest]; [cbn in Hne; lia|].
    cbn [reassemble]. cbn [reassemble] in IH. rewrite IH by lia.
    rewrite Htxt, slice_take_drop by lia.
    rewrite take_take.
    replace (Z.to_nat step `min` Z.to_nat (start + size - start))%nat
      with (Z.to_nat step) by lia.
    replace (Z.to_nat (start + step)) with (Z.to_nat start + Z.to_nat step)%nat by lia.
    rewrite <- drop_drop. apply take_drop.
Qed.

Section Ids.
Variable clock : nat -> Z.
Variables (txt : jsstring) (ty : AnalysisTypeEnum) (size step : Z).

(** The loop numbers the chunks it appends from the length of the list it
    starts with, and stamps each with the analysis type. *)
Lemma chunkLoop_ids (n : nat) : forall start chunks res,
  chunkLoop clock n txt ty size step start chunks = Some res ->
  exists new, res = chunks ++ new /\
    forall (j : nat) c, new !! j = Some c ->
      id c = generateChunkId clock (length chunks + j) /\ analysisType c = ty.
Proof.
  induction n as [|n IH]; intros start chunks res H; [discriminate|].
  cbn [chunkLoop] in H.
  destruct (start <? len txt).
  - destruct (len txt <=? Z.min (len txt) (start + size)).
    + injection H as <-. eexists. split; [reflexivity|].
      intros j c Hj. destruct j as [|j]; [|destruct j; discriminate].
      injection Hj as <-. cbn. rewrite Nat.add_0_r. split; reflexivity.
    + apply IH in H as (new & -> & Hnew).
      eexists. rewrite <- app_assoc. split; [reflexivity|].
      intros j c Hj. destruct j as [|j]; cbn in Hj.
      * injection Hj as <-. cbn. rewrite Nat.add_0_r. split; reflexivity.
      * destruct (Hnew j c Hj) as [Hid Hty]. rewrite length_app in Hid. cbn in Hid.
        split; [|exact Hty]. rewrite Hid.
        replace (length chunks + 1 + j)%nat with (length chunks + S j)%nat by lia.
        reflexivity.
  - injection H as <-. exists []. rewrite app_nil_r. split; [reflexivity|].
    intros j c Hj. destruct j; discriminate.
Qed.

End Ids.

(** Everything about the chunks [chunkUnstructured] returns. *)
Lemma chunkUnstructured_chunks clock o txt ty (k : nat) :
  exists chunks,
    chunkUnstructured clock (S (length txt) + k) o txt ty = Some chunks /\
    (forall (i : nat) c, chunks !! i = Some c ->
       id c = generateChunkId clock i /\ analysisType c = ty /\
       offset c = Z.of_nat i * stepOf o /\
       len (text c) = Z.min (clampSize o) (len txt - offset c)) /\
    reassemble (stepOf o) chunks = txt.
Proof.
  unfold chunkUnstructured. fold (stepOf o).
  pose proof (ChunkerFacts.clampSize_pos o) as Hsize.
  pose proof (ChunkerFacts.stepOf_pos o) as Hstep.
  pose proof (ChunkerFacts.stepOf_le_size o) as Hle.
  destruct (Z.eqb_spec (len txt) 0) as [Hz|Hnz].
  - eexists. split; [reflexivity|]. split.
    + intros i c Hi. destruct i as [|i]; [|destruct i; discriminate].
      injection Hi as <-. cbn. rewrite Hz. unfold len. cbn. repeat split; lia.
    + cbn. destruct txt; [reflexivity|]. unfold len in Hz. cbn in Hz. lia.
  - pose proof (ChunkerFacts.len_nonneg txt) as Hlen.
    destruct (ChunkerFacts.chunkLoop_fuel_enough clock txt ty (clampSize o)
                (stepOf o) Hstep (length txt) 0 []) as (res & Hres & _ & _).
    { unfold len. lia. }
    exists res. split; [apply ChunkerFacts.chunkLoop_mono, Hres|].
    destruct (chunkLoop_ids clock txt ty _ _ _ _ _ _ Hres) as (new' & Hnew' & Hids).
    apply ChunkerFacts.chunkLoop_windows in Hres; [|lia..].
    destruct Hres as (new & -> & Hw). cbn [app] in *. subst new'.
    split.
    + intros i c Hi. destruct (Hids i c Hi) as [Hid Hty].
      destruct (Windows_layout _ _ _ _ _ (Z.le_refl 0) Hsize Hstep Hw i c Hi) as [Ho Hl].
      repeat split; try assumption; lia.
    + rewrite (Windows_reassemble _ _ _ _ _ (Z.le_refl 0) Hstep Hle Hw). reflexivity.
Qed.

(** X1. The i-th chunk of unstructured content starts at [i * step], holds
    [min(size, L - offset)] characters (so never more than the clamped
    chunkSize), and carries the analysis type it was asked for. *)
Theorem unstructured_layout clock o txt ty (k : nat) :
  exists chunks,
    chunkUnstructured clock (S (length txt) + k) o txt ty = Some chunks /\
    forall (i : nat) c, chunks !! i = Some c ->
      offset c = Z.of_nat i * stepOf o /\
      len (text c) = Z.min (clampSize o) (len txt - offset c) /\
      len (text c) <= clampSize o /\
      analysisType c = ty.
Proof.
  destruct (chunkUnstructured_chunks clock o txt ty k) as (chunks & Hrun & Hall & _).
  exists chunks. split; [exact Hrun|].
  intros i c Hi. destruct (Hall i c Hi) as (_ & Hty & Ho & Hl).
  repeat split; try assumption. lia.
Qed.

(** X2. The content is recovered from its chunks: the first [step]
    characters of each chunk but the last, followed by the last chunk. *)
Theorem unstructured_reassemble clock o txt ty (k : nat) :
  exists chunks,
    chunkUnstructured clock (S (length txt) + k) o txt ty = Some chunks /\
    reassemble (stepOf o) chunks = txt.
Proof.
  destruct (chunkUnstructured_chunks clock o txt ty k) as (chunks & Hrun & _ & Hre).
  exists chunks. split; assumption.
Qed.

Example reassemble_alphabet :
  exists chunks,
    chunkUnstructured clock0 (S (length alphabet)) smallWindow alphabet UNSTRUCTURED
      = Some chunks /\
    List.map text chunks = [str "abc"; str "cde"; str "efg"; str "ghi"; str "ij"] /\
    reassemble (stepOf smallWindow) chunks = alphabet.
Proof. eexists. split; [vm_compute; reflexivity|]. split; vm_compute; reflexivity. Qed.

(** X3. Content that fits in one window gives one chunk: the content itself,
    at offset 0. *)
Theorem unstructured_short_content clock o txt ty (k : nat) :
  len txt <= clampSize o ->
  chunkUnstructured clock (S k) o txt ty
  = Some [ {| id := generateChunkId clock 0; text := txt; offset := 0;
              analysisType := ty |} ].
Proof.
  intros Hfit. unfold chunkUnstructured.
  destruct (Z.eqb_spec (len txt) 0) as [Hz|Hnz].
  - destruct txt; [reflexivity|]. unfold len in Hz. cbn in Hz. lia.
  - pose proof (ChunkerFacts.len_nonneg txt) as Hlen. cbn [chunkLoop].
    destruct (Z.ltb_spec 0 (len txt)); [|lia].
    destruct (Z.leb_spec (len txt) (Z.min (len txt) (0 + clampSize o))); [|lia].
    cbn. do 3 f_equal.
    replace (Z.min (len txt) (0 + clampSize o)) with (len txt) by lia.
    rewrite slice_to_end by lia. reflexivity.
Qed.

Lemma unstructured_short_content_witness :
  len hello <= clampSize Chunker.defaultOptions /\
  chunkUnstructured clock0 1 Chunker.defaultOptions hello UNSTRUCTURED
  = Some [ {| id := generateChunkId clock0 0; text := hello; offset := 0;
              analysisType := UNSTRUCTURED |} ].
Proof.
  split; [vm_compute; discriminate|].
  apply (unstructured_short_content clock0 Chunker.defaultOptions hello UNSTRUCTURED 0).
  vm_compute. discriminate.
Defined.

(** *** Chunk identifiers *)

Lemma decimal_uint d :
  Forall (fun c => isDecimalChar c = true)
         (Js.str (DecimalString.NilEmpty.string_of_uint d)).
Proof.
  induction d; cbn; try constructor; try reflexivity; assumption.
Qed.

Lemma decimal_ofZ z : Forall (fun c => isDecimalChar c = true) (Js.ofZ z).
Proof.
  unfold Js.ofZ. destruct (Z.to_int z) as [d|d]; cbn.
  - apply decimal_uint.
  - constructor; [reflexivity|apply decimal_uint].
Qed.

Lemma N_of_ascii_inj a b : N_of_ascii a = N_of_ascii b -> a = b.
Proof.
  intros H. rewrite <- (ascii_N_embedding a), <- (ascii_N_embedding b), H.
  reflexivity.
Qed.

Lemma str_inj s t : Js.str s = Js.str t -> s = t.
Proof.
  revert t. induction s as [|a s IH]; intros [|b t] H; try discriminate.
  - reflexivity.
  - unfold Js.str in H. cbn in H. injection H as Ha Hs.
    apply N_of_ascii_inj in Ha. subst b. f_equal. apply IH. exact Hs.
Qed.

Lemma ofZ_inj a b : Js.ofZ a = Js.ofZ b -> a = b.
Proof.
  unfold Js.ofZ. intros H. apply str_inj in H.
  assert (Hi : Z.to_int a = Z.to_int b).
  { pose proof (DecimalString.NilEmpty.isi (Z.to_int a)) as Ha.
    pose proof (DecimalString.NilEmpty.isi (Z.to_int b)) as Hb.
    rewrite H in Ha. rewrite Ha in Hb. injection Hb as ->. reflexivity. }
  rewrite <- (DecimalZ.of_to a), <- (DecimalZ.of_to b), Hi. reflexivity.
Qed.

(** Two texts cut at their last underscore agree on both sides of it. *)
Lemma split_at_last (u : N) : forall x y x' y' : jsstring,
  u ∉ y -> u ∉ y' -> x ++ u :: y = x' ++ u :: y' -> x = x' /\ y = y'.
Proof.
  induction x as [|a x IH]; intros y x' y' Hy Hy' H.
  - destruct x' as [|a' x']; cbn in H.
    + injection H as <-. split; reflexivity.
    + injection H as <- ->. exfalso. apply Hy.
      apply elem_of_app. right. apply elem_of_cons. left. reflexivity.
  - destruct x' as [|a' x']; cbn in H.
    + injection H as -> <-. exfalso. apply Hy'.
      apply elem_of_app. right. apply elem_of_cons. left. reflexivity.
    + injection H as <- H. destruct (IH _ _ _ Hy Hy' H) as [-> ->].
      split; reflexivity.
Qed.

Lemma decimal_no_underscore (s : jsstring) :
  Forall (fun c => isDecimalChar c = true) s -> underscore ∉ s.
Proof.
  intros H Hin. rewrite Forall_forall in H. apply H in Hin. discriminate.
Qed.

Lemma generateChunkId_inj clock (i j : nat) :
  generateChunkId clock i = generateChunkId clock j -> i = j.
Proof.
  unfold generateChunkId. intros H. apply app_inv_head in H.
  change (Js.str "_") with [underscore] in H. cbn [app] in H.
  apply split_at_last in H as [_ H];
    [|apply decimal_no_underscore, decimal_ofZ..].
  apply ofZ_inj in H. lia.
Qed.

(** X4. No two chunks of one call share an identifier, whatever the clock
    reads: the identifier ends in the chunk's index. *)
Theorem unstructured_ids_unique clock o txt ty (k : nat) :
  exists chunks,
    chunkUnstructured clock (S (length txt) + k) o txt ty = Some chunks /\
    NoDup (List.map id chunks).
Proof.
  destruct (chunkUnstructured_chunks clock o txt ty k) as (chunks & Hrun & Hall & _).
  exists chunks. split; [exact Hrun|].
  apply NoDup_alt. intros i j x Hi Hj.
  change (List.map id chunks) with (id <$> chunks) in *.
  rewrite list_lookup_fmap in Hi, Hj.
  destruct (chunks !! i) as [ci|] eqn:Ei; [|discriminate].
  destruct (chunks !! j) as [cj|] eqn:Ej; [|discriminate].
  cbn in Hi, Hj. injection Hi as Hi. injection Hj as Hj.
  destruct (Hall i ci Ei) as (Hidi & _). destruct (Hall j cj Ej) as (Hidj & _).
  apply (generateChunkId_inj clock). congruence.
Qed.

End ReassemblyFacts.

(** ** CSV: the shape of parsed tables, and tables written row by row *)

Module CsvTableFacts.
Import Csv Columns.

Lemma parseLoop_shape (n : nat) : forall content,
  (length content <= n)%nat ->
  forall q f row rows,
    Forall (fun r : list jsstring => r <> []) rows ->
    parseLoop content q f row rows <> [] /\
    Forall (fun r : list jsstring => r <> []) (parseLoop content q f row rows).
Proof.
  assert (Hsnoc : forall (row : list jsstring) f, row ++ [f] <> []).
  { intros row f H. apply (f_equal length) in H. rewrite length_app in H.
    cbn in H. lia. }
  assert (Hrows : forall rows (row : list jsstring) f,
            Forall (fun r : list jsstring => r <> []) rows ->
            Forall (fun r : list jsstring => r <> []) (rows ++ [row ++ [f]])).
  { intros rows row f H. apply Forall_app. split; [exact H|].
    constructor; [apply Hsnoc|constructor]. }
  induction n as [|n IH]; intros content Hn q f row rows Hall.
  - destruct content; [|cbn in Hn; lia]. cbn. split; [|apply Hrows, Hall].
    intros H. apply (f_equal length) in H. rewrite length_app in H. cbn in H. lia.
  - destruct content as [|ch rest].
    + cbn. split; [|apply Hrows, Hall].
      intros H. apply (f_equal length) in H. rewrite length_app in H. cbn in H. lia.
    + cbn in Hn. cbn [parseLoop].
      destruct rest as [|next rest'];
        repeat match goal with
               | |- context [if ?b then _ else _] => destruct b
               end;
        apply IH; cbn in *; auto; lia.
Qed.

(** X5. A parsed table always has a first row, and every row has at least
    one field: the [?? []] and [header.length === 0] guards of
    [chunkByColumn] never fire. *)
Theorem parseCsv_rows_nonempty (content : jsstring) :
  parseCsv content <> [] /\
  Forall (fun r : list jsstring => r <> []) (parseCsv content) /\
  exists header, parseCsv content !! 0%nat = Some header /\ (0 < length header)%nat.
Proof.
  destruct (parseLoop_shape (length content) content (le_n _) false [] [] [])
    as [Hne Hall]; [constructor|].
  fold (parseCsv content) in Hne, Hall.
  split; [exact Hne|]. split; [exact Hall|].
  destruct (parseCsv content) as [|header rest]; [contradiction|].
  exists header. split; [reflexivity|].
  inversion Hall as [|? ? Hh _]; subst. destruct header; [contradiction|cbn; lia].
Qed.

Lemma join_cons (sep x : jsstring) xs :
  xs <> [] -> join sep (x :: xs) = x ++ sep ++ join sep xs.
Proof. destruct xs; [contradiction|reflexivity]. Qed.

Lemma parseLoop_comma rest f row rows :
  parseLoop (comma :: rest) false f row rows
  = parseLoop rest false [] (row ++ [f]) rows.
Proof. reflexivity. Qed.

Lemma parseLoop_LF rest f row rows :
  parseLoop (LF :: rest) false f row rows
  = parseLoop rest false [] [] (rows ++ [row ++ [f]]).
Proof. destruct rest; reflexivity. Qed.

(** A serialized row followed by more content: its last field is still
    open when the rest is reached. *)
Lemma parseLoop_row_rest vs : forall v rest row rows,
  closes rest ->
  parseLoop (serializeCsvRow (vs ++ [v]) ++ rest) false [] row rows
  = parseLoop rest false v (row ++ vs) rows.
Proof.
  unfold serializeCsvRow.
  induction vs as [|v1 vs IH]; intros v rest row rows Hrest.
  - cbn [app List.map join]. rewrite CsvFacts.parseLoop_field by exact Hrest.
    rewrite app_nil_r. reflexivity.
  - cbn [app List.map]. rewrite join_cons.
    2:{ intros H. apply (f_equal length) in H.
        rewrite length_map, length_app in H. cbn in H. lia. }
    rewrite <- !app_assoc.
    rewrite CsvFacts.parseLoop_field by (cbn; discriminate).
    cbn [app]. rewrite parseLoop_comma, IH by exact Hrest.
    rewrite <- app_assoc. reflexivity.
Qed.

Lemma reparse_nonempty (row : list jsstring) : row <> [] -> reparse row = row.
Proof. destruct row; [contradiction|reflexivity]. Qed.

Lemma parseLoop_row_LF r rest rows :
  parseLoop (serializeCsvRow r ++ LF :: rest) false [] [] rows
  = parseLoop rest false [] [] (rows ++ [reparse r]).
Proof.
  destruct r as [|v vs _] using rev_ind.
  - cbn [serializeCsvRow List.map join app]. apply parseLoop_LF.
  - rewrite parseLoop_row_rest by (cbn; discriminate).
    rewrite parseLoop_LF. cbn [app]. rewrite reparse_nonempty; [reflexivity|].
    intros H. apply (f_equal length) in H. rewrite length_app in H. cbn in H. lia.
Qed.

Lemma parseLoop_row_end r rows :
  parseLoop (serializeCsvRow r) false [] [] rows = rows ++ [reparse r].
Proof.
  destruct r as [|v vs]; [reflexivity|].
  rewrite CsvFacts.parseLoop_row. reflexivity.
Qed.

(** Rows written one to a line are read back one by one. *)
Lemma parseLoop_table rs : forall r rows,
  parseLoop (join [LF] (List.map serializeCsvRow (r :: rs))) false [] [] rows
  = rows ++ List.map reparse (r :: rs).
Proof.
  induction rs as [|r2 rs IH]; intros r rows.
  - cbn [List.map join]. apply parseLoop_row_end.
  - change (List.map serializeCsvRow (r :: r2 :: rs))
      with (serializeCsvRow r :: List.map serializeCsvRow (r2 :: rs)).
    rewrite join_cons by discriminate. cbn [app].
    rewrite parseLoop_row_LF, IH. rewrite <- app_assoc. reflexivity.
Qed.

Lemma map_reparse_id rows :
  Forall (fun r : list jsstring => r <> []) rows -> List.map reparse rows = rows.
Proof.
  induction 1 as [|r rows Hr _ IH]; [reflexivity|].
  cbn [List.map]. rewrite IH, reparse_nonempty by exact Hr. reflexivity.
Qed.

(** *** Any line ending *)

Lemma serializeField_head v rest :
  headNotLF rest -> headNotLF (serializeField v ++ rest).
Proof.
  intros Hrest. unfold serializeField.
  destruct (includes (escapeQuotes v) comma || includes (escapeQuotes v) quote
            || includes (escapeQuotes v) CR || includes (escapeQuotes v) LF) eqn:E.
  - cbn. discriminate.
  - apply orb_false_iff in E as [_ Hlf]. apply CsvFacts.includes_false in Hlf.
    destruct (escapeQuotes v) as [|c cs]; [exact Hrest|].
    cbn. inversion Hlf; assumption.
Qed.

Lemma serializeCsvRow_head r rest :
  headNotLF rest -> headNotLF (serializeCsvRow r ++ rest).
Proof.
  intros Hrest. destruct r as [|v vs]; [exact Hrest|].
  unfold serializeCsvRow. cbn [List.map].
  destruct vs as [|v2 vs].
  - cbn [List.map join]. apply serializeField_head, Hrest.
  - rewrite join_cons by discriminate. rewrite <- !app_assoc.
    apply serializeField_head. cbn. discriminate.
Qed.

Lemma table_head sep r rs :
  lineEnding sep -> headNotLF (join sep (List.map serializeCsvRow (r :: rs))) \/ sep <> [CR].
Proof.
  intros Hsep. destruct (decide (sep = [CR])) as [->|Hne]; [left|right; exact Hne].
  destruct rs as [|r2 rs].
  - cbn [List.map join]. rewrite <- (app_nil_r (serializeCsvRow r)).
    apply serializeCsvRow_head. exact I.
  - change (List.map serializeCsvRow (r :: r2 :: rs))
      with (serializeCsvRow r :: List.map serializeCsvRow (r2 :: rs)).
    rewrite join_cons by discriminate.
    apply serializeCsvRow_head. cbn. discriminate.
Qed.

Lemma parseLoop_lineEnding sep rest f row rows :
  lineEnding sep -> headNotLF rest \/ sep <> [CR] ->
  parseLoop (sep ++ rest) false f row rows
  = parseLoop rest false [] [] (rows ++ [row ++ [f]]).
Proof.
  intros [->|[->| ->]] Hrest.
  - apply parseLoop_LF.
  - reflexivity.
  - destruct Hrest as [Hrest|Hne]; [|contradiction].
    destruct rest as [|next rest]; [reflexivity|].
    cbn in Hrest. cbn [app parseLoop].
    destruct (N.eqb_spec next LF) as [->|_]; [contradiction|reflexivity].
Qed.

Lemma parseLoop_row_lineEnding sep r rest rows :
  lineEnding sep -> headNotLF rest \/ sep <> [CR] ->
  parseLoop (serializeCsvRow r ++ sep ++ rest) false [] [] rows
  = parseLoop rest false [] [] (rows ++ [reparse r]).
Proof.
  intros Hsep Hrest.
  destruct r as [|v vs _] using rev_ind.
  - cbn [serializeCsvRow List.map join app].
    apply parseLoop_lineEnding; assumption.
  - rewrite parseLoop_row_rest.
    2:{ destruct Hsep as [->|[->| ->]]; cbn; discriminate. }
    rewrite parseLoop_lineEnding by assumption.
    cbn [app]. rewrite reparse_nonempty; [reflexivity|].
    intros H. apply (f_equal length) in H. rewrite length_app in H. cbn in H. lia.
Qed.

Lemma parseLoop_table_lineEnding sep rs : forall r rows,
  lineEnding sep ->
  parseLoop (join sep (List.map serializeCsvRow (r :: rs))) false [] [] rows
  = rows ++ List.map reparse (r :: rs).
Proof.
  induction rs as [|r2 rs IH]; intros r rows Hsep.
  - cbn [List.map join]. apply parseLoop_row_end.
  - change (List.map serializeCsvRow (r :: r2 :: rs))
      with (serializeCsvRow r :: List.map serializeCsvRow (r2 :: rs)).
    rewrite join_cons by discriminate.
    rewrite parseLoop_row_lineEnding by (try assumption; apply table_head, Hsep).
    rewrite IH by exact Hsep. rewrite <- app_assoc. reflexivity.
Qed.

(** X6. A table written with [serializeCsvRow], one row to a line, is read
    back by [parseCsv] row for row, whichever of the three line endings
    separates the rows; a row without fields comes back as one empty
    field. *)
Theorem csv_table_round_trip (sep : jsstring) (rows : list (list jsstring)) :
  lineEnding sep -> rows <> [] ->
  parseCsv (join sep (List.map serializeCsvRow rows)) = List.map reparse rows /\
  (Forall (fun r : list jsstring => r <> []) rows ->
   parseCsv (join sep (List.map serializeCsvRow rows)) = rows).
Proof.
  intros Hsep Hne. destruct rows as [|r rs]; [contradiction|].
  assert (H : parseCsv (join sep (List.map serializeCsvRow (r :: rs)))
              = List.map reparse (r :: rs)).
  { unfold parseCsv. rewrite parseLoop_table_lineEnding by exact Hsep. reflexivity. }
  split; [exact H|]. intros Hall. rewrite H. apply map_reparse_id, Hall.
Qed.

Lemma csv_table_round_trip_witness :
  parseCsv (join [CR; LF] (List.map serializeCsvRow [trickyRow; []; trickyRow]))
  = [trickyRow; [[]]; trickyRow].
Proof.
  apply (csv_table_round_trip [CR; LF] [trickyRow; []; trickyRow]).
  - right. left. reflexivity.
  - discriminate.
Defined.

End CsvTableFacts.

(** ** Chunker: chunking by column *)

Module ColumnFacts.
Import Chunker Csv Columns.

Lemma truncate_integral q a : (q == inject_Z a)%Q -> truncate q = a.
Proof.
  intros H. unfold truncate.
  destruct (Qle_bool 0 q); rewrite H; [apply Qfloor_Z|apply Qceiling_Z].
Qed.

Lemma chunkCount_lt (n : nat) k (j : nat) :
  1 <= k -> (j < chunkCount n k)%nat <-> Z.of_nat j * k < Z.of_nat n.
Proof.
  intros Hk. unfold chunkCount.
  assert (H0 : 0 <= (Z.of_nat n + k - 1) / k) by (apply Z.div_pos; lia).
  split; intros H.
  - assert (Hj : Z.of_nat j + 1 <= (Z.of_nat n + k - 1) / k) by lia.
    assert (k * (Z.of_nat j + 1) <= Z.of_nat n + k - 1).
    { etransitivity; [apply Z.mul_le_mono_nonneg_l; [lia|exact Hj]|].
      apply Z.mul_div_le. lia. }
    lia.
  - assert (Z.of_nat j + 1 <= (Z.of_nat n + k - 1) / k); [|lia].
    apply Z.div_le_lower_bound; lia.
Qed.

Section Loop.
Variable clock : nat -> Z.
Variables (parsedRows : list (list jsstring)) (header : list jsstring).
Variables (ty : AnalysisTypeEnum) (size : Q) (k : Z).
Hypothesis size_integral : (size == inject_Z k)%Q.

Lemma columnChunk_integral i (j : nat) chunks :
  (i == inject_Z (Z.of_nat j * k))%Q -> length chunks = j ->
  columnChunk clock parsedRows header ty size i chunks
  = columnChunkAt clock parsedRows header ty k j.
Proof using size_integral.
  intros Hi Hlen. unfold columnChunk, columnChunkAt, window.
  assert (Hnext : (i + size == inject_Z (Z.of_nat j * k + k))%Q).
  { rewrite Hi, size_integral, <- inject_Z_plus. reflexivity. }
  rewrite (truncate_integral _ _ Hi), (truncate_integral _ _ Hnext).
  rewrite Hlen, Hi, Qfloor_Z. reflexivity.
Qed.

Hypothesis size_pos : 1 <= k.

Lemma columnLoop_spec (d : nat) : forall (j0 fuel : nat) chunks i,
  (j0 + d = chunkCount (length header) k)%nat ->
  length chunks = j0 ->
  (i == inject_Z (Z.of_nat j0 * k))%Q ->
  (d < fuel)%nat ->
  columnLoop clock fuel parsedRows header ty size i chunks
  = Some (chunks ++ List.map (columnChunkAt clock parsedRows header ty k) (seq j0 d)).
Proof using size_integral size_pos.
  induction d as [|d IH]; intros j0 fuel chunks i Hm Hlen Hi Hfuel;
    (destruct fuel as [|fuel]; [lia|]); cbn [columnLoop].
  - destruct (Qltb i (inject_Z (Z.of_nat (length header)))) eqn:E.
    + apply ValidatorFacts.Qltb_true in E. rewrite Hi in E.
      rewrite <- Zlt_Qlt in E. apply chunkCount_lt in E; [lia|exact size_pos].
    + cbn. rewrite app_nil_r. reflexivity.
  - destruct (Qltb i (inject_Z (Z.of_nat (length header)))) eqn:E.
    + rewrite (columnChunk_integral i j0 chunks Hi Hlen).
      rewrite (IH (S j0)).
      * cbn [seq List.map]. rewrite <- app_assoc. reflexivity.
      * lia.
      * rewrite length_app. cbn. lia.
      * rewrite Hi, size_integral, <- inject_Z_plus.
        replace (Z.of_nat (S j0) * k) with (Z.of_nat j0 * k + k) by lia.
        reflexivity.
      * lia.
    + apply ValidatorFacts.Qltb_false in E. rewrite Hi in E.
      rewrite <- Zle_Qle in E.
      assert (Hlt : (j0 < chunkCount (length header) k)%nat) by lia.
      apply chunkCount_lt in Hlt; [lia|exact size_pos].
Qed.

End Loop.

(** *** Windows of columns *)

Lemma sliceArray_take_drop {A} (xs : list A) a b :
  0 <= a -> a <= b ->
  sliceArray xs a b = take (Z.to_nat (b - a)) (drop (Z.to_nat a) xs).
Proof.
  intros Ha Hab. unfold sliceArray.
  destruct (Z.ltb_spec a 0); [lia|]. destruct (Z.ltb_spec b 0); [lia|].
  destruct (Z.le_gt_cases b (Z.of_nat (length xs))) as [Hb|Hb].
  - replace (Z.min a (Z.of_nat (length xs))) with a by lia.
    replace (Z.min b (Z.of_nat (length xs))) with b by lia. reflexivity.
  - destruct (Z.le_gt_cases a (Z.of_nat (length xs))) as [Hn|Hn].
    + replace (Z.min a (Z.of_nat (length xs))) with a by lia.
      rewrite !take_ge; [reflexivity|rewrite length_drop; lia..].
    + rewrite (drop_ge xs (Z.to_nat a)) by lia.
      rewrite (drop_ge xs (Z.to_nat (Z.min a (Z.of_nat (length xs))))) by lia.
      rewrite !take_nil. reflexivity.
Qed.

Lemma window_take_drop k (j : nat) (row : list jsstring) :
  0 <= k -> window k j row = take (Z.to_nat k) (drop (j * Z.to_nat k) row).
Proof.
  intros Hk. unfold window. rewrite sliceArray_take_drop by lia.
  f_equal; [f_equal; lia|f_equal; nia].
Qed.

Lemma window_nonempty k (j : nat) (row : list jsstring) :
  1 <= k -> Z.of_nat j * k < Z.of_nat (length row) -> window k j row <> [].
Proof.
  intros Hk Hj. rewrite window_take_drop by lia.
  intros H. apply (f_equal length) in H.
  rewrite length_take, length_drop in H. cbn in H. nia.
Qed.

Lemma windows_concat k (xs : list jsstring) (d : nat) : forall j0 : nat,
  0 <= k -> (length xs <= (j0 + d) * Z.to_nat k)%nat ->
  concat (List.map (fun j => window k j xs) (seq j0 d))
  = drop (j0 * Z.to_nat k) xs.
Proof.
  induction d as [|d IH]; intros j0 Hk Hlen.
  - cbn. rewrite drop_ge; [reflexivity|lia].
  - cbn [seq List.map concat]. rewrite IH by (try assumption; lia).
    rewrite window_take_drop by exact Hk.
    replace (S j0 * Z.to_nat k)%nat with (j0 * Z.to_nat k + Z.to_nat k)%nat by lia.
    rewrite <- drop_drop. apply take_drop.
Qed.

Lemma chunkCount_covers (n : nat) k :
  1 <= k -> (n <= chunkCount n k * Z.to_nat k)%nat.
Proof.
  intros Hk.
  destruct (Z.lt_ge_cases (Z.of_nat (chunkCount n k) * k) (Z.of_nat n)) as [H|H].
  - apply chunkCount_lt in H; [lia|exact Hk].
  - nia.
Qed.

(** *** The whole function *)

Lemma parseCsv_header csv :
  exists rest, parseCsv csv = headerOf csv :: rest /\ headerOf csv <> [].
Proof.
  destruct (CsvTableFacts.parseLoop_shape (length csv) csv (le_n _) false [] [] [])
    as [Hne Hall]; [constructor|].
  fold (parseCsv csv) in Hne, Hall. unfold headerOf.
  destruct (parseCsv csv) as [|header rest]; [contradiction|].
  exists rest. split; [reflexivity|]. inversion Hall; assumption.
Qed.

Lemma not_blank_columns csv :
  forallb blank (headerOf csv) = false ->
  (length (headerOf csv) =? 0)%nat || forallb blank (headerOf csv) = false.
Proof.
  intros Hnb. rewrite Hnb, orb_false_r.
  destruct (headerOf csv); [discriminate|reflexivity].
Qed.

Lemma chunkByColumn_run clock o csv ty k (extra : nat) :
  (columnChunkSize o == inject_Z k)%Q -> 1 <= k ->
  forallb blank (headerOf csv) = false ->
  chunkByColumn clock (S (chunkCount (length (headerOf csv)) k) + extra) o csv ty
  = Some (List.map (columnChunkAt clock (parseCsv csv) (headerOf csv) ty k)
                   (seq 0 (chunkCount (length (headerOf csv)) k))).
Proof.
  intros Hsize Hk Hnb. unfold chunkByColumn. fold (headerOf csv).
  rewrite (not_blank_columns csv Hnb).
  rewrite (columnLoop_spec clock (parseCsv csv) (headerOf csv) ty
             (columnChunkSize o) k Hsize Hk
             (chunkCount (length (headerOf csv)) k) 0%nat);
    [reflexivity|reflexivity|reflexivity|reflexivity|lia].
Qed.

Lemma columnChunkAt_parse clock csv ty k (j : nat) :
  parseCsv (text (columnChunkAt clock (parseCsv csv) (headerOf csv) ty k j))
  = List.map (fun row => reparse (window k j row)) (parseCsv csv).
Proof.
  destruct (parseCsv_header csv) as (rest & Hrows & _).
  rewrite Hrows. cbn [columnChunkAt text List.map].
  change (drop 1 (headerOf csv :: rest)) with rest.
  rewrite <- (List.map_map (window k j) serializeCsvRow).
  change (serializeCsvRow (window k j (headerOf csv))
          :: List.map serializeCsvRow (List.map (window k j) rest))
    with (List.map serializeCsvRow (window k j (headerOf csv)
                                    :: List.map (window k j) rest)).
  unfold parseCsv at 1. rewrite CsvTableFacts.parseLoop_table.
  cbn [app List.map]. rewrite List.map_map. reflexivity.
Qed.

(** X7. With an integer [columnChunkSize] of [k >= 1] and a header that is
    not blank, [chunkByColumn] returns [ceil(columns / k)] chunks; the j-th
    has column offset [j * k], and read as CSV it is the table cut down to
    the columns [j*k .. j*k + k), row for row. *)
Theorem chunkByColumn_layout clock o csv ty k (extra : nat) :
  (columnChunkSize o == inject_Z k)%Q -> 1 <= k ->
  forallb blank (headerOf csv) = false ->
  exists chunks,
    chunkByColumn clock (S (chunkCount (length (headerOf csv)) k) + extra) o csv ty
    = Some chunks /\
    length chunks = chunkCount (length (headerOf csv)) k /\
    forall (j : nat) c, chunks !! j = Some c ->
      id c = generateChunkId clock j /\
      offset c = Z.of_nat j * k /\
      analysisType c = ty /\
      parseCsv (text c)
      = List.map (fun row => reparse (window k j row)) (parseCsv csv).
Proof.
  intros Hsize Hk Hnb. eexists. split; [apply chunkByColumn_run; assumption|].
  split; [rewrite length_map, length_seq; reflexivity|].
  intros j c Hj.
  change (List.map ?f ?l) with (f <$> l) in Hj.
  rewrite list_lookup_fmap in Hj.
  destruct (seq 0 _ !! j) as [j'|] eqn:E; [|discriminate].
  apply lookup_seq in E as [-> _]. cbn in Hj. injection Hj as <-.
  repeat split. apply columnChunkAt_parse.
Qed.

Lemma chunkByColumn_layout_witness :
  exists chunks,
    chunkByColumn clock0 (S (chunkCount (length (headerOf people)) 2)) twoColumns
      people CSV = Some chunks /\
    length chunks = 3%nat.
Proof.
  destruct (chunkByColumn_layout clock0 twoColumns people CSV 2 0)
    as (chunks & Hrun & Hlen & _);
    [reflexivity|lia|vm_compute; reflexivity|].
  exists chunks. rewrite Nat.add_0_r in Hrun. split; [exact Hrun|exact Hlen].
Defined.

(** X8. Every column of the header lands in exactly one chunk: the headers
    of the chunks, one after the other, are the header of the table. *)
Theorem chunkByColumn_header_partition clock o csv ty k (extra : nat) :
  (columnChunkSize o == inject_Z k)%Q -> 1 <= k ->
  forallb blank (headerOf csv) = false ->
  exists chunks,
    chunkByColumn clock (S (chunkCount (length (headerOf csv)) k) + extra) o csv ty
    = Some chunks /\
    concat (List.map (fun c => headerOf (text c)) chunks) = headerOf csv.
Proof.
  intros Hsize Hk Hnb. eexists. split; [apply chunkByColumn_run; assumption|].
  rewrite List.map_map.
  rewrite (List.map_ext_in _ (fun j => window k j (headerOf csv))).
  - rewrite windows_concat; [reflexivity|lia|].
    cbn [Nat.add]. apply chunkCount_covers, Hk.
  - intros j Hj. apply in_seq in Hj as [_ Hj]. cbn [Nat.add] in Hj.
    apply chunkCount_lt in Hj; [|exact Hk].
    unfold headerOf at 1. rewrite columnChunkAt_parse.
    destruct (parseCsv_header csv) as (rest & -> & _). cbn.
    apply CsvTableFacts.reparse_nonempty, window_nonempty; assumption.
Qed.

Lemma chunkByColumn_header_partition_witness :
  exists chunks,
    chunkByColumn clock0 (S (chunkCount (length (headerOf people)) 2)) twoColumns
      people CSV = Some chunks /\
    concat (List.map (fun c => headerOf (text c)) chunks)
    = [str "name"; str "email"; str "city"; str "zip"; str "phone"].
Proof.
  destruct (chunkByColumn_header_partition clock0 twoColumns people CSV 2 0)
    as (chunks & Hrun & Hcat);
    [reflexivity|lia|vm_compute; reflexivity|].
  exists chunks. rewrite Nat.add_0_r in Hrun. split; [exact Hrun|exact Hcat].
Defined.

Lemma columnLoop_stuck clock parsedRows header ty size (fuel : nat) :
  forall i chunks,
    (size <= 0)%Q -> (i <= 0)%Q -> header <> [] ->
    columnLoop clock fuel parsedRows header ty size i chunks = None.
Proof.
  induction fuel as [|fuel IH]; intros i chunks Hsize Hi Hne; [reflexivity|].
  cbn [columnLoop].
  destruct (Qltb i (inject_Z (Z.of_nat (length header)))) eqn:E.
  - apply IH; [exact Hsize| |exact Hne].
    rewrite <- (Qplus_0_r 0). apply Qplus_le_compat; assumption.
  - apply ValidatorFacts.Qltb_false in E. exfalso.
    assert (H0 : (inject_Z (Z.of_nat (length header)) <= inject_Z 0)%Q).
    { eapply Qle_trans; [exact E|exact Hi]. }
    rewrite <- Zle_Qle in H0. destruct header; [contradiction|cbn in H0; lia].
Qed.

(** X9. With a [columnChunkSize] of zero or less and a header that is not
    blank, the loop of [chunkByColumn] never ends: the column index never
    reaches the number of columns, whatever the fuel. *)
Theorem chunkByColumn_never_returns clock o csv ty :
  (columnChunkSize o <= 0)%Q ->
  forallb blank (headerOf csv) = false ->
  forall fuel, chunkByColumn clock fuel o csv ty = None.
Proof.
  intros Hsize Hnb fuel. unfold chunkByColumn. fold (headerOf csv).
  rewrite (not_blank_columns csv Hnb).
  apply columnLoop_stuck; [exact Hsize|apply Qle_refl|].
  destruct (headerOf csv); discriminate.
Qed.

Lemma chunkByColumn_never_returns_witness :
  chunkByColumn clock0 1000 noColumns people CSV = None.
Proof.
  apply (chunkByColumn_never_returns clock0 noColumns people CSV).
  - apply Qle_refl.
  - vm_compute. reflexivity.
Defined.

Example chunkByColumn_people :
  List.map (fun c => (offset c, text c))
    (default [] (chunkByColumn clock0 4 twoColumns people CSV))
  = [ (0, str "name,email" ++ [LF] ++
          str "Ann," ++ [quote] ++ str "a,b@x.org" ++ [quote]);
      (2, str "city,zip" ++ [LF] ++ str "Oslo,0150");
      (4, str "phone" ++ [LF] ++ str "555") ].
Proof. vm_compute. reflexivity. Qed.

End ColumnFacts.

(** ** Chunker: the entry point *)

Module CreateChunksFacts.
Import Chunker Csv Columns.

(** X10. For a type that is not the name of a property of
    [Object.prototype], [createChunks] throws exactly when the type is
    outside the enumeration, and then with the message naming the type; no
    strategy can make it throw for a type of the enumeration. *)
Theorem createChunks_throws_iff clock byColumn json fuel o t content :
  inherited t = false ->
  (inEnum t = false <->
   exists m, createChunks clock byColumn json fuel o t content = Some (Throw m)) /\
  (inEnum t = false ->
   createChunks clock byColumn json fuel o t content
   = Some (Throw (str "Unsupported analysis type: " ++ t))).
Proof.
  intros _. unfold createChunks, getChunkingStrategy, inEnum.
  destruct (streq t UNSTRUCTURED), (streq t CSV), (streq t JSON),
           (streq t SPREADSHEET); cbn [orb];
    (split; [split|]);
    try (intros H; discriminate H);
    try (intros _; eexists; reflexivity);
    try (intros _; reflexivity);
    intros [m Hm]; exfalso;
    match type of Hm with
    | Ok <$> ?x = _ => destruct x; cbn in Hm; discriminate
    end.
Qed.

Lemma createChunks_throws_iff_witness :
  createChunks clock0 noStrategy noStrategy 1 smallWindow (str "UNSUPPORTED") hello
  = Some (Throw (str "Unsupported analysis type: UNSUPPORTED")).
Proof.
  apply (createChunks_throws_iff clock0 noStrategy noStrategy 1 smallWindow
           (str "UNSUPPORTED") hello).
  - vm_compute. reflexivity.
  - vm_compute. reflexivity.
Defined.

Lemma unstructured_nonempty_typed clock o txt ty (k : nat) :
  exists chunks,
    chunkUnstructured clock (S (length txt) + k) o txt ty = Some chunks /\
    chunks <> [] /\
    Forall (fun c => analysisType c = ty) chunks.
Proof.
  destruct (ReassemblyFacts.chunkUnstructured_chunks clock o txt ty k)
    as (chunks & Hrun & Hall & _).
  destruct (ChunkerFacts.chunkUnstructured_spec clock o txt ty k)
    as (chunks' & Hrun' & Hlen & _).
  rewrite Hrun in Hrun'. injection Hrun' as <-.
  exists chunks. split; [exact Hrun|]. split.
  - destruct chunks; [cbn in Hlen; lia|discriminate].
  - apply Forall_lookup. intros i c Hi. apply (Hall i c Hi).
Qed.

Lemma byColumn_nonempty_typed clock o csv ty k (extra : nat) :
  (columnChunkSize o == inject_Z k)%Q -> 1 <= k ->
  exists chunks,
    chunkByColumn clock (enoughFuel csv k + extra) o csv ty = Some chunks /\
    chunks <> [] /\
    Forall (fun c => analysisType c = ty) chunks.
Proof.
  intros Hsize Hk. unfold enoughFuel.
  destruct (forallb blank (headerOf csv)) eqn:Hb.
  - unfold chunkByColumn. fold (headerOf csv). rewrite Hb, orb_true_r.
    rewrite <- Nat.add_assoc. apply unstructured_nonempty_typed.
  - replace (S (length csv) + S (chunkCount (length (headerOf csv)) k) + extra)%nat
      with (S (chunkCount (length (headerOf csv)) k) + (S (length csv) + extra))%nat
      by lia.
    eexists. split; [apply ColumnFacts.chunkByColumn_run; assumption|]. split.
    + assert (Hpos : (0 < chunkCount (length (headerOf csv)) k)%nat).
      { apply ColumnFacts.chunkCount_lt; [exact Hk|].
        destruct (ColumnFacts.parseCsv_header csv) as (_ & _ & Hne).
        destruct (headerOf csv); [contradiction|cbn; lia]. }
      destruct (chunkCount (length (headerOf csv)) k); [lia|discriminate].
    + apply List.Forall_forall. intros c Hc.
      apply in_map_iff in Hc as (j & <- & _). reflexivity.
Qed.

(** X11. For unstructured, CSV and spreadsheet content, and an integer
    [columnChunkSize] of at least one, [createChunks] returns at least one
    chunk, and every chunk carries the analysis type that was asked for. *)
Theorem createChunks_nonempty clock json o t content k (extra : nat) :
  inEnum t = true -> t <> JSON ->
  (columnChunkSize o == inject_Z k)%Q -> 1 <= k ->
  exists chunks,
    createChunks clock (chunkByColumn clock (enoughFuel content k + extra)) json
      (enoughFuel content k + extra) o t content = Some (Ok chunks) /\
    chunks <> [] /\
    Forall (fun c => analysisType c = t) chunks.
Proof.
  intros Ht Hjson Hsize Hk. unfold createChunks.
  destruct (DeduperFacts.inEnum_cases t Ht) as [-> | [-> | [-> | ->]]];
    [| |contradiction|].
  - change (getChunkingStrategy UNSTRUCTURED) with (Ok chunkUnstructuredS).
    unfold enoughFuel. rewrite <- Nat.add_assoc.
    destruct (unstructured_nonempty_typed clock o content UNSTRUCTURED
                (S (chunkCount (length (headerOf content)) k) + extra))
      as (chunks & -> & Hne & Hall).
    exists chunks. repeat split; assumption.
  - change (getChunkingStrategy CSV) with (Ok chunkByColumnS).
    destruct (byColumn_nonempty_typed clock o content CSV k extra Hsize Hk)
      as (chunks & -> & Hne & Hall).
    exists chunks. repeat split; assumption.
  - change (getChunkingStrategy SPREADSHEET) with (Ok chunkByColumnS).
    destruct (byColumn_nonempty_typed clock o content SPREADSHEET k extra Hsize Hk)
      as (chunks & -> & Hne & Hall).
    exists chunks. repeat split; assumption.
Qed.

Lemma createChunks_nonempty_witness :
  exists chunks,
    createChunks clock0 (chunkByColumn clock0 (enoughFuel people 2)) noStrategy
      (enoughFuel people 2) twoColumns SPREADSHEET people = Some (Ok chunks) /\
    chunks <> [] /\
    Forall (fun c => analysisType c = SPREADSHEET) chunks.
Proof.
  destruct (createChunks_nonempty clock0 noStrategy twoColumns SPREADSHEET people 2 0)
    as (chunks & Hrun & Hne & Hall);
    [reflexivity|discriminate|reflexivity|lia|].
  rewrite Nat.add_0_r in Hrun. exists chunks. repeat split; assumption.
Defined.

End CreateChunksFacts.

(** ** Validator: statistics and stricter configurations *)

Module ValidatorStatsFacts.
Import Validator ValidatorStats.

Lemma inject_Z_pos (b : Z) : 0 < b -> (0 < inject_Z b)%Q.
Proof. intros H. change 0%Q with (inject_Z 0). rewrite <- Zlt_Qlt. exact H. Qed.

Lemma inject_Z_nonneg (a : Z) : 0 <= a -> (0 <= inject_Z a)%Q.
Proof. intros H. change 0%Q with (inject_Z 0). rewrite <- Zle_Qle. exact H. Qed.

Lemma ratio_bounds (a b : Z) :
  0 <= a -> a <= b -> 0 < b ->
  (0 <= inject_Z a / inject_Z b)%Q /\ (inject_Z a / inject_Z b <= 1)%Q.
Proof.
  intros Ha Hab Hb. pose proof (inject_Z_pos b Hb) as Hb'.
  split.
  - apply Qle_shift_div_l; [exact Hb'|]. rewrite Qmult_0_l.
    apply inject_Z_nonneg, Ha.
  - apply Qle_shift_div_r; [exact Hb'|]. rewrite Qmult_1_l.
    rewrite <- Zle_Qle. exact Hab.
Qed.

Lemma filter_split {A} (g : A -> bool) l :
  (length (List.filter g l) + length (List.filter (fun x => negb (g x)) l)
   = length l)%nat.
Proof.
  induction l as [|x l IH]; [reflexivity|]. cbn.
  destruct (g x); cbn; lia.
Qed.

(** X12. In the statistics of the validator, [valid] counts the entities
    [validateEntities] keeps, [invalid] the ones it rejects, the two add up
    to [total], and the rate lies between 0 and 1: it is 0 for no entities,
    and otherwise above 0 exactly when an entity is valid and below 1
    exactly when one is rejected. *)
Theorem getValidationStats_counts config entities :
  let s := getValidationStats config entities in
  valid s = Z.of_nat (length (validateEntities config entities)) /\
  invalid s
  = Z.of_nat (length (List.filter (fun e => negb (isValidEntity config e)) entities)) /\
  valid s + invalid s = total s /\
  (0 <= validationRate s)%Q /\ (validationRate s <= 1)%Q /\
  ((0 < validationRate s)%Q <-> 0 < valid s) /\
  ((validationRate s < 1)%Q <-> 0 < invalid s \/ total s = 0).
Proof.
  cbn zeta. unfold getValidationStats, validateEntities.
  cbn [valid invalid total validationRate].
  pose proof (filter_split (isValidEntity config) entities) as Hsplit.
  set (v := Z.of_nat (length (List.filter (isValidEntity config) entities))) in *.
  set (t := Z.of_nat (length entities)) in *.
  assert (Hv : 0 <= v) by (unfold v; lia).
  assert (Hvt : v <= t) by (unfold v, t; lia).
  split; [reflexivity|]. split; [unfold v, t; lia|]. split; [lia|].
  destruct (Z.ltb_spec 0 t) as [Hpos|Hzero].
  - pose proof (inject_Z_pos t Hpos) as Ht.
    destruct (ratio_bounds v t Hv Hvt Hpos) as [H0 H1].
    split; [exact H0|]. split; [exact H1|]. split; [split|split].
    + intros Hr. destruct (Z.eq_dec v 0) as [Hz|Hnz]; [|lia].
      exfalso. rewrite Hz in Hr. unfold Qdiv in Hr. rewrite Qmult_0_l in Hr.
      apply (Qlt_irrefl 0), Hr.
    + intros Hvpos. apply Qlt_shift_div_l; [exact Ht|]. rewrite Qmult_0_l.
      apply inject_Z_pos, Hvpos.
    + intros Hr. left. destruct (Z.eq_dec v t) as [Hz|Hnz]; [|lia].
      exfalso. rewrite Hz in Hr.
      assert (Hone : (inject_Z t / inject_Z t == 1)%Q).
      { apply Qmult_inv_r. intros E. rewrite E in Ht. apply (Qlt_irrefl 0), Ht. }
      rewrite Hone in Hr. apply (Qlt_irrefl 1), Hr.
    + intros [Hi|Hz]; [|lia].
      apply Qlt_shift_div_r; [exact Ht|]. rewrite Qmult_1_l.
      rewrite <- Zlt_Qlt. lia.
  - assert (Ht0 : t = 0) by lia. assert (Hv0 : v = 0) by lia.
    split; [apply Qle_refl|]. split; [discriminate|]. split; [split|split].
    + intros Hr. exfalso. apply (Qlt_irrefl 0), Hr.
    + intros Hvpos. lia.
    + intros _. right. exact Ht0.
    + intros _. reflexivity.
Qed.

Lemma isValidEntity_stricter c1 c2 e :
  stricter c1 c2 -> isValidEntity c2 e = true -> isValidEntity c1 e = true.
Proof.
  intros [Hmin Hmode]. unfold isValidEntity.
  destruct (Qltb (confidence e) (minimumConfidence c2)) eqn:E2; [discriminate|].
  apply ValidatorFacts.Qltb_false in E2.
  destruct (Qltb (confidence e) (minimumConfidence c1)) eqn:E1.
  { apply ValidatorFacts.Qltb_true in E1. exfalso.
    apply (Qlt_irrefl (confidence e)).
    eapply Qlt_le_trans; [exact E1|]. eapply Qle_trans; [exact Hmin|exact E2]. }
  destruct (enableStrictMode c1) eqn:M1; [|reflexivity].
  rewrite (Hmode eq_refl). intros H; exact H.
Qed.

(** X13. Validating again under a configuration that asks at least as much
    changes nothing more than that configuration does on its own: a
    stricter pass absorbs an earlier, laxer one. *)
Theorem validateEntities_absorbs c1 c2 entities :
  stricter c1 c2 ->
  validateEntities c2 (validateEntities c1 entities) = validateEntities c2 entities.
Proof.
  intros Hs. unfold validateEntities.
  induction entities as [|e entities IH]; [reflexivity|]. cbn [List.filter].
  destruct (isValidEntity c2 e) eqn:E2.
  - rewrite (isValidEntity_stricter c1 c2 e Hs E2). cbn [List.filter].
    rewrite E2, IH. reflexivity.
  - destruct (isValidEntity c1 e); [cbn [List.filter]; rewrite E2|]; exact IH.
Qed.

Lemma validateEntities_absorbs_witness :
  validateEntities strict
    (validateEntities lenient [Samples.john8; Samples.jane7; Samples.john9])
  = validateEntities strict [Samples.john8; Samples.jane7; Samples.john9].
Proof.
  apply (validateEntities_absorbs lenient strict). split.
  - discriminate.
  - discriminate.
Defined.

End ValidatorStatsFacts.

(** ** Deduper: the result as a fixed point, and statistics *)

Module DeduperResultFacts.
Import Deduper DeduperStats.

Lemma mapSet_new seen key v : key ∉ seen.*1 -> mapSet seen key v = seen ++ [(key, v)].
Proof.
  induction seen as [|[k old] seen IH]; cbn; intros Hnin; [reflexivity|].
  apply not_elem_of_cons in Hnin as [Hne Hnin].
  destruct (decide (k = key)) as [->|_]; [contradiction|].
  rewrite IH by exact Hnin. reflexivity.
Qed.

Lemma mapSet_Forall (P : MapKey * SensitiveEntity -> Prop) seen key v :
  Forall P seen -> P (key, v) -> Forall P (mapSet seen key v).
Proof.
  intros Hall Hv. induction Hall as [|[k old] seen Hp Hall IH]; cbn.
  - constructor; [exact Hv|constructor].
  - destruct (decide (k = key)) as [->|_]; constructor; assumption.
Qed.

Lemma mapSet_length seen key v : (length (mapSet seen key v) <= S (length seen))%nat.
Proof.
  induction seen as [|[k old] seen IH]; cbn; [lia|].
  destruct (decide (k = key)); cbn; lia.
Qed.

Lemma dedupStep_Forall (P : MapKey * SensitiveEntity -> Prop) seen key e :
  Forall P seen -> P (key, e) -> Forall P (dedupStep seen key e).
Proof.
  intros Hall He. unfold dedupStep.
  destruct (mapGet seen key); [destruct (Qltb _ _)|];
    try apply mapSet_Forall; assumption.
Qed.

Lemma dedupStep_length seen key e :
  (length (dedupStep seen key e) <= S (length seen))%nat.
Proof.
  unfold dedupStep.
  destruct (mapGet seen key); [destruct (Qltb _ _)|];
    try apply mapSet_length; lia.
Qed.

Section Pure.
Variable key : SensitiveEntity -> MapKey.

(** What the loop keeps true of the map: the keys are distinct, every entry
    sits under its own key and satisfies what the entities satisfy, and
    there are no more entries than entities seen. *)
Lemma dedupPure_invariant (P : SensitiveEntity -> Prop) entities : forall seen,
  NoDup seen.*1 ->
  Forall (fun p => key p.2 = p.1 /\ P p.2) seen ->
  Forall P entities ->
  NoDup (dedupPure key entities seen).*1 /\
  Forall (fun p => key p.2 = p.1 /\ P p.2) (dedupPure key entities seen) /\
  (length (dedupPure key entities seen) <= length seen + length entities)%nat.
Proof.
  induction entities as [|e entities IH]; intros seen Hnd Hall HP.
  - cbn. repeat split; [exact Hnd|exact Hall|lia].
  - inversion HP as [|? ? He HP']; subst. cbn [dedupPure foldl].
    destruct (IH (dedupStep seen (key e) e)) as (H1 & H2 & H3).
    + rewrite DeduperFacts.keys_dedupStep. apply DeduperFacts.addKey_NoDup, Hnd.
    + apply dedupStep_Forall; [exact Hall|]. split; [reflexivity|exact He].
    + exact HP'.
    + repeat split; [exact H1|exact H2|].
      pose proof (dedupStep_length seen (key e) e). cbn [length]. unfold dedupPure in H3. lia.
Qed.

(** A map with distinct keys is rebuilt entry by entry from its values. *)
Lemma dedupPure_rebuild (s2 : SeenMap) : forall s1 : SeenMap,
  NoDup (s1 ++ s2).*1 ->
  Forall (fun p => key p.2 = p.1) s2 ->
  dedupPure key s2.*2 s1 = s1 ++ s2.
Proof.
  induction s2 as [|[k e] s2 IH]; intros s1 Hnd Hkeys.
  - rewrite app_nil_r. reflexivity.
  - inversion Hkeys as [|? ? Hk Hkeys']; subst. cbn in Hk.
    change (((k, e) :: s2).*2) with (e :: s2.*2).
    change (dedupPure key (e :: s2.*2) s1)
      with (dedupPure key s2.*2 (dedupStep s1 (key e) e)).
    rewrite Hk.
    assert (Hnin : k ∉ s1.*1).
    { rewrite fmap_app in Hnd. apply NoDup_app in Hnd as (_ & Hdis & _).
      intros Hin. apply (Hdis k Hin). cbn. left. }
    unfold dedupStep. rewrite (proj2 (DeduperFacts.mapGet_None s1 k) Hnin).
    rewrite mapSet_new by exact Hnin.
    rewrite IH; [rewrite <- app_assoc; reflexivity| |exact Hkeys'].
    rewrite <- app_assoc. exact Hnd.
Qed.

End Pure.

Lemma filter_all {A} (g : A -> bool) l :
  Forall (fun x => g x = true) l -> List.filter g l = l.
Proof.
  induction 1 as [|x l Hx _ IH]; [reflexivity|]. cbn. rewrite Hx, IH. reflexivity.
Qed.

Section Shapes.
Variable toLowerCase : jsstring -> jsstring.
Variable localeCompare : jsstring -> jsstring -> Z.

Local Abbreviation removeDuplicates := (removeDuplicates toLowerCase localeCompare).
Local Abbreviation identityKey := (identityKey toLowerCase localeCompare).

(** The result for a type of the enumeration, as the values of a map whose
    entries sit under their identity keys. *)
Lemma removeDuplicates_map env config entities t :
  inEnum t = true ->
  exists seen : SeenMap,
    (removeDuplicates env config entities t).2 = Ok seen.*2 /\
    NoDup seen.*1 /\
    Forall (fun p => KeyString (identityKey config t p.2) = p.1 /\
                     (matchesShape t p.2 = true /\ p.2 ∈ entities)) seen /\
    (length seen <= length entities)%nat.
Proof.
  intros Ht.
  destruct (DeduperFacts.removeDuplicates_recognized toLowerCase localeCompare
              env config entities t Ht) as (kx & -> & Hkx).
  unfold deduplicateByKey.
  rewrite (DeduperFacts.dedupLoop_pure kx
             (fun e => KeyString (identityKey config t e))).
  2:{ apply Forall_forall. intros e He.
      apply list_elem_of_In, filter_In in He as [_ He]. apply Hkx, He. }
  destruct (dedupPure_invariant (fun e => KeyString (identityKey config t e))
              (fun e => matchesShape t e = true /\ e ∈ entities)
              (List.filter (matchesShape t) entities) [])
    as (Hnd & Hall & Hlen); [constructor|constructor| |].
  { apply Forall_forall. intros e He. split.
    - apply list_elem_of_In, filter_In in He as [_ He]. exact He.
    - apply list_elem_of_In. apply list_elem_of_In, filter_In in He as [He _]. exact He. }
  eexists. split; [reflexivity|]. split; [exact Hnd|]. split; [exact Hall|].
  pose proof (List.filter_length_le (matchesShape t) entities). cbn in Hlen. lia.
Qed.

Lemma removeDuplicates_quiet env config entities t :
  Forall (fun e => matchesShape t e = true) entities ->
  (removeDuplicates env config entities t).1 = [].
Proof.
  intros H. unfold Deduper.removeDuplicates. unfold matchesShape in H.
  destruct (streq t UNSTRUCTURED);
    [|destruct (streq t SPREADSHEET);
      [|destruct (streq t JSON); [|destruct (streq t CSV)]]];
    cbn [fst]; try reflexivity;
    rewrite (filter_all _ _ H); unfold mismatchWarning;
    rewrite Nat.eqb_refl; reflexivity.
Qed.

Lemma removeDuplicates_other env config entities t :
  inEnum t = false -> removeDuplicates env config entities t = ([], Ok entities).
Proof.
  unfold inEnum, Deduper.removeDuplicates.
  destruct (streq t UNSTRUCTURED), (streq t CSV), (streq t JSON),
           (streq t SPREADSHEET); cbn; intros H; try discriminate H; reflexivity.
Qed.

(** The result of any call: it is no longer than the input, and a second
    pass over it returns it as it is, without a warning. *)
Lemma removeDuplicates_fixed env config entities t :
  exists output,
    (removeDuplicates env config entities t).2 = Ok output /\
    (length output <= length entities)%nat /\
    removeDuplicates env config output t = ([], Ok output).
Proof.
  destruct (inEnum t) eqn:Ht.
  - destruct (removeDuplicates_map env config entities t Ht)
      as (seen & Hrun & Hnd & Hall & Hlen).
    exists seen.*2. split; [exact Hrun|]. split; [rewrite length_fmap; exact Hlen|].
    assert (Hshape : Forall (fun e => matchesShape t e = true) seen.*2).
    { apply Forall_fmap. eapply Forall_impl; [exact Hall|].
      intros p (_ & Hp & _). exact Hp. }
    rewrite (surjective_pairing (removeDuplicates env config seen.*2 t)).
    rewrite (removeDuplicates_quiet env config _ t Hshape). f_equal.
    destruct (DeduperFacts.removeDuplicates_recognized toLowerCase localeCompare
                env config seen.*2 t Ht) as (kx & -> & Hkx).
    rewrite (filter_all _ _ Hshape). unfold deduplicateByKey.
    rewrite (DeduperFacts.dedupLoop_pure kx
               (fun e => KeyString (identityKey config t e))).
    2:{ eapply Forall_impl; [exact Hshape|]. intros e He. apply Hkx, He. }
    rewrite (dedupPure_rebuild _ seen []); [reflexivity|exact Hnd|].
    eapply Forall_impl; [exact Hall|]. intros p (Hp & _). exact Hp.
  - rewrite (removeDuplicates_other env config entities t Ht).
    exists entities. split; [reflexivity|]. split; [lia|].
    apply removeDuplicates_other, Ht.
Qed.

End Shapes.

(** X14. [removeDuplicates] is idempotent: a second pass over its result,
    with the same type and configuration, returns the same entities in the
    same order and warns of nothing. *)
Theorem removeDuplicates_idempotent toLowerCase localeCompare env config entities t :
  exists output,
    (removeDuplicates toLowerCase localeCompare env config entities t).2 = Ok output /\
    removeDuplicates toLowerCase localeCompare env config output t = ([], Ok output).
Proof.
  destruct (removeDuplicates_fixed toLowerCase localeCompare env config entities t)
    as (output & Hrun & _ & Hfix).
  exists output. split; assumption.
Qed.

(** X15. For a type of the enumeration, no two entities of the result share
    an identity key, and every entity of the result is an entity of the
    input that has the shape of the type. *)
Theorem removeDuplicates_distinct toLowerCase localeCompare env config entities t :
  inEnum t = true ->
  exists output,
    (removeDuplicates toLowerCase localeCompare env config entities t).2 = Ok output /\
    NoDup (List.map (identityKey toLowerCase localeCompare config t) output) /\
    Forall (fun e => e ∈ entities /\ matchesShape t e = true) output.
Proof.
  intros Ht.
  destruct (removeDuplicates_map toLowerCase localeCompare env config entities t Ht)
    as (seen & Hrun & Hnd & Hall & _).
  exists seen.*2. split; [exact Hrun|]. split.
  - apply (NoDup_fmap_1 KeyString).
    change (List.map ?f ?l) with (f <$> l). rewrite <- !list_fmap_compose.
    erewrite list_fmap_ext; [exact Hnd|].
    intros i p Hp. apply (Forall_lookup_1 _ _ _ _ Hall) in Hp as (Hk & _).
    cbn. exact Hk.
  - apply Forall_fmap. eapply Forall_impl; [exact Hall|].
    intros p (_ & Hs & Hin). split; assumption.
Qed.

Lemma removeDuplicates_distinct_witness :
  exists output,
    (removeDuplicates Samples.asciiLower Samples.codeUnitCompare Samples.production
       Samples.insensitive
       [Samples.john8; Samples.sheetAB; Samples.jane7; Samples.john9]
       UNSTRUCTURED).2 = Ok output /\
    NoDup (List.map (identityKey Samples.asciiLower Samples.codeUnitCompare
                       Samples.insensitive UNSTRUCTURED) output) /\
    Forall (fun e => e ∈ [Samples.john8; Samples.sheetAB; Samples.jane7; Samples.john9]
                     /\ matchesShape UNSTRUCTURED e = true) output.
Proof.
  apply (removeDuplicates_distinct Samples.asciiLower Samples.codeUnitCompare
           Samples.production Samples.insensitive
           [Samples.john8; Samples.sheetAB; Samples.jane7; Samples.john9]
           UNSTRUCTURED).
  reflexivity.
Defined.

(** X16. The statistics of a deduplication: the number removed is between
    zero and the number of entities given, and the removal rate between 0
    and 1. *)
Theorem getStats_bounds toLowerCase localeCompare env config entities t :
  exists output,
    (removeDuplicates toLowerCase localeCompare env config entities t).2 = Ok output /\
    0 <= removed (getStats entities output) /\
    removed (getStats entities output) <= original (getStats entities output) /\
    (0 <= removalRate (getStats entities output))%Q /\
    (removalRate (getStats entities output) <= 1)%Q.
Proof.
  destruct (removeDuplicates_fixed toLowerCase localeCompare env config entities t)
    as (output & Hrun & Hlen & _).
  exists output. split; [exact Hrun|].
  unfold getStats. cbn [removed original removalRate].
  split; [lia|]. split; [lia|].
  destruct (Z.ltb_spec 0 (Z.of_nat (length entities))) as [Hpos|Hzero].
  - apply ValidatorStatsFacts.ratio_bounds; lia.
  - split; [apply Qle_refl|discriminate].
Qed.

End DeduperResultFacts.

(** ** Workflow: what every run keeps true *)

Module AccountingFacts.
Import Workflow Accounting.

Lemma perform_Move w job s a s' :
  perform w job s a = Some s' -> Move w job s s'.
Proof.
  intros Hstep. destruct a as [|i| |];
    cbn -[Nat.ltb concurrency settle withTask withCall fail finished] in Hstep.
  - destruct (_ <? _)%nat eqn:Hlt; [|discriminate].
    apply Nat.ltb_lt in Hlt.
    destruct (firstQueued (tasks s)) as [i|] eqn:Hq; [|discriminate]. cbn in Hstep.
    destruct (chunks s !! i) as [chunk|] eqn:Hc; [|discriminate]. cbn in Hstep.
    injection Hstep as <-. apply WorkflowFacts.firstQueued_Some in Hq.
    apply (move_start w job s i chunk Hlt Hq Hc).
  - destruct (tasks s !! i) as [t|] eqn:Hi; [|discriminate].
    destruct t as [|stream final|]; try discriminate.
    destruct (chunks s !! i) as [chunk|] eqn:Hc;
      [|destruct stream as [|[[|]|]]; try destruct final; discriminate].
    destruct stream as [|[[|e es]|] rest].
    + destruct final as [entities|m]; injection Hstep as <-.
      * apply move_settle, Hi.
      * apply move_recover, Hi.
    + injection Hstep as <-. eapply move_read, Hi.
    + destruct (onEvent w (calls s) _) as [[]|m] eqn:Hcall; injection Hstep as <-.
      * eapply move_think; eassumption.
      * eapply move_think_throw; eassumption.
    + injection Hstep as <-. eapply move_read, Hi.
  - destruct (phase s) eqn:Hp; [|discriminate].
    destruct (rejection s) eqn:Hr; [|discriminate].
    injection Hstep as <-. apply move_reject; assumption.
  - destruct (phase s) eqn:Hp; [|discriminate].
    destruct (resolved (tasks s)) as [validated|] eqn:Hres; [|discriminate].
    destruct (executeDeduplicationStep w _ _) as [finalEntities|m] eqn:Hd.
    + destruct (onEvent w (calls s) _) as [[]|m] eqn:Hcall; injection Hstep as <-.
      * eapply move_complete; eassumption.
      * eapply move_complete_throw; eassumption.
    + injection Hstep as <-. eapply move_dedup_throw; eassumption.
Qed.

(** An invariant of the moves that holds at the start holds of every state
    of the job. *)
Lemma reachable_ind_Move w job (P : State -> Prop) :
  P (start w job) ->
  (forall s s', reachable w job s -> P s -> Move w job s s' -> P s') ->
  forall s, reachable w job s -> P s.
Proof.
  intros Hstart Hmove s Hs.
  enough (H : reachable w job s /\ P s) by apply H.
  unfold reachable in *. revert s Hs.
  apply (rtc_ind_r (fun s => rtc (step w job) (start w job) s /\ P s) (start w job)).
  - split; [apply rtc_refl|exact Hstart].
  - intros s1 s2 _ [a Ha] [Hr IH]. split.
    + eapply rtc_r; [exact Hr|]. exists a. exact Ha.
    + eapply Hmove; [exact Hr|exact IH|eapply perform_Move, Ha].
Qed.

(** *** The start of a job *)

Lemma start_cases w job :
  (exists wk m,
     start w job
     = fail {| chunks := []; tasks := []; calls := []; rejection := None;
               identifiedCount := 0; validatedCount := 0; phase := Awaiting;
               work := wk |} m) \/
  (exists cs,
     start w job
     = {| chunks := cs; tasks := List.map (fun _ => Queued) cs; calls := [];
          rejection := None; identifiedCount := 0; validatedCount := 0;
          phase := Awaiting; work := [chunking] |}).
Proof.
  unfold start. destruct (TriggerSchema_parse w job) as [validatedJob|m].
  - destruct (createChunks w _ _) as [cs|m]; [right|left]; eauto.
  - left. eauto.
Qed.

(** *** The counters and the events *)

Lemma settledSize_cons t ts :
  settledSize (t :: ts) = (outcomeSize t + settledSize ts)%nat.
Proof. reflexivity. Qed.

Lemma settledSize_insert (ts : list TaskState) : forall i old new,
  ts !! i = Some old ->
  (settledSize (<[i := new]> ts) + outcomeSize old
   = settledSize ts + outcomeSize new)%nat.
Proof.
  induction ts as [|t ts IH]; intros i old new Hi; [discriminate|].
  destruct i as [|i]; cbn in Hi.
  - injection Hi as ->.
    change (<[0%nat := new]> (old :: ts)) with (new :: ts).
    rewrite !settledSize_cons. lia.
  - change (<[S i := new]> (t :: ts)) with (t :: <[i := new]> ts).
    rewrite !settledSize_cons. specialize (IH i old new Hi). lia.
Qed.

Lemma resolved_size ts : forall validated,
  resolved ts = Some validated -> length (concat validated) = settledSize ts.
Proof.
  induction ts as [|t ts IH]; intros validated H; cbn in H.
  - injection H as <-. reflexivity.
  - destruct t as [| |[v|m]]; try discriminate.
    destruct (resolved ts) as [rest|]; [|discriminate].
    injection H as <-. rewrite settledSize_cons. cbn [concat outcomeSize].
    rewrite length_app, (IH rest eq_refl). reflexivity.
Qed.

Lemma executeValidationStep_length entities :
  (length (executeValidationStep entities) <= length entities)%nat.
Proof.
  unfold executeValidationStep. destruct entities as [|e entities]; [cbn; lia|].
  apply List.filter_length_le.
Qed.

Lemma executeDeduplicationStep_ok w results t :
  exists finalEntities,
    executeDeduplicationStep w results t = Ok finalEntities /\
    (length finalEntities <= length results)%nat.
Proof.
  unfold executeDeduplicationStep. destruct results as [|e results].
  - exists []. split; [reflexivity|cbn; lia].
  - destruct (DeduperResultFacts.removeDuplicates_fixed (toLowerCase w)
                (localeCompare w) (NODE_ENV w) deduper (e :: results) t)
      as (output & Hrun & Hlen & _).
    exists output. split; assumption.
Qed.

Lemma Accounts_task s i old new :
  tasks s !! i = Some old -> outcomeSize old = 0%nat -> outcomeSize new = 0%nat ->
  Accounts s -> Accounts (withTask s i new).
Proof.
  intros Hi Hold Hnew (Hv & Hf & Ht & Hc). repeat split; cbn [withTask chunks tasks calls
    validatedCount identifiedCount]; try assumption.
  pose proof (settledSize_insert (tasks s) i old new Hi). lia.
Qed.

Lemma Accounts_thought w s chunk i e es :
  chunks s !! i = Some chunk ->
  Accounts s -> Accounts (withCall s (thought w s chunk (e :: es))).
Proof.
  intros Hc (Hv & Hf & Ht & Hco). repeat split; cbn [withCall chunks tasks calls
    validatedCount identifiedCount]; try assumption.
  - apply Forall_app. split; [exact Ht|]. constructor; [|constructor].
    cbn. split; [discriminate|]. exists chunk. split; [|reflexivity].
    eapply list_elem_of_lookup_2, Hc.
  - apply Forall_app. split; [exact Hco|]. constructor; [exact I|constructor].
Qed.

Lemma Accounts_settle s i old identified :
  tasks s !! i = Some old -> outcomeSize old = 0%nat ->
  Accounts s -> Accounts (settle s i identified).
Proof.
  intros Hi Hold (Hv & Hf & Ht & Hc).
  destruct identified as [entities|m]; repeat split;
    cbn [settle chunks tasks calls validatedCount identifiedCount]; try assumption.
  - pose proof (settledSize_insert (tasks s) i old
                  (Settled (Ok (executeValidationStep entities))) Hi) as H.
    cbn [outcomeSize] in H. lia.
  - pose proof (executeValidationStep_length entities). lia.
  - pose proof (settledSize_insert (tasks s) i old
       (Settled (Throw (str "Chunk " ++ ofNat (i + 1)
                        ++ str " processing failed: " ++ m))) Hi) as H.
    cbn [outcomeSize] in H. lia.
Qed.

Lemma Accounts_error s m : Accounts s -> Accounts (fail s m).
Proof.
  intros (Hv & Hf & Ht & Hc). repeat split;
    cbn [fail finished withCall chunks tasks calls validatedCount identifiedCount];
    try assumption;
    (apply Forall_app; split; [assumption|]; constructor; [exact I|constructor]).
Qed.

Lemma reachable_Accounts w job s : reachable w job s -> Accounts s.
Proof.
  revert s. apply reachable_ind_Move.
  - destruct (start_cases w job) as [(wk & m & ->)|(cs & ->)].
    + apply Accounts_error. repeat split; constructor.
    + repeat split; cbn [chunks tasks calls validatedCount identifiedCount];
        try constructor.
      unfold settledSize. induction cs; [reflexivity|assumption].
  - intros s s' _ IH Hmove.
    destruct Hmove as [i chunk Hlt Hi Hc|i skipped rest final Hi
                      |i chunk e es rest final Hi Hc Hcall
                      |i chunk e es rest final m Hi Hc Hcall
                      |i entities Hi|i m Hi|reason Hp Hr|validated m Hp Hres Hd
                      |validated final Hp Hres Hd Hcall
                      |validated final m Hp Hres Hd Hcall].
    + destruct (Accounts_task s i Queued
                  (Running (partialObjectStream (streamObject w i chunk))
                           (object (streamObject w i chunk))) Hi eq_refl eq_refl IH)
        as (Hv & Hf & Ht & Hco).
      repeat split; assumption.
    + eapply Accounts_task; [exact Hi|reflexivity|reflexivity|exact IH].
    + eapply Accounts_task; [exact Hi|reflexivity|reflexivity|].
      eapply Accounts_thought; eassumption.
    + eapply Accounts_settle; [exact Hi|reflexivity|].
      eapply Accounts_thought; eassumption.
    + eapply Accounts_settle; [exact Hi|reflexivity|exact IH].
    + eapply Accounts_settle; [exact Hi|reflexivity|exact IH].
    + apply Accounts_error, IH.
    + apply Accounts_error, IH.
    + destruct IH as (Hv & Hf & Ht & Hco).
      destruct (executeDeduplicationStep_ok w (concat validated) (Job.analysisType job))
        as (final' & Hd' & Hlen). rewrite Hd in Hd'. injection Hd' as <-.
      rewrite (resolved_size _ _ Hres) in Hlen.
      repeat split;
        cbn [finished withCall chunks tasks calls validatedCount identifiedCount];
        try assumption;
        (apply Forall_app; split; [assumption|]; constructor; [|constructor]);
        [exact I|].
      cbn. repeat split; lia.
    + destruct IH as (Hv & Hf & Ht & Hco).
      destruct (executeDeduplicationStep_ok w (concat validated) (Job.analysisType job))
        as (final' & Hd' & Hlen). rewrite Hd in Hd'. injection Hd' as <-.
      rewrite (resolved_size _ _ Hres) in Hlen.
      repeat split;
        cbn [finished withCall chunks tasks calls validatedCount identifiedCount];
        try assumption;
        (apply Forall_app; split;
         [apply Forall_app; split; [assumption|]; constructor; [|constructor]
         |constructor; [exact I|constructor]]);
        [exact I|].
      cbn. repeat split; lia.
Qed.

(** X18. The statistics of the [complete] event describe a funnel:
    [chunksGenerated] is the number of chunks, [entitiesDeduplicated] the
    number of entities handed over, and deduplicated <= validated <= found. *)
Theorem complete_statistics w job s entities stats :
  reachable w job s ->
  complete entities stats ∈ calls s ->
  chunksGenerated stats = length (chunks s) /\
  entitiesDeduplicated stats = length entities /\
  (entitiesDeduplicated stats <= entitiesValidated stats)%nat /\
  (entitiesValidated stats <= entitiesFound stats)%nat.
Proof.
  intros Hs Hin. destruct (reachable_Accounts w job s Hs) as (_ & _ & _ & Hc).
  rewrite Forall_forall in Hc. apply (Hc _ Hin).
Qed.

Lemma complete_statistics_witness :
  chunksGenerated
    {| chunksGenerated := 2; entitiesFound := 4; entitiesValidated := 2;
       entitiesDeduplicated := 1; processingTimeMs := 42 |}
  = length (chunks completedRun).
Proof.
  apply (complete_statistics (Samples.world Samples.returns Samples.answers)
           Samples.job completedRun [Samples.john9]).
  - apply WorkflowFacts.run_reachable, rtc_refl.
  - vm_compute. do 2 right. left.
Defined.

(** X19. Every [thinking] event handed to the callback carries at least one
    entity, and the id of one of the chunks of the job. *)
Theorem thinking_events w job s chunkId entities timestamp :
  reachable w job s ->
  thinking chunkId entities timestamp ∈ calls s ->
  entities <> [] /\ exists chunk, chunk ∈ chunks s /\ id chunk = chunkId.
Proof.
  intros Hs Hin. destruct (reachable_Accounts w job s Hs) as (_ & _ & Ht & _).
  rewrite Forall_forall in Ht. apply (Ht _ Hin).
Qed.

Lemma thinking_events_witness :
  exists chunk, chunk ∈ chunks completedRun /\ id chunk = str "chunk_0_0".
Proof.
  assert (Hcalls : exists es t rest,
            calls completedRun = thinking (str "chunk_0_0") es t :: rest)
    by (vm_compute; eauto).
  destruct Hcalls as (es & t & rest & Hcalls).
  apply (thinking_events (Samples.world Samples.returns Samples.answers)
           Samples.job completedRun (str "chunk_0_0") es t).
  - apply WorkflowFacts.run_reachable, rtc_refl.
  - rewrite Hcalls. left.
Defined.

(** *** The order of the events *)

Lemma snoc_eq_app {A} (l pre post : list A) x ev :
  l ++ [x] = pre ++ ev :: post ->
  (pre = l /\ ev = x /\ post = []) \/
  (exists post', post = post' ++ [x] /\ l = pre ++ ev :: post').
Proof.
  intros H. destruct post as [|y post' _] using rev_ind.
  - left. apply (app_inj_tail l pre x ev) in H as [-> ->]. auto.
  - right. exists post'.
    change (pre ++ ev :: post' ++ [y]) with (pre ++ (ev :: post') ++ [y]) in H.
    rewrite app_assoc in H. apply app_inj_tail in H as [-> ->]. auto.
Qed.

Lemma count_zero f evs ev :
  count f evs = 0%nat -> ev ∈ evs -> f ev = false.
Proof.
  unfold count. intros H Hin. destruct (f ev) eqn:E; [|reflexivity].
  assert (Hf : In ev (List.filter f evs)).
  { apply filter_In. split; [apply list_elem_of_In, Hin|exact E]. }
  destruct (List.filter f evs); [contradiction|discriminate].
Qed.

Lemma no_terminal_thinking evs :
  count isTerminal evs = 0%nat -> Forall (fun e => isThinking e = true) evs.
Proof.
  intros H. apply Forall_forall. intros ev Hin.
  pose proof (count_zero isTerminal evs ev H Hin) as Hev.
  destruct ev; [reflexivity|discriminate..].
Qed.

Lemma resolved_settled ts validated :
  resolved ts = Some validated -> Forall (fun t => isSettled t = true) ts.
Proof.
  intros H. apply Forall_lookup. intros i t Hi.
  destruct (WorkflowFacts.resolved_lookup ts validated i t H Hi) as [v ->].
  reflexivity.
Qed.

Lemma CompleteLast_busy s s' i t :
  tasks s !! i = Some t -> isSettled t = false ->
  calls s' = calls s -> CompleteLast s -> CompleteLast s'.
Proof.
  intros Hi Ht Hcalls H pre ev post Heq Hev. rewrite Hcalls in Heq.
  destruct (H pre ev post Heq Hev) as (_ & _ & _ & Hall).
  rewrite Forall_lookup in Hall. specialize (Hall i t Hi). congruence.
Qed.

Lemma CompleteLast_thought w s s' i t chunk es :
  tasks s !! i = Some t -> isSettled t = false ->
  calls s' = calls s ++ [thought w s chunk es] ->
  CompleteLast s -> CompleteLast s'.
Proof.
  intros Hi Ht Hcalls H pre ev post Heq Hev. rewrite Hcalls in Heq.
  apply snoc_eq_app in Heq as [(_ & -> & _)|(post' & _ & Heq)]; [discriminate|].
  destruct (H pre ev post' Heq Hev) as (_ & _ & _ & Hall).
  rewrite Forall_lookup in Hall. specialize (Hall i t Hi). congruence.
Qed.

Lemma CompleteLast_fail s m :
  phase s = Awaiting -> CompleteLast s -> CompleteLast (fail s m).
Proof.
  intros Hp H pre ev post Heq Hev.
  cbn [fail finished withCall calls] in Heq.
  apply snoc_eq_app in Heq as [(_ & -> & _)|(post' & _ & Heq)]; [discriminate|].
  destruct (H pre ev post' Heq Hev) as (_ & _ & Hfin & _). congruence.
Qed.

Lemma reachable_CompleteLast w job s : reachable w job s -> CompleteLast s.
Proof.
  revert s. apply reachable_ind_Move.
  - destruct (start_cases w job) as [(wk & m & ->)|(cs & ->)].
    + apply CompleteLast_fail; [reflexivity|].
      intros pre ev post Heq. destruct pre; discriminate.
    + intros pre ev post Heq. destruct pre; discriminate.
  - intros s s' Hs IH Hmove.
    pose proof (WorkflowFacts.reachable_Invariant w job s Hs) as Hinv.
    destruct Hmove as [i chunk Hlt Hi Hc|i skipped rest final Hi
                      |i chunk e es rest final Hi Hc Hcall
                      |i chunk e es rest final m Hi Hc Hcall
                      |i entities Hi|i m Hi|reason Hp Hr|validated m Hp Hres Hd
                      |validated final Hp Hres Hd Hcall
                      |validated final m Hp Hres Hd Hcall].
    + eapply CompleteLast_busy; [exact Hi|reflexivity|reflexivity|exact IH].
    + eapply CompleteLast_busy; [exact Hi|reflexivity|reflexivity|exact IH].
    + eapply CompleteLast_thought; [exact Hi|reflexivity|reflexivity|exact IH].
    + eapply CompleteLast_thought; [exact Hi|reflexivity| |exact IH].
      destruct (recover (NODE_ENV w) m); reflexivity.
    + eapply CompleteLast_busy; [exact Hi|reflexivity|reflexivity|exact IH].
    + eapply CompleteLast_busy; [exact Hi|reflexivity| |exact IH].
      destruct (recover (NODE_ENV w) m); reflexivity.
    + apply CompleteLast_fail; assumption.
    + apply CompleteLast_fail; assumption.
    + intros pre ev post Heq Hev.
      cbn [finished withCall calls phase tasks] in *.
      apply snoc_eq_app in Heq as [(-> & -> & ->)|(post' & _ & Heq)].
      * split; [apply no_terminal_thinking, (inv_awaiting w s Hinv Hp)|].
        split; [left; reflexivity|]. split; [reflexivity|].
        eapply resolved_settled, Hres.
      * destruct (IH pre ev post' Heq Hev) as (_ & _ & Hfin & _). congruence.
    + intros pre ev post Heq Hev.
      cbn [finished withCall calls phase tasks] in *.
      apply snoc_eq_app in Heq as [(_ & -> & _)|(post' & -> & Heq)]; [discriminate|].
      apply snoc_eq_app in Heq as [(-> & -> & ->)|(post'' & _ & Heq)].
      * split; [apply no_terminal_thinking, (inv_awaiting w s Hinv Hp)|].
        split; [right; exists m; reflexivity|]. split; [reflexivity|].
        eapply resolved_settled, Hres.
      * destruct (IH pre ev post'' Heq Hev) as (_ & _ & Hfin & _). congruence.
Qed.

(** X20. Once the [complete] event has been handed over, the job is at
    rest: only [thinking] events came before it, and nothing follows it but
    the [error] event for an exception the callback throws on it. *)
Theorem complete_is_last w job s pre ev post :
  reachable w job s ->
  calls s = pre ++ ev :: post -> isComplete ev = true ->
  Forall (fun e => isThinking e = true) pre /\
  (post = [] \/ exists m, post = [error m]) /\
  idle w job s.
Proof.
  intros Hs Heq Hev.
  destruct (reachable_CompleteLast w job s Hs pre ev post Heq Hev)
    as (Hpre & Hpost & Hfin & Hall).
  split; [exact Hpre|]. split; [exact Hpost|].
  apply WorkflowFacts.settled_idle; assumption.
Qed.

Lemma complete_is_last_witness :
  idle (Samples.world Samples.returns Samples.answers) Samples.job completedRun.
Proof.
  assert (Hcalls : exists pre ev,
            calls completedRun = pre ++ ev :: [] /\ isComplete ev = true).
  { vm_compute. eexists [_; _], _. split; reflexivity. }
  destruct Hcalls as (pre & ev & Hcalls & Hev).
  apply (complete_is_last (Samples.world Samples.returns Samples.answers)
           Samples.job completedRun pre ev []).
  - apply WorkflowFacts.run_reachable, rtc_refl.
  - exact Hcalls.
  - exact Hev.
Defined.

(** *** Outside the test environment *)

Section Production.
Variables (w : World) (job : ProcessingJob) (cs : list ChunkData).
Hypothesis not_test : isTestEnv (NODE_ENV w) = false.
Hypothesis callback_returns : forall made ev, onEvent w made ev = Ok ().
Hypothesis key_accepted :
  forall i chunk m, object (streamObject w i chunk) = Throw m ->
                    includesStr m (str "API key") = false.
Hypothesis job_valid : issues job = [].
Hypothesis chunked : createChunks w (Job.analysisType job) (content job) = Ok cs.

Lemma recover_production m :
  includesStr m (str "API key") = false -> recover (NODE_ENV w) m = Ok [].
Proof using not_test.
  intros H. unfold recover. rewrite H, not_test. reflexivity.
Qed.

Lemma Degrading_task s i new :
  benign new -> Degrading s -> Degrading (withTask s i new).
Proof.
  intros Hnew (Hr & Hb & He & Hf). repeat split;
    cbn [withTask rejection tasks calls phase]; try assumption.
  apply Forall_insert; assumption.
Qed.

Lemma Degrading_thought s chunk es :
  Degrading s -> Degrading (withCall s (thought w s chunk es)).
Proof.
  intros (Hr & Hb & He & Hf). repeat split;
    cbn [withCall rejection tasks calls phase]; try assumption.
  - rewrite WorkflowFacts.count_snoc. cbn [thought isError]. lia.
  - intros Hp. rewrite WorkflowFacts.count_snoc. cbn [thought isComplete].
    rewrite (Hf Hp). reflexivity.
Qed.

Lemma Degrading_settle s i entities :
  Degrading s -> Degrading (settle s i (Ok entities)).
Proof.
  intros (Hr & Hb & He & Hf). repeat split;
    cbn [settle rejection tasks calls phase]; try assumption.
  apply Forall_insert; [exact Hb|exact I].
Qed.

Lemma reachable_Degrading s : reachable w job s -> Degrading s.
Proof using not_test callback_returns key_accepted job_valid chunked.
  revert s. apply reachable_ind_Move.
  - unfold start, TriggerSchema_parse. rewrite job_valid, chunked.
    repeat split; cbn [rejection tasks calls phase]; try reflexivity; try discriminate.
    clear chunked. induction cs; constructor; [exact I|assumption].
  - intros s s' Hs IH Hmove.
    pose proof (WorkflowFacts.reachable_Invariant w job s Hs) as Hinv.
    destruct Hmove as [i chunk Hlt Hi Hc|i skipped rest final Hi
                      |i chunk e es rest final Hi Hc Hcall
                      |i chunk e es rest final m Hi Hc Hcall
                      |i entities Hi|i m Hi|reason Hp Hr|validated m Hp Hres Hd
                      |validated final Hp Hres Hd Hcall
                      |validated final m Hp Hres Hd Hcall].
    + destruct (Degrading_task s i
                  (Running (partialObjectStream (streamObject w i chunk))
                           (object (streamObject w i chunk)))) as (Hr & Hb & He & Hf);
        [|exact IH|repeat split; assumption].
      cbn. destruct (object (streamObject w i chunk)) as [|m] eqn:E; [exact I|].
      eapply key_accepted, E.
    + apply Degrading_task; [|exact IH].
      destruct IH as (_ & Hb & _). rewrite Forall_lookup in Hb. apply (Hb i _ Hi).
    + apply Degrading_task; [|apply Degrading_thought, IH].
      destruct IH as (_ & Hb & _). rewrite Forall_lookup in Hb. apply (Hb i _ Hi).
    + rewrite callback_returns in Hcall. discriminate.
    + apply Degrading_settle, IH.
    + assert (Hm : includesStr m (str "API key") = false).
      { destruct IH as (_ & Hb & _). rewrite Forall_lookup in Hb. apply (Hb i _ Hi). }
      rewrite (recover_production m Hm). apply Degrading_settle, IH.
    + destruct IH as (Hnone & _). congruence.
    + destruct (executeDeduplicationStep_ok w (concat validated) (Job.analysisType job))
        as (final' & Hd' & _). congruence.
    + destruct IH as (Hr & Hb & He & Hf).
      pose proof (inv_awaiting w s Hinv Hp) as Hzero.
      rewrite WorkflowFacts.count_terminal in Hzero.
      repeat split; cbn [finished withCall rejection tasks calls phase];
        try assumption.
      * rewrite WorkflowFacts.count_snoc. cbn [completion isError]. lia.
      * intros _. rewrite WorkflowFacts.count_snoc. cbn [completion isComplete]. lia.
    + rewrite callback_returns in Hcall. discriminate.
Qed.

End Production.

(** X21. Outside the test environment a job degrades gracefully: when the
    job is valid, the chunker returns, the callback does not throw and no
    failure of the model mentions the API key, every run ends with the
    [complete] event and without an [error] event, whatever else the model
    fails with. *)
Theorem production_completes w job cs s :
  isTestEnv (NODE_ENV w) = false ->
  (forall made ev, onEvent w made ev = Ok ()) ->
  (forall i chunk m, object (streamObject w i chunk) = Throw m ->
                     includesStr m (str "API key") = false) ->
  issues job = [] ->
  createChunks w (Job.analysisType job) (content job) = Ok cs ->
  reachable w job s -> idle w job s ->
  count isComplete (calls s) = 1%nat /\ count isError (calls s) = 0%nat.
Proof.
  intros Htest Hcb Hkey Hvalid Hchunks Hs Hidle.
  destruct (reachable_Degrading w job cs Htest Hcb Hkey Hvalid Hchunks s Hs)
    as (_ & _ & He & Hf).
  destruct (WorkflowFacts.idle_settled w job s
              (WorkflowFacts.reachable_Invariant w job s Hs) Hidle) as [Hp _].
  split; [apply Hf, Hp|exact He].
Qed.

Lemma production_completes_witness :
  count isComplete (calls degradedRun) = 1%nat /\
  count isError (calls degradedRun) = 0%nat.
Proof.
  apply (production_completes (Samples.world Samples.returns outage) Samples.job
           (default [] (match Samples.chunker UNSTRUCTURED (str "hello") with
                        | Ok cs => Some cs | Throw _ => None end))
           degradedRun).
  - reflexivity.
  - intros made ev. reflexivity.
  - intros i chunk m H. injection H as <-. vm_compute. reflexivity.
  - vm_compute. reflexivity.
  - vm_compute. reflexivity.
  - apply WorkflowFacts.run_reachable, rtc_refl.
  - apply WorkflowFacts.settled_idle; [vm_compute; reflexivity|].
    vm_compute. repeat constructor.
Defined.

End AccountingFacts.

(** ** Server: what the route lets through *)

Module ServerFacts.
Import Workflow Server.

Lemma truthy_true s : truthy s = true <-> s <> [].
Proof.
  unfold truthy. destruct (Z.eqb_spec (len s) 0) as [H|H]; cbn.
  - split; [discriminate|]. intros Hs. destruct s; [contradiction|].
    unfold len in H. cbn in H. lia.
  - split; [|reflexivity]. intros _ ->. apply H. reflexivity.
Qed.

Lemma policyOk_true p :
  policyOk p = true <->
  ~ (Policy.id p = None \/ Policy.id p = Some [] \/
     Policy.name p = None \/ Policy.name p = Some []).
Proof.
  unfold policyOk.
  destruct (Policy.id p) as [[|c i]|], (Policy.name p) as [[|d n]|]; cbn;
    split; intros H; try discriminate; try reflexivity;
    try (exfalso; apply H; tauto);
    intros [?|[?|[?|?]]]; discriminate.
Qed.

Lemma validate_Streaming body :
  validate body = Streaming <->
  trim (content body) <> [] /\
  policies body <> [] /\
  forallb policyOk (policies body) = true /\
  inEnum (Job.analysisType body) = true.
Proof.
  unfold validate.
  destruct (truthy (trim (content body))) eqn:Hc; cbn [negb].
  2:{ split; [discriminate|]. intros (H & _). apply truthy_true in H. congruence. }
  apply truthy_true in Hc.
  destruct (policies body) as [|p ps] eqn:Hps; cbn [length Nat.eqb orb].
  { split; [discriminate|]. intros (_ & H & _). contradiction. }
  destruct (forallb policyOk (p :: ps)) eqn:Hall; cbn [negb].
  2:{ split; [discriminate|]. intros (_ & _ & H & _). discriminate. }
  destruct (inEnum (Job.analysisType body)) eqn:He.
  - assert (Ht : truthy (Job.analysisType body) = true).
    { apply truthy_true. intros Hnil. rewrite Hnil in He. discriminate. }
    rewrite Ht. cbn. split; [|reflexivity]. intros _. repeat split; auto.
  - rewrite orb_true_r. split; [discriminate|]. intros (_ & _ & _ & H). discriminate.
Qed.

(** X22. The route starts the analysis exactly for the bodies that are valid
    as the validation of the workflow is specified (content, a type of the
    enumeration, at least one policy, every policy with a non-empty id and
    name) and whose content is more than white space; the schema of the
    workflow accepts every such job. *)
Theorem route_guards_workflow body :
  (validate body = Streaming <->
   ~ specInvalid body /\ trim (content body) <> []) /\
  (validate body = Streaming -> issues body = []).
Proof.
  assert (Hiff : validate body = Streaming <->
                 ~ specInvalid body /\ trim (content body) <> []).
  { rewrite validate_Streaming. unfold specInvalid. split.
    - intros (Hc & Hp & Hall & He). split; [|exact Hc].
      intros [Hbad|[Hbad|[Hbad|(p & Hin & Hbad)]]].
      + rewrite Hbad in Hc. apply Hc. reflexivity.
      + congruence.
      + contradiction.
      + rewrite forallb_forall in Hall.
        apply list_elem_of_In, Hall, policyOk_true in Hin. contradiction.
    - intros (Hvalid & Hc). split; [exact Hc|]. split; [|split].
      + intros Hp. apply Hvalid. right. right. left. exact Hp.
      + apply forallb_forall. intros p Hin. apply policyOk_true. intros Hbad.
        apply Hvalid. right. right. right. exists p.
        split; [apply list_elem_of_In, Hin|exact Hbad].
      + destruct (inEnum (Job.analysisType body)) eqn:He; [reflexivity|].
        exfalso. apply Hvalid. right. left. reflexivity. }
  split; [exact Hiff|].
  intros H. apply Hiff in H as [Hvalid _].
  apply WorkflowFacts.issues_nil. intros Hbad. apply Hvalid.
  unfold schemaInvalid in Hbad. unfold specInvalid.
  destruct Hbad as [Hbad|[Hbad|[Hbad|(p & Hin & Hbad)]]]; [tauto..|].
  right. right. right. exists p. split; [exact Hin|tauto].
Qed.

Example route_rejects_nameless_policy :
  validate Samples.namelessPolicyJob
  = BadRequest (str "At least one valid policy must be selected").
Proof. vm_compute. reflexivity. Qed.

End ServerFacts.

(** ** Chunker: chunking JSON *)

Module JsonChunkerFacts.
Import Chunker JsonChunker.

Section Json.
Variable clock : nat -> Z.
Variables stringify stringifyIndented : JsonValue -> jsstring.
Variable o : ChunkingOptions.
Variable ty : AnalysisTypeEnum.

Local Abbreviation recursiveJsonChunk :=
  (recursiveJsonChunk clock stringify stringifyIndented o ty).
Local Abbreviation small := (small stringifyIndented o).
Local Abbreviation appends := (appends clock o ty).
Local Abbreviation numbered := (numbered clock o ty).

Lemma appends_nothing : appends (fun chunks => chunks) 0.
Proof.
  intros chunks. exists []. rewrite app_nil_r. split; [reflexivity|].
  split; [reflexivity|]. intros Hnum. exact Hnum.
Qed.

Lemma appends_pushed chunkText :
  appends (fun chunks => pushed clock o ty chunks chunkText) 1.
Proof.
  intros chunks. eexists. split; [reflexivity|]. split; [reflexivity|].
  intros Hnum i c Hi.
  destruct (decide (i < length chunks)%nat) as [Hlt|Hge].
  - rewrite lookup_app_l in Hi by exact Hlt. apply Hnum, Hi.
  - rewrite lookup_app_r in Hi by lia.
    destruct (i - length chunks)%nat as [|j] eqn:E; [|destruct j; discriminate].
    injection Hi as <-. cbn.
    replace i with (length chunks) by lia. repeat split.
Qed.

Lemma appends_then f g n m :
  appends f n -> appends g m -> appends (fun chunks => g (f chunks)) (n + m).
Proof.
  intros Hf Hg chunks.
  destruct (Hf chunks) as (new1 & E1 & L1 & N1).
  destruct (Hg (chunks ++ new1)) as (new2 & E2 & L2 & N2).
  exists (new1 ++ new2). rewrite E1, E2, app_assoc, length_app, L1, L2.
  split; [reflexivity|]. split; [reflexivity|]. intros Hnum. apply N2, N1, Hnum.
Qed.

Lemma recursiveJsonChunk_appends obj : forall currentPath,
  appends (recursiveJsonChunk obj currentPath) (leaves small obj).
Proof.
  induction obj as [|b|n|s|items IH|entries IH] using JsonValue_nested_ind;
    intros currentPath; try apply appends_pushed.
  - apply appends_nothing.
  - cbn [JsonChunker.recursiveJsonChunk leaves].
    generalize 0%nat at 1 as index.
    induction IH as [|item rest Hitem _ IHrest]; intros index.
    + apply appends_nothing.
    + apply (appends_then _ _ _ _ (Hitem (itemPath currentPath index))
               (IHrest (S index))).
  - cbn [JsonChunker.recursiveJsonChunk leaves].
    destruct (small (JObject entries)); [apply appends_pushed|].
    induction IH as [|[key value] rest Hvalue _ IHrest].
    + apply appends_nothing.
    + apply (appends_then _ _ _ _ (Hvalue (keyPath currentPath key)) IHrest).
Qed.

End Json.

(** X23. For an integer [chunkSize] of [k], the chunks of a JSON value are
    numbered in the order they are pushed: there are as many as the value
    has primitives and small objects, the i-th carries the index [i] in its
    id, the offset [i * k] and the analysis type, and no two share an id. *)
Theorem recursiveJsonChunk_numbered clock stringify stringifyIndented o ty obj
    currentPath k :
  (chunkSize o == inject_Z k)%Q ->
  length (recursiveJsonChunk clock stringify stringifyIndented o ty obj currentPath [])
  = leaves (small stringifyIndented o) obj /\
  (forall (i : nat) c,
     recursiveJsonChunk clock stringify stringifyIndented o ty obj currentPath []
       !! i = Some c ->
     id c = generateChunkId clock i /\
     offset c = Z.of_nat i * k /\
     analysisType c = ty) /\
  NoDup (List.map id
           (recursiveJsonChunk clock stringify stringifyIndented o ty obj
              currentPath [])).
Proof.
  intros Hk.
  destruct (recursiveJsonChunk_appends clock stringify stringifyIndented o ty obj
              currentPath []) as (new & -> & Hlen & Hnum).
  cbn [app]. specialize (Hnum ltac:(intros i c Hi; discriminate)). cbn [app] in Hnum.
  split; [exact Hlen|]. split.
  - intros i c Hi. destruct (Hnum i c Hi) as (Hid & Hoff & Hty).
    repeat split; try assumption.
    rewrite Hoff, Hk, <- inject_Z_mult. apply Qfloor_Z.
  - apply NoDup_alt. intros i j x Hi Hj.
    change (List.map id new) with (id <$> new) in *.
    rewrite list_lookup_fmap in Hi, Hj.
    destruct (new !! i) as [ci|] eqn:Ei; [|discriminate].
    destruct (new !! j) as [cj|] eqn:Ej; [|discriminate].
    cbn in Hi, Hj. injection Hi as Hi. injection Hj as Hj.
    destruct (Hnum i ci Ei) as (Hidi & _). destruct (Hnum j cj Ej) as (Hidj & _).
    apply (ReassemblyFacts.generateChunkId_inj clock). congruence.
Qed.

Lemma recursiveJsonChunk_numbered_witness :
  length (recursiveJsonChunk clock0 render render thirty JSON sample [] []) = 2%nat /\
  (forall (i : nat) c,
     recursiveJsonChunk clock0 render render thirty JSON sample [] [] !! i = Some c ->
     id c = generateChunkId clock0 i /\
     offset c = Z.of_nat i * 30 /\
     analysisType c = JSON) /\
  NoDup (List.map id (recursiveJsonChunk clock0 render render thirty JSON sample [] [])).
Proof.
  apply (recursiveJsonChunk_numbered clock0 render render thirty JSON sample [] 30).
  reflexivity.
Defined.

Example recursiveJsonChunk_sample :
  List.map (fun c => (offset c, length (text c)))
    (recursiveJsonChunk clock0 render render thirty JSON sample [] [])
  = [(0, 20%nat); (30, 16%nat)].
Proof. vm_compute. reflexivity. Qed.

End JsonChunkerFacts.

(** ** Identifier: the cache of formatted policies *)

Module PoliciesFacts.
Import Policies.

Lemma undefined_last (ids ids' : list (option jsstring)) :
  ids ≡ₚ ids' ->
  List.filter (fun x => negb (bool_decide (is_Some x))) ids
  = List.filter (fun x => negb (bool_decide (is_Some x))) ids'.
Proof.
  induction 1 as [|x l l' _ IH|x y l|l l' l'' _ IH1 _ IH2]; cbn.
  - reflexivity.
  - rewrite IH. reflexivity.
  - destruct x, y; reflexivity.
  - congruence.
Qed.

Lemma sortDefault_order_irrelevant ids ids' :
  ids ≡ₚ ids' -> sortDefault ids = sortDefault ids'.
Proof.
  intros Hp. unfold sortDefault. f_equal; [f_equal|apply undefined_last, Hp].
  apply (DeduperFacts.sort_order_irrelevant Samples.codeUnitCompare
           DeduperFacts.codeUnitCompare_total DeduperFacts.codeUnitCompare_trans
           DeduperFacts.codeUnitCompare_antisym).
  apply omap_Permutation, Hp.
Qed.

Lemma formatted_nonempty policies :
  policies <> [] -> join [Csv.LF] (formatPolicies policies) <> [].
Proof.
  destruct policies as [|p ps]; [contradiction|]. intros _ H.
  assert (Hp : formatPolicy p <> []).
  { unfold formatPolicy. intros E. apply (f_equal length) in E.
    rewrite !length_app in E. cbn in E. lia. }
  unfold formatPolicies in H. cbn [List.map] in H.
  destruct (List.map formatPolicy ps); cbn in H; [contradiction|].
  apply app_eq_nil in H as [H _]. contradiction.
Qed.

(** X24. The cache of formatted policies is keyed by the ids alone, in any
    order: once a list of policies has been formatted, a call with policies
    of the same ids, in whatever order and whatever their names and
    documents, returns the text of the first list and leaves the cache as
    it is. *)
Theorem policy_cache_hit stringify policyCache policies others :
  policies <> [] ->
  List.map (fun p => Policy.id (fragment p)) others
  ≡ₚ List.map (fun p => Policy.id (fragment p)) policies ->
  getFormattedPolicies stringify
    (getFormattedPolicies stringify policyCache policies).1 others
  = getFormattedPolicies stringify policyCache policies.
Proof.
  intros Hne Hp.
  assert (Hkey : cacheKey stringify others = cacheKey stringify policies).
  { unfold cacheKey. f_equal. apply sortDefault_order_irrelevant, Hp. }
  unfold getFormattedPolicies. rewrite Hkey.
  destruct (policyCache !! cacheKey stringify policies) as [hit|] eqn:E.
  - destruct (negb (len hit =? 0)) eqn:Ht; cbn [fst].
    + rewrite E, Ht. reflexivity.
    + rewrite lookup_insert_eq.
      destruct (Z.eqb_spec (len (join [Csv.LF] (formatPolicies policies))) 0)
        as [Hz|_]; [|reflexivity].
      exfalso. apply (formatted_nonempty policies Hne).
      destruct (join _ _); [reflexivity|]. unfold len in Hz. cbn in Hz. lia.
  - cbn [fst]. rewrite lookup_insert_eq.
    destruct (Z.eqb_spec (len (join [Csv.LF] (formatPolicies policies))) 0)
      as [Hz|_]; [|reflexivity].
    exfalso. apply (formatted_nonempty policies Hne).
    destruct (join _ _); [reflexivity|]. unfold len in Hz. cbn in Hz. lia.
Qed.

Lemma policy_cache_hit_witness :
  getFormattedPolicies plain (getFormattedPolicies plain ∅ [gdpr; ccpa]).1 renamed
  = getFormattedPolicies plain ∅ [gdpr; ccpa].
Proof.
  apply (policy_cache_hit plain ∅ [gdpr; ccpa] renamed).
  - discriminate.
  - cbn. apply Permutation_swap.
Defined.

End PoliciesFacts.

(** ** Workflow: a job without chunks *)

Module EmptyJobFacts.
Import Workflow Accounting.

(** X25. When the chunker returns no chunk for a valid job (JSON content
    that is [null] or an empty array, for one), the only step of the job is
    the one in which [Promise.all] resolves at once: the callback is handed
    a [complete] event without entities and with all counts at zero, and
    the job is at rest. *)
Theorem no_chunks_completes w job :
  issues job = [] ->
  createChunks w (Job.analysisType job) (content job) = Ok [] ->
  exists s,
    perform w job (start w job) resolveAll = Some s /\
    (forall a s', perform w job (start w job) a = Some s' -> s' = s) /\
    (exists rest, calls s = complete [] (nothingFound w) :: rest) /\
    idle w job s.
Proof.
  intros Hvalid Hchunks.
  assert (Hstart : start w job
                   = {| chunks := []; tasks := []; calls := []; rejection := None;
                        identifiedCount := 0; validatedCount := 0;
                        phase := Awaiting; work := [chunking] |}).
  { unfold start, TriggerSchema_parse. rewrite Hvalid, Hchunks. reflexivity. }
  rewrite Hstart.
  assert (Hresolve : exists s,
            perform w job
              {| chunks := []; tasks := []; calls := []; rejection := None;
                 identifiedCount := 0; validatedCount := 0;
                 phase := Awaiting; work := [chunking] |} resolveAll = Some s /\
            (exists rest, calls s = complete [] (nothingFound w) :: rest) /\
            phase s = Finished /\ tasks s = []).
  { cbn. unfold nothingFound.
    destruct (onEvent w [] _) as [[]|m]; eexists; (split; [reflexivity|]);
      cbn; eauto. }
  destruct Hresolve as (s & Hs & Hcalls & Hfin & Htasks).
  exists s. split; [exact Hs|]. split; [|split; [exact Hcalls|]].
  - intros a s' Ha. destruct a as [|i| |].
    + cbn in Ha. discriminate.
    + cbn in Ha. discriminate.
    + cbn in Ha. discriminate.
    + rewrite Hs in Ha. injection Ha as <-. reflexivity.
  - apply WorkflowFacts.settled_idle; [exact Hfin|]. rewrite Htasks. constructor.
Qed.

Lemma no_chunks_completes_witness :
  exists s,
    perform (Samples.world Samples.returns Samples.answers) jsonJob
      (start (Samples.world Samples.returns Samples.answers) jsonJob) resolveAll
    = Some s /\
    calls s = [complete [] (nothingFound (Samples.world Samples.returns Samples.answers))].
Proof.
  destruct (no_chunks_completes (Samples.world Samples.returns Samples.answers) jsonJob)
    as (s & Hs & _ & _ & _);
    [vm_compute; reflexivity|vm_compute; reflexivity|].
  exists s. split; [exact Hs|].
  vm_compute in Hs. injection Hs as <-. reflexivity.
Defined.

End EmptyJobFacts.

(** ** Chunker: the number of chunks *)

Module ChunkCountFacts.
Import Chunker Reassembly.

Lemma windowCount_more L size step :
  1 <= step -> size < L ->
  windowCount L size step = S (windowCount (L - step) size step).
Proof.
  intros Hstep Hlt. unfold windowCount.
  destruct (Z.leb_spec L size); [lia|].
  destruct (Z.leb_spec (L - step) size) as [Hle|Hgt].
  - f_equal. replace 1%nat with (Z.to_nat 1) by reflexivity. f_equal.
    symmetry. apply Z.div_unique with (r := L - size - 1); lia.
  - f_equal. rewrite <- Z2Nat.inj_succ by (apply Z.div_pos; lia). f_equal.
    replace (L - size + step - 1) with ((L - step - size + step - 1) + 1 * step) by lia.
    rewrite Z.div_add by lia. lia.
Qed.

Lemma Windows_count txt size step start ws :
  1 <= step ->
  Windows txt size step start ws ->
  length ws = windowCount (len txt - start) size step.
Proof.
  intros Hstep Hw.
  induction Hw as [start c Hlt Hend Hoff Htxt
                  |start c rest Hend Hoff Htxt Hw IH].
  - unfold windowCount. destruct (Z.leb_spec (len txt - start) size); [reflexivity|lia].
  - rewrite windowCount_more by lia. cbn [length]. f_equal.
    rewrite IH. f_equal. lia.
Qed.

(** X26. The number of chunks of unstructured content of [L] characters is
    one when [L] is at most the clamped chunkSize, and otherwise
    [1 + ceil((L - size) / step)]. *)
Theorem unstructured_count clock o txt ty (k : nat) :
  exists chunks,
    chunkUnstructured clock (S (length txt) + k) o txt ty = Some chunks /\
    length chunks = windowCount (len txt) (clampSize o) (stepOf o).
Proof.
  unfold chunkUnstructured. fold (stepOf o).
  pose proof (ChunkerFacts.clampSize_pos o) as Hsize.
  pose proof (ChunkerFacts.stepOf_pos o) as Hstep.
  pose proof (ChunkerFacts.stepOf_le_size o) as Hle.
  destruct (Z.eqb_spec (len txt) 0) as [Hz|Hnz].
  - eexists. split; [reflexivity|]. unfold windowCount.
    destruct (Z.leb_spec (len txt) (clampSize o)); [reflexivity|lia].
  - pose proof (ChunkerFacts.len_nonneg txt) as Hlen.
    destruct (ChunkerFacts.chunkLoop_fuel_enough clock txt ty (clampSize o)
                (stepOf o) Hstep (length txt) 0 []) as (res & Hres & _ & _).
    { unfold len. lia. }
    exists res. split; [apply ChunkerFacts.chunkLoop_mono, Hres|].
    apply ChunkerFacts.chunkLoop_windows in Hres; [|lia..].
    destruct Hres as (new & -> & Hw). cbn [app].
    rewrite (Windows_count _ _ _ _ _ Hstep Hw). f_equal. lia.
Qed.

Example unstructured_count_alphabet :
  windowCount (len alphabet) (clampSize smallWindow) (stepOf smallWindow) = 5%nat.
Proof. reflexivity. Qed.

End ChunkCountFacts.

(** ** Workflow: what an error event says *)

Module ErrorFacts.
Import Workflow Accounting.

Section Errors.
Variables (w : World) (job : ProcessingJob).

Lemma Explained_task s i t :
  Explained w job s -> Explained w job (withTask s i t).
Proof. intros H. exact H. Qed.

Lemma Explained_thought s chunk es :
  Explained w job s -> Explained w job (withCall s (thought w s chunk es)).
Proof.
  intros [Hr He]. split; [exact Hr|].
  cbn [withCall calls chunks]. apply Forall_app. split; [exact He|].
  constructor; [exact I|constructor].
Qed.

Lemma Explained_settle s i t identified :
  length (chunks s) = length (tasks s) -> tasks s !! i = Some t ->
  Explained w job s -> Explained w job (settle s i identified).
Proof.
  intros Hlen Hi [Hr He]. destruct identified as [entities|m]; split;
    cbn [settle rejection calls chunks]; try assumption.
  intros reason Hreason. destruct (rejection s) as [r|] eqn:E.
  - injection Hreason as <-. apply Hr. reflexivity.
  - injection Hreason as <-. exists i, m. split; [|reflexivity].
    rewrite Hlen. eapply lookup_lt_Some, Hi.
Qed.

Lemma Explained_fail s cause :
  (issues job <> [] /\ cause = zodMessage w (issues job)) \/
  createChunks w (Job.analysisType job) (content job) = Throw cause \/
  chunkFailure (chunks s) cause ->
  Explained w job s -> Explained w job (fail s cause).
Proof.
  intros Hcause [Hr He]. split; [exact Hr|].
  cbn [fail finished withCall calls chunks]. apply Forall_app. split; [exact He|].
  constructor; [|constructor]. left. exists cause. split; [reflexivity|exact Hcause].
Qed.

Lemma start_Explained : Explained w job (start w job).
Proof.
  unfold start, TriggerSchema_parse.
  destruct (issues job) as [|issue found] eqn:Hissues.
  - destruct (createChunks w (Job.analysisType job) (content job)) as [cs|m] eqn:Hc.
    + split; [discriminate|constructor].
    + apply Explained_fail; [right; left; exact Hc|].
      split; [discriminate|constructor].
  - apply Explained_fail; [left; rewrite Hissues; split; [discriminate|reflexivity]|].
    split; [discriminate|constructor].
Qed.

Lemma reachable_Explained s : reachable w job s -> Explained w job s.
Proof.
  revert s. apply AccountingFacts.reachable_ind_Move; [apply start_Explained|].
  intros s s' Hs IH Hmove.
  pose proof (inv_chunks w s (WorkflowFacts.reachable_Invariant w job s Hs)) as Hlen.
  destruct Hmove as [i chunk Hlt Hi Hc|i skipped rest final Hi
                    |i chunk e es rest final Hi Hc Hcall
                    |i chunk e es rest final m Hi Hc Hcall
                    |i entities Hi|i m Hi|reason Hp Hr|validated m Hp Hres Hd
                    |validated final Hp Hres Hd Hcall
                    |validated final m Hp Hres Hd Hcall].
  - exact IH.
  - exact IH.
  - apply Explained_task, Explained_thought, IH.
  - eapply Explained_settle; [exact Hlen|exact Hi|apply Explained_thought, IH].
  - eapply Explained_settle; [exact Hlen|exact Hi|exact IH].
  - eapply Explained_settle; [exact Hlen|exact Hi|exact IH].
  - apply Explained_fail; [|exact IH]. right. right. apply (proj1 IH), Hr.
  - destruct (AccountingFacts.executeDeduplicationStep_ok w (concat validated)
                (Job.analysisType job)) as (final' & Hd' & _). congruence.
  - destruct IH as [Hr He]. split; [exact Hr|].
    cbn [finished withCall calls chunks]. apply Forall_app. split; [exact He|].
    constructor; [exact I|constructor].
  - destruct IH as [Hr He]. split; [exact Hr|].
    cbn [finished withCall calls chunks].
    apply Forall_app. split; [apply Forall_app; split; [exact He|]|];
      (constructor; [|constructor]); [exact I|].
    right. eexists _, _. split; [|exact Hcall]. reflexivity.
Qed.

End Errors.

(** X27. Every [error] event handed to the callback carries the message
    [Sensitive analysis failed: ] followed by its cause: the message of the
    schema for an invalid job, the message the chunker threw, or
    [Chunk N processing failed: ...] for a chunk N of the job; the one
    exception is the exception the callback itself threw on [complete]. *)
Theorem error_messages w job s message :
  reachable w job s ->
  error message ∈ calls s ->
  (exists cause,
     message = str "Sensitive analysis failed: " ++ cause /\
     ((issues job <> [] /\ cause = zodMessage w (issues job)) \/
      createChunks w (Job.analysisType job) (content job) = Throw cause \/
      chunkFailure (chunks s) cause)) \/
  (exists made ev, isComplete ev = true /\ onEvent w made ev = Throw message).
Proof.
  intros Hs Hin. destruct (reachable_Explained w job s Hs) as [_ He].
  rewrite Forall_forall in He. apply (He _ Hin).
Qed.

Lemma error_messages_witness :
  (exists cause,
     str "Sensitive analysis failed: Chunk 2 processing failed: Configuration error: Invalid OpenAI API key"
     = str "Sensitive analysis failed: " ++ cause /\
     ((issues Samples.job <> [] /\
       cause = zodMessage Samples.failingWorld (issues Samples.job)) \/
      createChunks Samples.failingWorld (Job.analysisType Samples.job)
        (content Samples.job) = Throw cause \/
      chunkFailure (chunks Samples.failedRun) cause)) \/
  (exists made ev, isComplete ev = true /\
     onEvent Samples.failingWorld made ev
     = Throw (str "Sensitive analysis failed: Chunk 2 processing failed: Configuration error: Invalid OpenAI API key")).
Proof.
  apply (error_messages Samples.failingWorld Samples.job Samples.failedRun).
  - apply WorkflowFacts.run_reachable, rtc_refl.
  - vm_compute. apply list_elem_of_In. vm_compute. tauto.
Defined.

End ErrorFacts.
